(** * Blink: alias namespace, validators and ranked search

    A shallow embedding of the validation, namespace and search code of the
    Blink URL-shortcut extension:

    - [src/services/validators.js]      (module [Validators])
    - [src/services/shortcutService.js] (modules [Store], [ShortcutService])
    - [src/services/folderService.js]   (module [FolderService])
    - [src/hooks/useSearchData.js]      (module [SearchData])
    - [src/hooks/useDebouncedSearch.js] (module [DebouncedSearch])

    Modelling conventions.  A JavaScript string is a [string]: a sequence of
    code units below 256.  A field that the code reads as [(x || '')] is a
    [string] whose empty value stands for a missing one.  An asynchronous
    function is its sequential result; a rejected promise or a thrown [Error]
    is the [inr] of a sum, and the record store is threaded explicitly. *)

From Stdlib Require Import String Ascii List Bool Arith NArith ZArith Lia.
From Stdlib Require Import Sorting.Sorted Sorting.Permutation.
Import ListNotations.

Local Open Scope string_scope.
Local Open Scope list_scope.

(* ================================================================== *)
(** ** JavaScript strings *)

Module JsString.

Definition code (c : ascii) : N := N_of_ascii c.

Definition in_range (lo hi : N) (c : ascii) : bool :=
  (lo <=? code c)%N && (code c <=? hi)%N.

Definition is_lower (c : ascii) : bool := in_range 97 122 c.
Definition is_upper (c : ascii) : bool := in_range 65 90 c.
Definition is_digit (c : ascii) : bool := in_range 48 57 c.
Definition is_hyphen (c : ascii) : bool := (code c =? 45)%N.
Definition is_underscore (c : ascii) : bool := (code c =? 95)%N.

(** White space removed by [String.prototype.trim], among the code units
    below 256: TAB, LF, VT, FF, CR, SPACE and NBSP. *)
Definition is_space (c : ascii) : bool :=
  in_range 9 13 c || (code c =? 32)%N || (code c =? 160)%N.

(** [toLowerCase] on one code unit: A-Z, and the Latin-1 capitals
    U+00C0..U+00DE except the multiplication sign U+00D7. *)
Definition lower_char (c : ascii) : ascii :=
  if is_upper c || (in_range 192 222 c && negb (code c =? 215)%N)
  then ascii_of_N (code c + 32)
  else c.

Fixpoint toLowerCase (s : string) : string :=
  match s with
  | EmptyString => EmptyString
  | String c s' => String (lower_char c) (toLowerCase s')
  end.

Fixpoint trimStart (s : string) : string :=
  match s with
  | EmptyString => EmptyString
  | String c s' => if is_space c then trimStart s' else s
  end.

Fixpoint trimEnd (s : string) : string :=
  match s with
  | EmptyString => EmptyString
  | String c s' =>
      match trimEnd s' with
      | EmptyString => if is_space c then EmptyString else String c EmptyString
      | r => String c r
      end
  end.

Definition trim (s : string) : string := trimEnd (trimStart s).

Fixpoint forallb (p : ascii -> bool) (s : string) : bool :=
  match s with
  | EmptyString => true
  | String c s' => p c && forallb p s'
  end.

Definition is_empty (s : string) : bool :=
  match s with EmptyString => true | _ => false end.

(** [/^[class]+$/.test(s)] *)
Definition test_plus (class : ascii -> bool) (s : string) : bool :=
  negb (is_empty s) && forallb class s.

(** [hay.includes(needle)] *)
Fixpoint includes (hay needle : string) : bool :=
  if prefix needle hay then true
  else match hay with
       | EmptyString => false
       | String _ hay' => includes hay' needle
       end.

(** [s.split(sep)] for a one-character separator. *)
Fixpoint split (sep : ascii) (s : string) : list string :=
  match s with
  | EmptyString => [EmptyString]
  | String c s' =>
      if Ascii.eqb c sep then EmptyString :: split sep s'
      else match split sep s' with
           | h :: t => String c h :: t
           | [] => [String c EmptyString]
           end
  end.

(** The string holds no ['/']. *)
Definition noSlash (s : string) : bool :=
  forallb (fun c => negb (Ascii.eqb c "/")) s.

End JsString.

(* ================================================================== *)
(** ** Arrays *)

Module JsArray.

Section Sort.
Context {A : Type}.

(** [Array.prototype.sort(compareFn)] is a stable sort.  [cmp a b] is the
    number returned by the comparator: negative when [a] goes first. *)
Variable cmp : A -> A -> Z.

Fixpoint insert (x : A) (l : list A) : list A :=
  match l with
  | [] => [x]
  | y :: l' => if (cmp x y <=? 0)%Z then x :: l else y :: insert x l'
  end.

Fixpoint sort (l : list A) : list A :=
  match l with
  | [] => []
  | x :: l' => insert x (sort l')
  end.
End Sort.

(** [a] may stand before [b] for the comparator. *)
Definition ordered {A} (cmp : A -> A -> Z) (a b : A) : Prop := (cmp a b <= 0)%Z.

(** [a.slice(0, n)] for a count [n]. *)
Definition slice0 {A} (n : nat) (l : list A) : list A := firstn n l.

(** [[...new Set(a)]]: first occurrences, in order. *)
Fixpoint dedupe (seen l : list string) : list string :=
  match l with
  | [] => []
  | x :: l' =>
      if existsb (String.eqb x) seen then dedupe seen l'
      else x :: dedupe (x :: seen) l'
  end.

(** The comparator of [sort()] without an argument, on strings. *)
Definition default_cmp (a b : string) : Z :=
  match String.compare a b with
  | Lt => (-1)%Z
  | Eq => 0%Z
  | Gt => 1%Z
  end.

End JsArray.

(* ================================================================== *)
(** ** validators.js *)

Module Validators.
Import JsString.

(** [{ valid: true }] or [{ valid: false, error }]. *)
Inductive vresult : Type :=
| Valid
| Invalid (error : string).

Definition alias_class (c : ascii) : bool :=
  is_lower c || is_digit c || is_hyphen c.

Definition folder_class (c : ascii) : bool :=
  is_lower c || is_upper c || is_digit c || is_hyphen c || is_underscore c.

Definition validateAlias (alias : string) : vresult :=
  if is_empty alias then Invalid "Alias is required"
  else
    let trimmed := trim alias in
    if is_empty trimmed then Invalid "Alias cannot be empty"
    else if (String.length trimmed <? 1)%nat then Invalid "Alias must be at least 1 character"
    else if (50 <? String.length trimmed)%nat then Invalid "Alias must be max 50 characters"
    else if negb (test_plus alias_class trimmed) then
      Invalid "Alias must be lowercase, no spaces, only letters, numbers, and hyphens (-)"
    else Valid.

Definition validateFolderName (folderName : string) : vresult :=
  if is_empty folderName then Valid
  else
    let trimmed := trim folderName in
    if is_empty trimmed then Valid
    else if (String.length trimmed <? 1)%nat then Invalid "Folder must be at least 1 character"
    else if (30 <? String.length trimmed)%nat then Invalid "Folder name must be max 30 characters"
    else if negb (test_plus folder_class trimmed) then
      Invalid "Folder name can only contain letters, numbers, hyphens (-), and underscores (_)"
    else Valid.

Definition validateTag (tag : string) : vresult :=
  if is_empty tag then Invalid "Tag must be a string"
  else
    let trimmed := trim tag in
    if is_empty trimmed then Invalid "Tag cannot be empty"
    else if (20 <? String.length trimmed)%nat then Invalid "Each tag must be max 20 characters"
    else if negb (String.eqb trimmed (toLowerCase trimmed)) then
      Invalid "Tags must be lowercase only"
    else if negb (test_plus alias_class trimmed) then
      Invalid "Tags can only contain lowercase letters, numbers, and hyphens (-)"
    else Valid.

(** The argument of [validateTags]: missing, a comma-separated string, or
    an array of strings. *)
Inductive tags_input : Type :=
| TagsMissing
| TagsString (s : string)
| TagsArray (a : list string).

Inductive tags_result : Type :=
| TagsValid (tags : list string)
| TagsInvalid (error : string).

(** The first failing [validateTag] of the loop, if any. *)
Fixpoint first_invalid (l : list string) : option string :=
  match l with
  | [] => None
  | t :: l' =>
      match validateTag t with
      | Invalid e => Some e
      | Valid => first_invalid l'
      end
  end.

Definition non_empty (t : string) : bool := (0 <? String.length t)%nat.

(** The body of [validateTags] after the input has become [tagArray]. *)
Definition validateTagArray (tagArray0 : list string) : tags_result :=
  let tagArray := filter non_empty tagArray0 in
  if (0 <? List.length tagArray)%nat && (20 <? List.length tagArray)%nat
  then TagsInvalid "Maximum 20 tags allowed"
  else match first_invalid tagArray with
       | Some e => TagsInvalid e
       | None =>
           TagsValid (JsArray.sort JsArray.default_cmp (JsArray.dedupe [] tagArray))
       end.

Definition validateTags (tags : tags_input) : tags_result :=
  match tags with
  | TagsMissing => TagsValid []
  | TagsString s =>
      if is_empty s then TagsValid []
      else if is_empty (trim s) then TagsValid []
      else validateTagArray (map trim (split "," s))
  | TagsArray a => validateTagArray (map trim a)
  end.

(** The non-empty trimmed entries of an input: what [validateTags] counts. *)
Definition tag_entries (tags : tags_input) : list string :=
  match tags with
  | TagsMissing => []
  | TagsString s => filter non_empty (map trim (split "," s))
  | TagsArray a => filter non_empty (map trim a)
  end.

(** [caseInsensitiveEqual(a, b)] *)
Definition caseInsensitiveEqual (a b : string) : bool :=
  String.eqb (toLowerCase (trim a)) (toLowerCase (trim b)).

End Validators.

(* ================================================================== *)
(** ** The [shortcuts] object store *)

Module Store.

(** A stored shortcut.  [lastAccessedAt] is the access time in
    milliseconds ([createShortcut] and [trackShortcutAccess] spell the field
    [lastAccessed]). *)
Record Shortcut : Type := mkShortcut {
  id : string;
  url : string;
  alias : string;
  folder : string;
  tags : list string;
  createdAt : string;
  updatedAt : string;
  lastAccessedAt : option Z;
  accessCount : nat;
  isFavorite : bool
}.

(** The object store has key path [id]; its records are kept, and returned
    by [getAll], in ascending key order. *)
Definition store : Type := list Shortcut.

Fixpoint get (k : string) (st : store) : option Shortcut :=
  match st with
  | [] => None
  | s :: st' => if String.eqb (id s) k then Some s else get k st'
  end.

Fixpoint insert_ordered (s : Shortcut) (st : store) : store :=
  match st with
  | [] => [s]
  | x :: st' =>
      if String.ltb (id s) (id x) then s :: st else x :: insert_ordered s st'
  end.

Definition delete (k : string) (st : store) : store :=
  filter (fun x => negb (String.eqb (id x) k)) st.

(** [store.add(s)]: fails when the key is taken. *)
Definition add (s : Shortcut) (st : store) : option store :=
  match get (id s) st with
  | Some _ => None
  | None => Some (insert_ordered s st)
  end.

(** [store.put(s)]: replaces the record under the key of [s]. *)
Definition put (s : Shortcut) (st : store) : store :=
  insert_ordered s (delete (id s) st).

Definition getAll (st : store) : list Shortcut := st.

End Store.

(* ================================================================== *)
(** ** validators.js: whole shortcuts *)

Module ShortcutValidation.
Import JsString Validators.

(** The object given to [validateShortcut]: the four validated fields. *)
Record draft : Type := mkDraft {
  d_url : string;
  d_alias : string;
  d_folder : string;
  d_tags : tags_input
}.

(** The [errors] object: one optional message per field. *)
Record field_errors : Type := mkErrors {
  e_url : option string;
  e_alias : option string;
  e_folder : option string;
  e_tags : option string
}.

Definition error_of (r : vresult) : option string :=
  match r with Valid => None | Invalid e => Some e end.

Section WithUrlParser.

(** [new URL(s).protocol], or [None] when the constructor throws: the
    URL parser belongs to the host platform. *)
Variable urlProtocol : string -> option string.

Definition validateUrl (url : string) : vresult :=
  if is_empty url then Invalid "URL is required"
  else
    let trimmed := trim url in
    if is_empty trimmed then Invalid "URL cannot be empty"
    else if (2048 <? String.length trimmed)%nat then
      Invalid "URL is too long (max 2048 characters)"
    else match urlProtocol trimmed with
         | Some p =>
             if String.eqb p "http:" || String.eqb p "https:" then Valid
             else Invalid "URL must use HTTP or HTTPS protocol"
         | None => Invalid "Invalid URL format"
         end.

(** [validateShortcut]: the normalized tags when every field is valid,
    the collected errors otherwise. *)
Definition validateShortcut (d : draft) : list string + field_errors :=
  let urlValidation := validateUrl (d_url d) in
  let aliasValidation := validateAlias (d_alias d) in
  let folderValidation := validateFolderName (d_folder d) in
  let tagsValidation := validateTags (d_tags d) in
  match urlValidation, aliasValidation, folderValidation, tagsValidation with
  | Valid, Valid, Valid, TagsValid tags => inl tags
  | _, _, _, _ =>
      inr {| e_url := error_of urlValidation;
             e_alias := error_of aliasValidation;
             e_folder := error_of folderValidation;
             e_tags := match tagsValidation with
                       | TagsValid _ => None
                       | TagsInvalid e => Some e
                       end |}
  end.

End WithUrlParser.

End ShortcutValidation.

(* ================================================================== *)
(** ** shortcutService.js *)

Module ShortcutService.
Import JsString Validators ShortcutValidation Store.

(** The errors thrown by the service. *)
Inductive error : Type :=
| ValidationFailed (errors : field_errors)
    (* Validation failed: <errors> *)
| AliasExists (fullAlias : string)
    (* Alias already exists: <fullAlias> *)
| NotFound (k : string)
    (* Shortcut not found: <id> *)
| RenameConflict (aliasName : string)
    (* Cannot rename folder: alias conflict for <alias> *)
| StoreFailed (what : string).
    (* Failed to create shortcut / Failed to update shortcut *)

(** The store after the call, and its result or thrown error. *)
Definition outcome (A : Type) : Type := (store * (A + error))%type.

(** The [folder] property of [updates]: absent, present with the value
    [undefined], or present with a string.  ([null] is checked, validated
    and read as the empty string is.) *)
Inductive folder_update : Type :=
| FolderAbsent
| FolderUndefined
| FolderGiven (folderName : string).

(** [updates]: the properties of the object given to [updateShortcut],
    each absent or present; [id] may be among them.  A [url] or [alias] of
    [undefined] reads as the empty string does (both are refused as
    missing), a [folder] of [undefined] does not. *)
Record patch : Type := mkPatch {
  p_id : option string;
  p_url : option string;
  p_alias : option string;
  p_folder : folder_update;
  p_tags : option tags_input;
  p_accessCount : option nat;
  p_lastAccessedAt : option Z;
  p_isFavorite : option bool
}.

(** [{}] *)
Definition no_updates : patch :=
  {| p_id := None; p_url := None; p_alias := None; p_folder := FolderAbsent;
     p_tags := None; p_accessCount := None; p_lastAccessedAt := None;
     p_isFavorite := None |}.

(** [{ folder: newName }] for a string [newName]. *)
Definition folder_patch (newName : string) : patch :=
  {| p_id := None; p_url := None; p_alias := None;
     p_folder := FolderGiven newName; p_tags := None;
     p_accessCount := None; p_lastAccessedAt := None; p_isFavorite := None |}.

(** [{ folder: undefined }] *)
Definition undefined_folder_patch : patch :=
  {| p_id := None; p_url := None; p_alias := None;
     p_folder := FolderUndefined; p_tags := None;
     p_accessCount := None; p_lastAccessedAt := None; p_isFavorite := None |}.

(** [`${folder ? folder + '/' : ''}${alias}`] *)
Definition displayAlias (folder alias : string) : string :=
  ((if is_empty folder then "" else folder ++ "/") ++ alias)%string.

Definition getShortcutByFullAlias (folder alias : string) (st : store)
  : option Shortcut :=
  let folderNorm := toLowerCase (trim folder) in
  let aliasNorm := toLowerCase (trim alias) in
  find (fun s =>
          let sFolderNorm := toLowerCase (trim (Store.folder s)) in
          let sAliasNorm := toLowerCase (trim (Store.alias s)) in
          String.eqb sFolderNorm folderNorm && String.eqb sAliasNorm aliasNorm)
       (getAll st).

Definition getShortcutsByFolder (folder : string) (st : store) : list Shortcut :=
  let folderNorm := toLowerCase (trim folder) in
  filter (fun s => String.eqb (toLowerCase (trim (Store.folder s))) folderNorm)
         (getAll st).

Definition or_else {A} (o : option A) (d : A) : A :=
  match o with Some a => a | None => d end.

Section WithUrlParser.
Variable urlProtocol : string -> option string.

(** [createShortcut(data)]; [newId] is the value of [uuidv4()] and [now]
    that of [formatDateISO()]. *)
Definition createShortcut (data : draft) (newId now : string) (st : store)
  : outcome Shortcut :=
  match validateShortcut urlProtocol data with
  | inr errors => (st, inr (ValidationFailed errors))
  | inl validTags =>
      match getShortcutByFullAlias (d_folder data) (d_alias data) st with
      | Some _ =>
          (st, inr (AliasExists (displayAlias (d_folder data) (d_alias data))))
      | None =>
          let shortcut :=
            {| id := newId;
               url := trim (d_url data);
               alias := trim (d_alias data);
               folder := if is_empty (d_folder data) then ""
                         else trim (d_folder data);
               tags := validTags;
               createdAt := now;
               updatedAt := now;
               lastAccessedAt := None;
               accessCount := 0;
               isFavorite := false |} in
          match add shortcut st with
          | Some st' => (st', inl shortcut)
          | None => (st, inr (StoreFailed "Failed to create shortcut"))
          end
      end
  end.

(** The [folder] of [{ ...existing, ...updates }].  An [undefined] folder
    is kept as the empty string, which is what every reader of the field
    takes it for ([s.folder || '']). *)
Definition merged_folder (existing : Shortcut) (updates : patch) : string :=
  match p_folder updates with
  | FolderAbsent => folder existing
  | FolderUndefined => EmptyString
  | FolderGiven folderName => folderName
  end.

(** [{ ...existing, ...updates }] *)
Definition merge (existing : Shortcut) (updates : patch) : Shortcut :=
  {| id := or_else (p_id updates) (id existing);
     url := or_else (p_url updates) (url existing);
     alias := or_else (p_alias updates) (alias existing);
     folder := merged_folder existing updates;
     tags := tags existing;
     createdAt := createdAt existing;
     updatedAt := updatedAt existing;
     lastAccessedAt := match p_lastAccessedAt updates with
                       | Some t => Some t
                       | None => lastAccessedAt existing
                       end;
     accessCount := or_else (p_accessCount updates) (accessCount existing);
     isFavorite := or_else (p_isFavorite updates) (isFavorite existing) |}.

(** The [tags] property of the merged object, before validation. *)
Definition merged_tags (existing : Shortcut) (updates : patch) : tags_input :=
  or_else (p_tags updates) (TagsArray (tags existing)).

Definition as_draft (updated : Shortcut) (t : tags_input) : draft :=
  {| d_url := url updated; d_alias := alias updated;
     d_folder := folder updated; d_tags := t |}.

(** [updates.alias || updates.folder !== undefined] *)
Definition identity_touched (updates : patch) : bool :=
  match p_alias updates with
  | Some a => negb (is_empty a)
  | None => false
  end
  || match p_folder updates with
     | FolderGiven _ => true
     | FolderAbsent | FolderUndefined => false
     end.

Definition updateShortcut (k : string) (updates : patch) (now : string)
           (st : store) : outcome Shortcut :=
  match get k st with
  | None => (st, inr (NotFound k))
  | Some existing =>
      let updated := merge existing updates in
      match validateShortcut urlProtocol
              (as_draft updated (merged_tags existing updates)) with
      | inr errors => (st, inr (ValidationFailed errors))
      | inl validTags =>
          let conflict :=
            if identity_touched updates then
              match getShortcutByFullAlias (folder updated) (alias updated) st with
              | Some existingAlias => negb (String.eqb (id existingAlias) k)
              | None => false
              end
            else false in
          if conflict then
            (st, inr (AliasExists (displayAlias (folder updated) (alias updated))))
          else
            let stored :=
              {| id := id updated; url := url updated; alias := alias updated;
                 folder := folder updated; tags := validTags;
                 createdAt := createdAt updated; updatedAt := now;
                 lastAccessedAt := lastAccessedAt updated;
                 accessCount := accessCount updated;
                 isFavorite := isFavorite updated |} in
            (put stored st, inl stored)
      end
  end.

Definition deleteShortcut (k : string) (st : store) : outcome unit :=
  (delete k st, inl tt).

(** The loop of [renameFolder] over the shortcuts read before it.  Every
    [updateShortcut] reads the clock for itself: [clock n] is the value of
    the call of [formatDateISO()] that follows [n] earlier ones. *)
Fixpoint renameLoop (newName : string) (clock : nat -> string)
         (shortcuts : list Shortcut) (updated : nat) (st : store)
  : outcome nat :=
  match shortcuts with
  | [] => (st, inl updated)
  | shortcut :: rest =>
      let conflict :=
        match getShortcutByFullAlias newName (alias shortcut) st with
        | Some existingAlias =>
            negb (String.eqb (id existingAlias) (id shortcut))
        | None => false
        end in
      if conflict then (st, inr (RenameConflict (alias shortcut)))
      else
        match updateShortcut (id shortcut) (folder_patch newName)
                (clock updated) st with
        | (st', inr e) => (st', inr e)
        | (st', inl _) => renameLoop newName clock rest (S updated) st'
        end
  end.

Definition renameFolder (oldName newName : string) (clock : nat -> string)
           (st : store) : outcome nat :=
  if caseInsensitiveEqual oldName newName then (st, inl 0)
  else renameLoop newName clock (getShortcutsByFolder oldName st) 0 st.

End WithUrlParser.

(** *** Search *)

(** The tier a shortcut falls into for the normalized query [q]. *)
Inductive tier : Type := Exact | Partial | TagMatch | UrlMatch.

Definition tier_eqb (a b : tier) : bool :=
  match a, b with
  | Exact, Exact | Partial, Partial | TagMatch, TagMatch
  | UrlMatch, UrlMatch => true
  | _, _ => false
  end.

Definition classify (q : string) (shortcut : Shortcut) : option tier :=
  let fullAlias :=
    (toLowerCase (folder shortcut) ++ "/" ++ toLowerCase (alias shortcut))%string in
  let aliasPart := toLowerCase (alias shortcut) in
  let folderPart := toLowerCase (folder shortcut) in
  let urlLower := toLowerCase (url shortcut) in
  let tagsLower := map toLowerCase (tags shortcut) in
  if String.eqb aliasPart q || String.eqb fullAlias q then Some Exact
  else if includes aliasPart q || includes fullAlias q || includes folderPart q
  then Some Partial
  else if existsb (fun t => includes t q) tagsLower then Some TagMatch
  else if includes urlLower q then Some UrlMatch
  else None.

(** The four arrays filled by the loop, each in the order of the scan. *)
Definition bucket (t : tier) (q : string) (all : list Shortcut) : list Shortcut :=
  filter (fun s => match classify q s with
                   | Some t' => tier_eqb t' t
                   | None => false
                   end) all.

Fixpoint searchLoop (q : string) (all : list Shortcut)
         (exact partial tagMatches urlMatches : list Shortcut)
  : list Shortcut * list Shortcut * list Shortcut * list Shortcut :=
  match all with
  | [] => (exact, partial, tagMatches, urlMatches)
  | shortcut :: rest =>
      match classify q shortcut with
      | Some Exact =>
          searchLoop q rest (exact ++ [shortcut]) partial tagMatches urlMatches
      | Some Partial =>
          searchLoop q rest exact (partial ++ [shortcut]) tagMatches urlMatches
      | Some TagMatch =>
          searchLoop q rest exact partial (tagMatches ++ [shortcut]) urlMatches
      | Some UrlMatch =>
          searchLoop q rest exact partial tagMatches (urlMatches ++ [shortcut])
      | None => searchLoop q rest exact partial tagMatches urlMatches
      end
  end.

Definition searchShortcuts (query : string) (st : store) : list Shortcut :=
  if is_empty query || is_empty (trim query) then []
  else
    let q := toLowerCase (trim query) in
    match searchLoop q (getAll st) [] [] [] [] with
    | (exact, partial, tagMatches, urlMatches) =>
        exact ++ partial ++ tagMatches ++ urlMatches
    end.

(** [(b.accessCount || 0) - (a.accessCount || 0)] *)
Definition byAccessCount (a b : Shortcut) : Z :=
  (Z.of_nat (accessCount b) - Z.of_nat (accessCount a))%Z.

Definition getFrequentShortcuts (limit : nat) (st : store) : list Shortcut :=
  JsArray.slice0 limit (JsArray.sort byAccessCount (getAll st)).

End ShortcutService.

(* ================================================================== *)
(** ** folderService.js *)

Module FolderService.
Import JsString Validators Store.

Record Folder : Type := mkFolder {
  name : string;
  folderCreatedAt : string
}.

(** The [folders] object store has key path [name]: a record is found by
    the exact string it was stored under. *)
Definition folders : Type := list Folder.

Fixpoint get (k : string) (fs : folders) : option Folder :=
  match fs with
  | [] => None
  | f :: fs' => if String.eqb (name f) k then Some f else get k fs'
  end.

Fixpoint insert_ordered (f : Folder) (fs : folders) : folders :=
  match fs with
  | [] => [f]
  | x :: fs' =>
      if String.ltb (name f) (name x) then f :: fs else x :: insert_ordered f fs'
  end.

Definition delete (k : string) (fs : folders) : folders :=
  filter (fun x => negb (String.eqb (name x) k)) fs.

Definition add (f : Folder) (fs : folders) : option folders :=
  match get (name f) fs with
  | Some _ => None
  | None => Some (insert_ordered f fs)
  end.

Inductive error : Type :=
| InvalidFolderName (message : string)
    (* Invalid folder name: <message> *)
| FolderExists (folderName : string)
    (* Folder already exists: <name> *)
| ShortcutError (e : ShortcutService.error)
| RenameFailed (what : string).
    (* Failed to rename folder *)

(** Both object stores after the call, and its result or thrown error. *)
Definition outcome (A : Type) : Type := (folders * store * (A + error))%type.

Definition getFolderByName (folderName : string) (fs : folders) : option Folder :=
  if is_empty folderName then None else get (trim folderName) fs.

Section WithUrlParser.
Variable urlProtocol : string -> option string.

(** [renameFolder(oldName, newName)].  The clock is read once by every
    shortcut update ([clock]), once for the record that is stored
    ([storedAt]) and once more for the record that is returned
    ([returnedAt]). *)
Definition renameFolder (oldName newName : string) (clock : nat -> string)
           (storedAt returnedAt : string)
           (fs : folders) (st : store) : outcome (option Folder) :=
  match validateFolderName newName with
  | Invalid e => (fs, st, inr (InvalidFolderName e))
  | Valid =>
      let normalizedOldName := trim oldName in
      let normalizedNewName := trim newName in
      if caseInsensitiveEqual normalizedOldName normalizedNewName then
        (fs, st, inl (getFolderByName normalizedOldName fs))
      else
        match getFolderByName normalizedNewName fs with
        | Some _ => (fs, st, inr (FolderExists normalizedNewName))
        | None =>
            match ShortcutService.renameFolder urlProtocol
                    normalizedOldName normalizedNewName clock st with
            | (st', inr e) => (fs, st', inr (ShortcutError e))
            | (st', inl _) =>
                let stored :=
                  {| name := normalizedNewName; folderCreatedAt := storedAt |} in
                let returned :=
                  {| name := normalizedNewName;
                     folderCreatedAt := returnedAt |} in
                match add stored (delete normalizedOldName fs) with
                | Some fs' => (fs', st', inl (Some returned))
                | None =>
                    (* the failed request aborts the transaction, which
                       undoes the delete *)
                    (fs, st', inr (RenameFailed "Failed to rename folder"))
                end
            end
        end
  end.

End WithUrlParser.

End FolderService.

(* ================================================================== *)
(** ** useSearchData.js: the cached search of the query controller *)

Module SearchData.
Import JsString Store.

(** What [resultsCache.current[key]] evaluates to: a stored result list,
    or a property that the empty object literal inherits. *)
Inductive cached : Type :=
| Results (results : list Shortcut)
| Inherited (property : string).

(** The own properties of [resultsCache.current], in creation order. *)
Definition cache : Type := list (string * list Shortcut).

Fixpoint own (k : string) (c : cache) : option (list Shortcut) :=
  match c with
  | [] => None
  | (k', v) :: c' => if String.eqb k' k then Some v else own k c'
  end.

(** The lower-case property names found on [Object.prototype]. *)
Definition inherited (k : string) : bool :=
  String.eqb k "constructor" || String.eqb k "__proto__".

Definition lookup (k : string) (c : cache) : option cached :=
  match own k c with
  | Some v => Some (Results v)
  | None => if inherited k then Some (Inherited k) else None
  end.

(** [c[k] = v] *)
Fixpoint set (k : string) (v : list Shortcut) (c : cache) : cache :=
  match c with
  | [] => [(k, v)]
  | (k', v') :: c' =>
      if String.eqb k' k then (k, v) :: c' else (k', v') :: set k v c'
  end.

Definition remove (k : string) (c : cache) : cache :=
  filter (fun kv => negb (String.eqb (fst kv) k)) c.

(** The value of a canonical array index, the keys that [Object.keys]
    lists first and in ascending order. *)
Fixpoint digits_value (acc : N) (s : string) : option N :=
  match s with
  | EmptyString => Some acc
  | String c s' =>
      if is_digit c then digits_value (acc * 10 + (code c - 48))%N s'
      else None
  end.

Definition array_index (k : string) : option N :=
  match k with
  | EmptyString => None
  | String c rest =>
      if String.eqb k "0" then Some 0%N
      else if (code c =? 48)%N then None
      else match digits_value 0 k with
           | Some n => if (n <=? 4294967294)%N then Some n else None
           | None => None
           end
  end.

Definition index_cmp (a b : N * string) : Z :=
  (Z.of_N (fst a) - Z.of_N (fst b))%Z.

Fixpoint index_keys (c : cache) : list (N * string) :=
  match c with
  | [] => []
  | (k, _) :: c' =>
      match array_index k with
      | Some n => (n, k) :: index_keys c'
      | None => index_keys c'
      end
  end.

Definition keys (c : cache) : list string :=
  map snd (JsArray.sort index_cmp (index_keys c))
  ++ map fst (filter (fun kv => match array_index (fst kv) with
                                | Some _ => false
                                | None => true
                                end) c).

(** [performSearch(query)] against the record store [st]: the cache after
    the call and the value returned (and passed to [setSearchResults]). *)
Definition performSearch (query : string) (st : store) (c : cache)
  : cache * cached :=
  if is_empty query || (String.length (trim query) =? 0)%nat then (c, Results [])
  else
    let normalizedQuery := toLowerCase (trim query) in
    match lookup normalizedQuery c with
    | Some hit => (c, hit)
    | None =>
        let results := ShortcutService.searchShortcuts query st in
        let c1 := set normalizedQuery results c in
        let cacheKeys := keys c1 in
        let c2 := if (50 <? List.length cacheKeys)%nat
                  then match cacheKeys with
                       | k0 :: _ => remove k0 c1
                       | [] => c1
                       end
                  else c1 in
        (c2, Results results)
    end.

Definition clearCache (c : cache) : cache := [].

End SearchData.

(* ================================================================== *)
(** ** useShortcutsData.js: the mutations issued by the presentation layer *)

Module ShortcutsData.
Import Store ShortcutValidation.

(** The record store together with the result cache of the search hook.
    The cache lives in a [useRef] of [useSearchData]; the mutation
    callbacks below have no reference to it. *)
Record app : Type := mkApp {
  db : store;
  resultsCache : SearchData.cache
}.

Section WithUrlParser.
Variable urlProtocol : string -> option string.

Definition createShortcut (data : draft) (newId now : string) (a : app) : app :=
  {| db := fst (ShortcutService.createShortcut urlProtocol data newId now (db a));
     resultsCache := resultsCache a |}.

Definition updateShortcut (k : string) (updates : ShortcutService.patch)
           (now : string) (a : app) : app :=
  {| db := fst (ShortcutService.updateShortcut urlProtocol k updates now (db a));
     resultsCache := resultsCache a |}.

Definition deleteShortcut (k : string) (a : app) : app :=
  match get k (db a) with
  | None => a
  | Some _ =>
      {| db := fst (ShortcutService.deleteShortcut k (db a));
         resultsCache := resultsCache a |}
  end.
End WithUrlParser.

(** A search issued through the hook. *)
Definition search (query : string) (a : app) : app * SearchData.cached :=
  let '(c, r) := SearchData.performSearch query (db a) (resultsCache a) in
  ({| db := db a; resultsCache := c |}, r).

Definition clearCache (a : app) : app :=
  {| db := db a; resultsCache := SearchData.clearCache (resultsCache a) |}.

End ShortcutsData.

(* ================================================================== *)
(** ** useDebouncedSearch.js: filtering and ordering of the search popup *)

Module DebouncedSearch.
Import JsString Store.

(** [searchText.split('/', 2)] destructured into [folderPart, aliasPart]. *)
Definition split2 (searchText : string) : string * option string :=
  match split "/" searchText with
  | [] => (EmptyString, None)
  | [a] => (a, None)
  | a :: b :: _ => (a, Some b)
  end.

(** [!aliasPart] *)
Definition missing (aliasPart : option string) : bool :=
  match aliasPart with
  | None => true
  | Some a => is_empty a
  end.

(** [item[field]] for the fields ['alias', 'url', 'tags', 'folder'], with
    an array joined by a space; [None] for a falsy value. *)
Definition field_values (item : Shortcut) : list (option string) :=
  let str v := if is_empty v then None else Some v in
  [str (alias item); str (url item);
   Some (String.concat " " (tags item)); str (folder item)].

(** The hook with its default options: [caseSensitive] is false. *)
Definition defaultSearchFunction (item : Shortcut) (query : string) : bool :=
  if is_empty (trim query) then true
  else
    let searchText := toLowerCase query in
    if includes searchText "/" then
      let '(folderPart, aliasPart) := split2 searchText in
      let itemFolder := toLowerCase (folder item) in
      let itemAlias := toLowerCase (alias item) in
      if missing aliasPart then includes itemFolder folderPart
      else includes itemFolder folderPart
           && includes itemAlias (ShortcutService.or_else aliasPart EmptyString)
    else
      existsb (fun fieldValue =>
                 match fieldValue with
                 | None => false
                 | Some valueToSearch =>
                     includes (toLowerCase valueToSearch) searchText
                 end)
              (field_values item).

Definition getMatchScore (searchText : string) (item : Shortcut) : Z :=
  if includes searchText "/" then
    let '(folderPart, aliasPart) := split2 searchText in
    let itemFolder := toLowerCase (folder item) in
    let itemAlias := toLowerCase (alias item) in
    let folderScore :=
      if String.eqb itemFolder folderPart then 100%Z
      else if includes itemFolder folderPart then 50%Z
      else 0%Z in
    let aliasScore :=
      if missing aliasPart then 0%Z
      else
        let a := ShortcutService.or_else aliasPart EmptyString in
        if String.eqb itemAlias a then 100%Z
        else if prefix a itemAlias then 75%Z
        else if includes itemAlias a then 25%Z
        else 0%Z in
    (folderScore + aliasScore)%Z
  else
    fold_left
      (fun score fieldValue =>
         let searchableValue :=
           toLowerCase (ShortcutService.or_else fieldValue EmptyString) in
         if String.eqb searchableValue searchText then (score + 100)%Z
         else if prefix searchText searchableValue then (score + 50)%Z
         else if includes searchableValue searchText then (score + 25)%Z
         else score)
      (field_values item) 0%Z.

Section WithCollation.

(** [a.localeCompare(b)]: the number returned by the collation of the
    host's default locale, which belongs to the host platform. *)
Variable localeCompare : string -> string -> Z.

Definition defaultSortFunction (query : string) (a b : Shortcut) : Z :=
  if is_empty (trim query) then 0%Z
  else
    let searchText := toLowerCase query in
    let scoreA := getMatchScore searchText a in
    let scoreB := getMatchScore searchText b in
    if negb (scoreA =? scoreB)%Z then (scoreB - scoreA)%Z
    else localeCompare (toLowerCase (alias a)) (toLowerCase (alias b)).

Definition filteredItems (items : list Shortcut) (debouncedQuery : string)
  : list Shortcut :=
  if is_empty (trim debouncedQuery) then items
  else
    let filtered :=
      filter (fun item => defaultSearchFunction item debouncedQuery) items in
    JsArray.sort (defaultSortFunction debouncedQuery) filtered.

End WithCollation.

End DebouncedSearch.

(* ================================================================== *)
(** ** The specification's notions *)

Module Spec.
Import JsString Validators Store.

(** Comparison form of a folder or alias. *)
Definition normalize (s : string) : string := toLowerCase (trim s).

(** [normalize(folder) + "/" + normalize(alias)], or [normalize(alias)]
    when the folder is empty. *)
Definition compositeKey (folder alias : string) : string :=
  if is_empty (normalize folder) then normalize alias
  else (normalize folder ++ "/" ++ normalize alias)%string.

Definition keyOf (s : Shortcut) : string :=
  compositeKey (Store.folder s) (Store.alias s).

(** No two live shortcuts share a composite key. *)
Definition uniqueKeys (st : store) : Prop := NoDup (map keyOf st).

(** Every live shortcut carries a validated alias and folder. *)
Definition validIdentity (s : Shortcut) : Prop :=
  validateAlias (Store.alias s) = Valid
  /\ validateFolderName (Store.folder s) = Valid.

(** Full alias: [folder + "/" + alias], or [alias] when the folder is
    empty. *)
Definition fullAlias (s : Shortcut) : string :=
  if is_empty (Store.folder s) then Store.alias s
  else (Store.folder s ++ "/" ++ Store.alias s)%string.

(** The alias accepted by the specification's [validateAlias]: trimmed
    length 1 to 50 over [A-Za-z0-9-]. *)
Definition spec_alias_class (c : ascii) : bool :=
  is_lower c || is_upper c || is_digit c || is_hyphen c.

Definition specAliasAccepted (s : string) : bool :=
  (1 <=? String.length (trim s))%nat && (String.length (trim s) <=? 50)%nat
  && forallb spec_alias_class (trim s).

(** The four tiers of a plain query, first match wins. *)
Definition specTier (q : string) (s : Shortcut) : option ShortcutService.tier :=
  let a := toLowerCase (Store.alias s) in
  let f := toLowerCase (Store.folder s) in
  let full := toLowerCase (fullAlias s) in
  if String.eqb a q || String.eqb full q then Some ShortcutService.Exact
  else if includes a q || includes full q || includes f q
  then Some ShortcutService.Partial
  else if existsb (fun t => includes (toLowerCase t) q) (Store.tags s)
  then Some ShortcutService.TagMatch
  else if includes (toLowerCase (Store.url s)) q then Some ShortcutService.UrlMatch
  else None.

Definition inTier (t : ShortcutService.tier) (q : string) (s : Shortcut) : bool :=
  match specTier q s with
  | Some t' => ShortcutService.tier_eqb t' t
  | None => false
  end.

(** Full-alias ascending, case-insensitively. *)
Definition byFullAlias (a b : Shortcut) : Z :=
  JsArray.default_cmp (toLowerCase (fullAlias a)) (toLowerCase (fullAlias b)).

(** The reference ranking of a plain query: the tiers in order, each
    ordered by full alias. *)
Definition referenceRanking (query : string) (candidates : list Shortcut)
  : list Shortcut :=
  let q := toLowerCase (trim query) in
  let tierOf t := JsArray.sort byFullAlias (filter (inTier t q) candidates) in
  tierOf ShortcutService.Exact ++ tierOf ShortcutService.Partial
  ++ tierOf ShortcutService.TagMatch ++ tierOf ShortcutService.UrlMatch.

(** The tiers in order, each in the order of the candidates. *)
Definition tieredInStoreOrder (query : string) (candidates : list Shortcut)
  : list Shortcut :=
  let q := toLowerCase (trim query) in
  filter (inTier ShortcutService.Exact q) candidates
  ++ filter (inTier ShortcutService.Partial q) candidates
  ++ filter (inTier ShortcutService.TagMatch q) candidates
  ++ filter (inTier ShortcutService.UrlMatch q) candidates.

(** Alias ascending. *)
Definition byAlias (a b : Shortcut) : Z :=
  JsArray.default_cmp (toLowerCase (Store.alias a)) (toLowerCase (Store.alias b)).

(** The folder listing of the specification: the shortcuts whose folder
    contains [folderPart], ordered by alias. *)
Definition referenceFolderListing (folderPart : string)
           (candidates : list Shortcut) : list Shortcut :=
  JsArray.sort byAlias
    (filter (fun s => includes (toLowerCase (Store.folder s)) folderPart)
            candidates).

(** The order of a folder listing in the search popup: the shortcuts whose
    folder is exactly [folderPart] first, then alias ascending. *)
Definition exactFolder (folderPart : string) (s : Shortcut) : bool :=
  String.eqb (toLowerCase (Store.folder s)) folderPart.

(** [localeCompare] is the collation of the host: [a] may stand before
    [b] when it does not return a positive number for their lower-cased
    aliases. *)
Definition listingOrder (localeCompare : string -> string -> Z)
           (folderPart : string) (a b : Shortcut) : Prop :=
  (exactFolder folderPart a = true /\ exactFolder folderPart b = false)
  \/ (exactFolder folderPart a = exactFolder folderPart b
      /\ (localeCompare (toLowerCase (Store.alias a))
                        (toLowerCase (Store.alias b)) <= 0)%Z).

(** [topFrequent]: highest access count, then more recent access, then
    full alias ascending. *)
Definition accessTime (s : Shortcut) : Z :=
  match lastAccessedAt s with Some t => t | None => (-1)%Z end.

Definition byFrequency (a b : Shortcut) : Z :=
  if negb (accessCount a =? accessCount b)%nat
  then (Z.of_nat (accessCount b) - Z.of_nat (accessCount a))%Z
  else if negb (accessTime a =? accessTime b)%Z
  then (accessTime b - accessTime a)%Z
  else byFullAlias a b.

Definition referenceTopFrequent (n : nat) (candidates : list Shortcut)
  : list Shortcut :=
  firstn n (JsArray.sort byFrequency candidates).

End Spec.

(* ================================================================== *)
(** ** Sequences of namespace operations *)

Module Namespace.
Import Store ShortcutValidation ShortcutService.

(** The mutating calls on the alias namespace. *)
Inductive operation : Type :=
| Create (data : draft) (newId now : string)
| Update (k : string) (updates : patch) (now : string)
| Rename (oldName newName : string) (clock : nat -> string).

(** The updates of the call carry no [id] and no [folder] of [undefined]. *)
Definition plain (op : operation) : Prop :=
  match op with
  | Update _ updates _ =>
      p_id updates = None /\ p_folder updates <> FolderUndefined
  | Create _ _ _ | Rename _ _ _ => True
  end.

Section WithUrlParser.
Variable urlProtocol : string -> option string.

(** The store left by one call, whether it returns or throws. *)
Definition run (op : operation) (st : store) : store :=
  match op with
  | Create data newId now => fst (createShortcut urlProtocol data newId now st)
  | Update k updates now => fst (updateShortcut urlProtocol k updates now st)
  | Rename oldName newName clock =>
      fst (renameFolder urlProtocol oldName newName clock st)
  end.

(** The stores that the loop of [renameFolder] passes through: one after
    each shortcut it has updated. *)
Fixpoint renameWrites (newName : string) (clock : nat -> string)
         (shortcuts : list Shortcut) (updated : nat) (st : store)
  : list store :=
  match shortcuts with
  | [] => []
  | shortcut :: rest =>
      let conflict :=
        match getShortcutByFullAlias newName (alias shortcut) st with
        | Some existingAlias =>
            negb (String.eqb (id existingAlias) (id shortcut))
        | None => false
        end in
      if conflict then []
      else
        match updateShortcut urlProtocol (id shortcut) (folder_patch newName)
                (clock updated) st with
        | (_, inr _) => []
        | (st', inl _) => st' :: renameWrites newName clock rest (S updated) st'
        end
  end.

(** The stores a call passes through, the last being the one it leaves. *)
Definition writes (op : operation) (st : store) : list store :=
  match op with
  | Rename oldName newName clock =>
      if Validators.caseInsensitiveEqual oldName newName then []
      else renameWrites newName clock (getShortcutsByFolder oldName st) 0 st
  | _ => [run op st]
  end.

(** Every store reached while a sequence of calls runs. *)
Fixpoint trace (ops : list operation) (st : store) : list store :=
  st :: match ops with
        | [] => []
        | op :: rest => writes op st ++ trace rest (run op st)
        end.

End WithUrlParser.

End Namespace.

(* ================================================================== *)
(** ** validators.js and formatters.js: the written form of a full alias *)

Module AliasSyntax.
Import JsString Validators.

(** The object returned by [parseAliasWithFolder]. *)
Record parsed : Type := mkParsed {
  pa_folder : string;
  pa_alias : string;
  pa_fullAlias : string
}.

(** [parseAliasWithFolder(aliasInput)] *)
Definition parseAliasWithFolder (aliasInput : string) : parsed :=
  let nothing :=
    {| pa_folder := EmptyString; pa_alias := EmptyString;
       pa_fullAlias := EmptyString |} in
  if is_empty aliasInput then nothing
  else
    let trimmed := trim aliasInput in
    if is_empty trimmed then nothing
    else
      let plain :=
        {| pa_folder := EmptyString; pa_alias := toLowerCase trimmed;
           pa_fullAlias := toLowerCase trimmed |} in
      if includes trimmed "/" then
        match split "/" trimmed with
        | [part0; part1] =>
            let folder := toLowerCase (trim part0) in
            let alias := toLowerCase (trim part1) in
            {| pa_folder := folder; pa_alias := alias;
               pa_fullAlias := (folder ++ "/" ++ alias)%string |}
        | _ => plain
        end
      else plain.

(** [validateFullAlias(folder, alias)]: the full alias, or the error of the
    first failing validator. *)
Definition validateFullAlias (folder alias : string) : string + string :=
  match validateFolderName folder with
  | Invalid e => inr e
  | Valid =>
      match validateAlias alias with
      | Invalid e => inr e
      | Valid =>
          let folderPart :=
            if negb (is_empty folder) && negb (is_empty (trim folder))
            then trim folder else EmptyString in
          let aliasPart := trim alias in
          inl (if negb (is_empty folderPart)
               then (folderPart ++ "/" ++ aliasPart)%string
               else aliasPart)
      end
  end.

(** [formatFullAlias(folder, alias)] of formatters.js *)
Definition formatFullAlias (folder alias : string) : string :=
  let folderPart :=
    if negb (is_empty folder) && negb (is_empty (trim folder))
    then trim folder else EmptyString in
  let aliasPart := trim alias in
  if negb (is_empty folderPart) then (folderPart ++ "/" ++ aliasPart)%string
  else aliasPart.

(** [parseFullAlias(fullAlias)] of formatters.js: [(folder, alias)] *)
Definition parseFullAlias (fullAlias : string) : string * string :=
  match split "/" fullAlias with
  | [part0; part1] => (trim part0, trim part1)
  | _ => (EmptyString, trim fullAlias)
  end.

End AliasSyntax.

(* ================================================================== *)
(** ** Numbers *)

Module JsNumber.

(** The natural number [m] as the nearest IEEE 754 double, ties to the even
    significand: the value of an arithmetic result [m] below [2^1024].  A
    double holds 53 significant bits. *)
Definition round (m : N) : N :=
  let bits := N.size m in
  if (bits <=? 53)%N then m
  else
    let unit := N.shiftl 1 (bits - 53) in
    let significand := N.shiftr m (bits - 53) in
    let rest := N.land m (unit - 1) in
    let half := N.shiftr unit 1 in
    if (rest <? half)%N then (significand * unit)%N
    else if (half <? rest)%N then ((significand + 1) * unit)%N
    else if N.even significand then (significand * unit)%N
    else ((significand + 1) * unit)%N.

(** [count + 1] on a count that is a natural number. *)
Definition plus_one (count : nat) : nat :=
  N.to_nat (round (N.of_nat count + 1)).

End JsNumber.

(* ================================================================== *)
(** ** shortcutService.js: lookups by URL, access tracking, bulk calls *)

Module ShortcutAccess.
Import JsString Validators Store ShortcutValidation ShortcutService.

(** [getShortcutByUrl(url)] *)
Definition getShortcutByUrl (url : string) (st : store) : option Shortcut :=
  if is_empty url then None
  else
    let normalizedUrl := toLowerCase (trim url) in
    find (fun s => String.eqb (toLowerCase (Store.url s)) normalizedUrl)
         (getAll st).

(** [getShortcutsByTag(tag)] *)
Definition getShortcutsByTag (tag : string) (st : store) : list Shortcut :=
  if is_empty tag then []
  else
    let tagNorm := toLowerCase (trim tag) in
    filter (fun s => existsb (fun t => String.eqb (toLowerCase t) tagNorm)
                             (tags s))
           (getAll st).

(** [trackShortcutAccess(shortcutId)]; [clock] is the value of [Date.now()]
    and [now] that of [formatDateISO()].  [None] stands for the rejection
    "Shortcut not found". *)
Definition trackShortcutAccess (shortcutId : string) (clock : Z) (now : string)
           (st : store) : store * option Shortcut :=
  match get shortcutId st with
  | None => (st, None)
  | Some shortcut =>
      let updatedShortcut :=
        {| id := id shortcut; url := url shortcut; alias := alias shortcut;
           folder := folder shortcut; tags := tags shortcut;
           createdAt := createdAt shortcut; updatedAt := now;
           lastAccessedAt := Some clock;
           accessCount := JsNumber.plus_one (accessCount shortcut);
           isFavorite := isFavorite shortcut |} in
      (put updatedShortcut st, Some updatedShortcut)
  end.

(** [{ tags }] *)
Definition tags_patch (newTags : list string) : patch :=
  {| p_id := None; p_url := None; p_alias := None; p_folder := FolderAbsent;
     p_tags := Some (TagsArray newTags); p_accessCount := None;
     p_lastAccessedAt := None; p_isFavorite := None |}.

(** The [operation] of [bulkOperation] with its [operationData].  The
    folder of a move is passed on as it is given: [None] is a call without
    [operationData]. *)
Inductive bulk : Type :=
| BulkDelete
| BulkAddTags (newTags : list string)
| BulkRemoveTag (tag : string)
| BulkMoveToFolder (operationData : option string)
| BulkOther (operation : string).

(** [{ folder: operationData }] *)
Definition move_patch (operationData : option string) : patch :=
  match operationData with
  | Some folderName => folder_patch folderName
  | None => undefined_folder_patch
  end.

(** The [error] of one entry of [results.errors]. *)
Inductive bulk_failure : Type :=
| MissingShortcut
    (* Shortcut not found *)
| UnknownOperation (operation : string)
    (* Unknown operation: <operation> *)
| Thrown (e : error).
    (* the message of the error caught *)

(** [{ updated, failed, errors }] *)
Record bulk_results : Type := mkResults {
  updated : nat;
  failed : nat;
  errors : list (string * bulk_failure)
}.

Definition one_more_updated (r : bulk_results) : bulk_results :=
  {| updated := updated r + 1; failed := failed r; errors := errors r |}.

Definition one_more_failed (k : string) (f : bulk_failure) (r : bulk_results)
  : bulk_results :=
  {| updated := updated r; failed := failed r + 1;
     errors := errors r ++ [(k, f)] |}.

Section WithUrlParser.
Variable urlProtocol : string -> option string.

(** One turn of the loop of [bulkOperation].  Every [updateShortcut] that
    gets as far as writing reads the clock for itself: [clock n] is the
    value of [formatDateISO()] after [n] earlier updates. *)
Definition bulkStep (op : bulk) (clock : nat -> string) (k : string)
           (state : store * bulk_results) : store * bulk_results :=
  let '(st, results) := state in
  match get k st with
  | None => (st, one_more_failed k MissingShortcut results)
  | Some shortcut =>
      let update updates :=
        match updateShortcut urlProtocol k updates
                (clock (updated results)) st with
        | (st', inl _) => (st', one_more_updated results)
        | (st', inr e) => (st', one_more_failed k (Thrown e) results)
        end in
      match op with
      | BulkDelete =>
          (fst (deleteShortcut k st), one_more_updated results)
      | BulkAddTags newTags =>
          update (tags_patch (JsArray.dedupe [] (tags shortcut ++ newTags)))
      | BulkRemoveTag tag =>
          update (tags_patch
                    (filter (fun t => negb (String.eqb t tag)) (tags shortcut)))
      | BulkMoveToFolder operationData => update (move_patch operationData)
      | BulkOther operation =>
          (st, one_more_failed k (UnknownOperation operation) results)
      end
  end.

(** [bulkOperation(ids, operation, operationData)] *)
Definition bulkOperation (ids : list string) (op : bulk)
           (clock : nat -> string) (st : store) : store * bulk_results :=
  fold_left (fun state k => bulkStep op clock k state) ids
            (st, {| updated := 0; failed := 0; errors := [] |}).

(** [undoDeletion(shortcut)] of useShortcutsData.js: the deleted record is
    handed to [createShortcut] as it is. *)
Definition undoDeletion (deleted : Shortcut) (newId now : string) (st : store)
  : outcome Shortcut :=
  createShortcut urlProtocol
    {| d_url := url deleted; d_alias := alias deleted;
       d_folder := folder deleted; d_tags := TagsArray (tags deleted) |}
    newId now st.

End WithUrlParser.

End ShortcutAccess.

(* ================================================================== *)
(** ** folderService.js: creating, deleting and collecting folders *)

Module Folders.
Import JsString Validators Store FolderService.

(** The errors thrown by these calls. *)
Inductive failure : Type :=
| Refused (e : FolderService.error)
    (* Invalid folder name / Folder already exists *)
| CreateFailed
    (* Failed to create folder *)
| NotEmpty (count : nat).
    (* Cannot delete folder: contains <count> shortcut(s) *)

(** [createFolder(name)] *)
Definition createFolder (folderName now : string) (fs : folders)
  : folders * (Folder + failure) :=
  match validateFolderName folderName with
  | Invalid e => (fs, inr (Refused (InvalidFolderName e)))
  | Valid =>
      let normalizedName := trim folderName in
      match getFolderByName normalizedName fs with
      | Some _ => (fs, inr (Refused (FolderExists normalizedName)))
      | None =>
          let folder := {| name := normalizedName; folderCreatedAt := now |} in
          match add folder fs with
          | Some fs' => (fs', inl folder)
          | None => (fs, inr CreateFailed)
          end
      end
  end.

(** [deleteFolder(name)]: the shortcuts are only read. *)
Definition deleteFolder (folderName : string) (fs : folders) (st : store)
  : folders * (unit + failure) :=
  let normalizedName := trim folderName in
  let shortcuts := ShortcutService.getShortcutsByFolder normalizedName st in
  if (0 <? List.length shortcuts)%nat
  then (fs, inr (NotEmpty (List.length shortcuts)))
  else (delete normalizedName fs, inl tt).

(** The loop of [cleanupEmptyFolders] over the folders read before it. *)
Fixpoint cleanupLoop (listed : list Folder) (deletedCount : nat)
         (fs : folders) (st : store) : folders * nat :=
  match listed with
  | [] => (fs, deletedCount)
  | folder :: rest =>
      match deleteFolder (name folder) fs st with
      | (fs', inl _) => cleanupLoop rest (deletedCount + 1) fs' st
      | (fs', inr _) => cleanupLoop rest deletedCount fs' st
      end
  end.

(** [cleanupEmptyFolders()] *)
Definition cleanupEmptyFolders (fs : folders) (st : store) : folders * nat :=
  cleanupLoop fs 0 fs st.

(** [getOrCreateFolder(name)]: [None] is the [null] returned for the root. *)
Definition getOrCreateFolder (folderName now : string) (fs : folders)
  : folders * (option Folder + failure) :=
  if is_empty folderName || is_empty (trim folderName) then (fs, inl None)
  else
    let normalizedName := trim folderName in
    match getFolderByName normalizedName fs with
    | Some folder => (fs, inl (Some folder))
    | None =>
        match createFolder normalizedName now fs with
        | (fs', inl folder) => (fs', inl (Some folder))
        | (fs', inr e) =>
            match getFolderByName normalizedName fs' with
            | Some folder => (fs', inl (Some folder))
            | None => (fs', inr e)
            end
        end
    end.

(** [isFolderNameAvailable(name)] *)
Definition isFolderNameAvailable (folderName : string) (fs : folders) : bool :=
  if is_empty folderName || is_empty (trim folderName) then true
  else match getFolderByName (trim folderName) fs with
       | Some _ => false
       | None => true
       end.

End Folders.

(* ================================================================== *)
(** ** useSearchData.js: the keys of the result cache *)

Module CacheKeys.
Import Store SearchData.

(** The key of the entry is no canonical array index: [Object.keys] lists
    it in creation order, after the index keys. *)
Definition plain_key (kv : string * list Shortcut) : bool :=
  match array_index (fst kv) with
  | Some _ => false
  | None => true
  end.

End CacheKeys.

(* ================================================================== *)
(** ** What a bulk operation is expected to leave under an id *)

Module BulkSpec.
Import JsString Validators Store ShortcutAccess.

(** The record [after] stored under the id of [before] once the operation
    has been applied to it.  Tags are compared as sets of trimmed,
    non-empty entries. *)
Definition applied (op : bulk) (before : Shortcut) (after : option Shortcut)
  : Prop :=
  match op with
  | BulkDelete => after = None
  | BulkAddTags newTags =>
      exists s', after = Some s'
        /\ folder s' = folder before /\ alias s' = alias before
        /\ forall t, In t (tags s')
                     <-> In t (tag_entries (TagsArray (tags before ++ newTags)))
  | BulkRemoveTag tag =>
      exists s', after = Some s'
        /\ folder s' = folder before /\ alias s' = alias before
        /\ forall t, In t (tags s')
                     <-> In t (tag_entries
                                 (TagsArray
                                    (filter (fun t => negb (String.eqb t tag))
                                            (tags before))))
  | BulkMoveToFolder operationData =>
      exists s', after = Some s'
        /\ folder s' = match operationData with
                       | Some folderName => folderName
                       | None => EmptyString
                       end
        /\ alias s' = alias before
        /\ forall t, In t (tags s')
                     <-> In t (tag_entries (TagsArray (tags before)))
  | BulkOther _ => False
  end.

End BulkSpec.

(* ================================================================== *)
(** ** useRecentShortcuts.js: the lists derived from the loaded shortcuts *)

Module RecentShortcuts.
Import Store.

(** [shortcut.lastAccessed || 0] *)
Definition lastAccessedOr0 (s : Shortcut) : Z :=
  match lastAccessedAt s with
  | Some t => t
  | None => 0%Z
  end.

(** [shortcut.lastAccessed && shortcut.lastAccessed > cutoffDate] *)
Definition accessedAfter (cutoffDate : Z) (s : Shortcut) : bool :=
  match lastAccessedAt s with
  | Some t => negb (t =? 0)%Z && (cutoffDate <? t)%Z
  | None => false
  end.

(** [(b.lastAccessed || 0) - (a.lastAccessed || 0)] *)
Definition byLastAccessed (a b : Shortcut) : Z :=
  (lastAccessedOr0 b - lastAccessedOr0 a)%Z.

(** The list computed by [updateRecentShortcuts]; [clock] is the value of
    [Date.now()]. *)
Definition recentShortcuts (clock recentDays : Z) (maxRecent : nat)
           (shortcuts : list Shortcut) : list Shortcut :=
  let cutoffDate := (clock - recentDays * 24 * 60 * 60 * 1000)%Z in
  JsArray.slice0 maxRecent
    (JsArray.sort byLastAccessed (filter (accessedAfter cutoffDate) shortcuts)).

(** The list computed by [updateFavoriteShortcuts]. *)
Definition favoriteShortcuts (shortcuts : list Shortcut) : list Shortcut :=
  JsArray.sort ShortcutService.byAccessCount (filter isFavorite shortcuts).

(** [getMostUsedShortcuts(limit)] *)
Definition getMostUsedShortcuts (limit : nat) (shortcuts : list Shortcut)
  : list Shortcut :=
  JsArray.slice0 limit
    (JsArray.sort ShortcutService.byAccessCount
       (filter (fun shortcut => (0 <? accessCount shortcut)%nat) shortcuts)).

End RecentShortcuts.

(* ================================================================== *)
(** ** Sample data *)

Module Samples.
Import JsString Validators Store ShortcutValidation.

(** A host URL parser restricted to what the samples need: the scheme of
    an [http://] or [https://] address. *)
Definition schemeOf (s : string) : option string :=
  if prefix "https://" s then Some "https:"
  else if prefix "http://" s then Some "http:"
  else None.

Definition shortcut (k folderName aliasName : string) : Shortcut :=
  {| id := k; url := "https://example.com"; alias := aliasName;
     folder := folderName; tags := []; createdAt := "2025-10-22T00:00:00Z";
     updatedAt := "2025-10-22T00:00:00Z"; lastAccessedAt := None;
     accessCount := 0; isFavorite := false |}.

Definition accessed (k aliasName : string) (count : nat) (at_ : Z) : Shortcut :=
  {| id := k; url := "https://example.com"; alias := aliasName;
     folder := ""; tags := []; createdAt := "2025-10-22T00:00:00Z";
     updatedAt := "2025-10-22T00:00:00Z"; lastAccessedAt := Some at_;
     accessCount := count; isFavorite := false |}.

Definition draftOf (folderName aliasName : string) : draft :=
  {| d_url := "https://example.com"; d_alias := aliasName;
     d_folder := folderName; d_tags := TagsMissing |}.

(** A reading of the clock. *)
Definition day : string := "2025-10-23T00:00:00Z".

(** A clock that stands still. *)
Definition at_time (now : string) : nat -> string := fun _ => now.

(** A host collation restricted to what the samples need: the order of
    the code units, except that ['_'] sorts before ['-'] and every digit and
    letter, as punctuation does in the root collation.  (The two characters
    ['_'] and [','] change places.) *)
Definition collation_unit (c : ascii) : ascii :=
  if Ascii.eqb c "_" then ","%char
  else if Ascii.eqb c "," then "_"%char
  else c.

Fixpoint collation_key (s : string) : string :=
  match s with
  | EmptyString => EmptyString
  | String c s' => String (collation_unit c) (collation_key s')
  end.

Definition collate (a b : string) : Z :=
  JsArray.default_cmp (collation_key a) (collation_key b).

(** Twenty-one distinct well-formed tags. *)
Definition twentyOneTags : list string :=
  ["t01"; "t02"; "t03"; "t04"; "t05"; "t06"; "t07"; "t08"; "t09"; "t10";
   "t11"; "t12"; "t13"; "t14"; "t15"; "t16"; "t17"; "t18"; "t19"; "t20";
   "t21"].

End Samples.

(* ================================================================== *)
(** * Properties *)

(** Case analysis on the condition of the first conditional of the goal. *)
Ltac case_branch :=
  match goal with
  | |- context [if ?c then _ else _] => destruct c
  end.

Ltac case_branch_eqn H :=
  match goal with
  | |- context [if ?c then _ else _] => destruct c eqn:H
  end.

(** ** Strings *)

Module JsStringFacts.
Import JsString.

Lemma is_empty_true (s : string) : is_empty s = true <-> s = EmptyString.
Proof. destruct s; simpl; split; congruence. Qed.

Lemma is_empty_false (s : string) : is_empty s = false <-> s <> EmptyString.
Proof. destruct s; simpl; split; congruence. Qed.

Lemma is_empty_length (s : string) :
  is_empty s = (String.length s =? 0)%nat.
Proof. destruct s; reflexivity. Qed.

Lemma trimEnd_spaces (s : string) :
  trimEnd s = EmptyString -> forallb is_space s = true.
Proof.
  induction s as [|c s IH]; simpl; [reflexivity|].
  destruct (trimEnd s) eqn:E; [|discriminate].
  destruct (is_space c); [intros _; simpl; auto | discriminate].
Qed.

Lemma trimStart_spaces (s : string) :
  forallb is_space (trimStart s) = true -> forallb is_space s = true.
Proof.
  induction s as [|c s IH]; simpl; [reflexivity|].
  destruct (is_space c) eqn:E; simpl; [auto|].
  rewrite E. simpl. discriminate.
Qed.

Lemma trim_empty_spaces (s : string) :
  trim s = EmptyString -> forallb is_space s = true.
Proof. intros H. apply trimStart_spaces, trimEnd_spaces, H. Qed.

Lemma split_no_sep (sep : ascii) (s : string) :
  forallb (fun c => negb (Ascii.eqb c sep)) s = true -> split sep s = [s].
Proof.
  induction s as [|c s IH]; simpl; [reflexivity|].
  intros H. apply andb_true_iff in H as [Hc Hs].
  apply negb_true_iff in Hc. rewrite Hc, (IH Hs). reflexivity.
Qed.

Lemma forallb_impl (p q : ascii -> bool) (s : string) :
  (forall c, p c = true -> q c = true) ->
  forallb p s = true -> forallb q s = true.
Proof.
  intros Hpq. induction s as [|c s IH]; simpl; [reflexivity|].
  intros H. apply andb_true_iff in H as [Hc Hs].
  rewrite (Hpq _ Hc), (IH Hs). reflexivity.
Qed.

Lemma space_not_comma (c : ascii) :
  is_space c = true -> negb (Ascii.eqb c ",") = true.
Proof.
  intros H. apply negb_true_iff, Ascii.eqb_neq. intros ->.
  vm_compute in H. discriminate.
Qed.

Lemma trim_spaces_empty (s : string) :
  forallb is_space s = true -> trim s = EmptyString.
Proof.
  unfold trim. induction s as [|c s IH]; simpl; [reflexivity|].
  intros H. apply andb_true_iff in H as [Hc Hs]. rewrite Hc. auto.
Qed.

Lemma trimStart_fixed (s : string) :
  match s with
  | EmptyString => True
  | String c _ => is_space c = false
  end -> trimStart s = s.
Proof. destruct s as [|c s]; simpl; [reflexivity|]. intros ->. reflexivity. Qed.

Lemma trimStart_head (s : string) :
  match trimStart s with
  | EmptyString => True
  | String c _ => is_space c = false
  end.
Proof.
  induction s as [|c s IH]; simpl; [exact I|].
  destruct (is_space c) eqn:E; [exact IH | exact E].
Qed.

Lemma trimEnd_head (s : string) :
  match s with
  | EmptyString => True
  | String c _ => is_space c = false
  end ->
  match trimEnd s with
  | EmptyString => True
  | String c _ => is_space c = false
  end.
Proof.
  destruct s as [|c s]; simpl; [trivial|]. intros Hc.
  destruct (trimEnd s); [rewrite Hc|]; exact Hc.
Qed.

Lemma trimEnd_idem (s : string) : trimEnd (trimEnd s) = trimEnd s.
Proof.
  induction s as [|c s IH]; simpl; [reflexivity|].
  destruct (trimEnd s) as [|d r] eqn:E.
  - destruct (is_space c) eqn:Hc; simpl; [reflexivity|]. rewrite Hc. reflexivity.
  - cbn [trimEnd]. cbn [trimEnd] in IH. rewrite IH. reflexivity.
Qed.

Lemma trim_idem (s : string) : trim (trim s) = trim s.
Proof.
  unfold trim. rewrite trimStart_fixed.
  - apply trimEnd_idem.
  - apply trimEnd_head, trimStart_head.
Qed.

Lemma toLowerCase_app (a b : string) :
  toLowerCase (a ++ b) = (toLowerCase a ++ toLowerCase b)%string.
Proof. induction a as [|c a IH]; simpl; [reflexivity|]. rewrite IH. reflexivity. Qed.

Lemma lower_char_slash (c : ascii) : lower_char c = "/"%char -> c = "/"%char.
Proof.
  destruct c as [b0 b1 b2 b3 b4 b5 b6 b7].
  destruct b0, b1, b2, b3, b4, b5, b6, b7; vm_compute; intros H;
    solve [reflexivity | discriminate H].
Qed.

Lemma forallb_trimStart (p : ascii -> bool) (s : string) :
  forallb p s = true -> forallb p (trimStart s) = true.
Proof.
  induction s as [|c s IH]; simpl; [reflexivity|].
  intros H. destruct (is_space c); [|exact H].
  apply andb_true_iff in H as [_ Hs]. auto.
Qed.

Lemma forallb_trimEnd (p : ascii -> bool) (s : string) :
  forallb p s = true -> forallb p (trimEnd s) = true.
Proof.
  induction s as [|c s IH]; simpl; [reflexivity|].
  intros H. apply andb_true_iff in H as [Hc Hs]. specialize (IH Hs).
  destruct (trimEnd s) as [|d r].
  - destruct (is_space c); simpl; [reflexivity|]. rewrite Hc. reflexivity.
  - simpl in *. rewrite Hc. exact IH.
Qed.

Lemma forallb_trim (p : ascii -> bool) (s : string) :
  forallb p s = true -> forallb p (trim s) = true.
Proof. intros H. apply forallb_trimEnd, forallb_trimStart, H. Qed.

Lemma forallb_app (p : ascii -> bool) (a b : string) :
  forallb p (a ++ b) = forallb p a && forallb p b.
Proof.
  induction a as [|c a IH]; simpl; [reflexivity|].
  rewrite IH, andb_assoc. reflexivity.
Qed.

Lemma lower_char_space (c : ascii) : is_space c = true -> lower_char c = c.
Proof.
  destruct c as [b0 b1 b2 b3 b4 b5 b6 b7].
  destruct b0, b1, b2, b3, b4, b5, b6, b7; vm_compute; intros H;
    solve [reflexivity | discriminate H].
Qed.

Lemma toLowerCase_spaces (s : string) :
  forallb is_space s = true -> toLowerCase s = s.
Proof.
  induction s as [|c s IH]; simpl; [reflexivity|].
  intros H. apply andb_true_iff in H as [Hc Hs].
  rewrite (lower_char_space c Hc), (IH Hs). reflexivity.
Qed.

End JsStringFacts.

(** ** Validators *)

Module ValidatorFacts.
Import JsString Validators JsStringFacts.

Lemma validateAlias_valid_iff (s : string) :
  validateAlias s = Valid <->
  (1 <= String.length (trim s) <= 50
   /\ forallb alias_class (trim s) = true).
Proof.
  unfold validateAlias, test_plus.
  destruct (is_empty s) eqn:Es.
  - apply is_empty_true in Es. subst s. simpl. split; [discriminate|].
    intros [[H _] _]. inversion H.
  - rewrite is_empty_length.
    destruct (String.length (trim s)) as [|n] eqn:El; simpl.
    + split; [discriminate|]. intros [[H _] _]. inversion H.
    + destruct (Nat.ltb_spec 50 (S n)) as [Hgt|Hle]; simpl.
      * split; [discriminate|]. intros [[_ H] _]. lia.
      * destruct (forallb alias_class (trim s)); simpl.
        -- split; [intros _; split; [lia|reflexivity] | reflexivity].
        -- split; [discriminate|]. intros [_ H]. discriminate.
Qed.

Lemma first_invalid_none (l : list string) :
  Forall (fun t => validateTag t = Valid) l -> first_invalid l = None.
Proof.
  induction 1 as [|t l Ht _ IH]; simpl; [reflexivity|].
  rewrite Ht. exact IH.
Qed.

Lemma blank_string_entries (s : string) :
  trim s = EmptyString ->
  filter non_empty (map trim (split "," s)) = [].
Proof.
  intros H. pose proof (trim_empty_spaces s H) as Hsp.
  rewrite (split_no_sep "," s).
  - simpl. rewrite H. reflexivity.
  - eapply forallb_impl; [|exact Hsp]. apply space_not_comma.
Qed.

(** What [validateTags] returns, from the entries it counts. *)
Lemma validateTags_entries (input : tags_input) :
  validateTags input =
  let entries := tag_entries input in
  if (20 <? List.length entries)%nat then TagsInvalid "Maximum 20 tags allowed"
  else match first_invalid entries with
       | Some e => TagsInvalid e
       | None =>
           TagsValid (JsArray.sort JsArray.default_cmp (JsArray.dedupe [] entries))
       end.
Proof.
  assert (Hbody : forall a, validateTagArray a =
    let entries := filter non_empty a in
    if (20 <? List.length entries)%nat then TagsInvalid "Maximum 20 tags allowed"
    else match first_invalid entries with
         | Some e => TagsInvalid e
         | None =>
             TagsValid (JsArray.sort JsArray.default_cmp (JsArray.dedupe [] entries))
         end).
  { intros a. unfold validateTagArray. cbv zeta.
    destruct (filter non_empty a) as [|x l]; reflexivity. }
  destruct input as [|s|a]; simpl.
  - reflexivity.
  - destruct (is_empty s) eqn:Es.
    + apply is_empty_true in Es. subst s. reflexivity.
    + destruct (is_empty (trim s)) eqn:Et.
      * apply is_empty_true in Et. rewrite (blank_string_entries s Et).
        reflexivity.
      * apply Hbody.
  - apply Hbody.
Qed.

End ValidatorFacts.

(** ** validateAlias and validateTags *)

Module ValidatorClaims.
Import JsString Validators JsStringFacts ValidatorFacts.

Lemma trimEnd_no_space (s : string) :
  forallb (fun c => negb (is_space c)) s = true -> trimEnd s = s.
Proof.
  induction s as [|c s IH]; simpl; [reflexivity|].
  intros H. apply andb_true_iff in H as [Hc Hs]. rewrite (IH Hs).
  apply negb_true_iff in Hc. rewrite Hc. destruct s; reflexivity.
Qed.

Lemma trim_no_space (s : string) :
  forallb (fun c => negb (is_space c)) s = true -> trim s = s.
Proof.
  intros H. unfold trim.
  assert (Hs : trimStart s = s).
  { destruct s as [|c s]; simpl in *; [reflexivity|].
    apply andb_true_iff in H as [Hc _]. apply negb_true_iff in Hc.
    rewrite Hc. reflexivity. }
  rewrite Hs. apply trimEnd_no_space, H.
Qed.

Lemma alias_class_not_space (c : ascii) :
  alias_class c = true -> negb (is_space c) = true.
Proof.
  unfold alias_class, is_space, is_lower, is_digit, is_hyphen, in_range.
  intros H. apply negb_true_iff.
  destruct (N.leb_spec 9 (code c)), (N.leb_spec (code c) 13),
    (N.eqb_spec (code c) 32), (N.eqb_spec (code c) 160); simpl; trivial;
    exfalso;
    destruct (N.leb_spec 97 (code c)), (N.leb_spec (code c) 122),
      (N.leb_spec 48 (code c)), (N.leb_spec (code c) 57),
      (N.eqb_spec (code c) 45); simpl in H; try discriminate; lia.
Qed.

(** C7 (as the code has it): [validateAlias] fails exactly when the
    trimmed input is empty, shorter than 1 or longer than 50 characters,
    or holds a character outside [a-z0-9-]; so every string of 1 to 50
    characters over [a-z0-9-] is accepted.  Upper-case letters are outside
    the accepted alphabet. *)
Theorem validateAlias_lowercase_policy (s : string) :
  (validateAlias s <> Valid <->
     (trim s = EmptyString \/ String.length (trim s) < 1
      \/ 50 < String.length (trim s)
      \/ forallb alias_class (trim s) = false))
  /\ (1 <= String.length s <= 50 -> forallb alias_class s = true ->
      validateAlias s = Valid).
Proof.
  split.
  - rewrite validateAlias_valid_iff. split.
    + intros H.
      destruct (forallb alias_class (trim s)) eqn:Ec; [|auto].
      destruct (Nat.ltb_spec (String.length (trim s)) 1); [auto|].
      destruct (Nat.ltb_spec 50 (String.length (trim s))); [auto|].
      exfalso. apply H. split; [lia | reflexivity].
    + intros [H|[H|[H|H]]] [[H1 H2] H3].
      * rewrite H in H1. simpl in H1. lia.
      * lia.
      * lia.
      * congruence.
  - intros Hlen Hc. apply validateAlias_valid_iff.
    rewrite trim_no_space; [auto|].
    eapply forallb_impl; [|exact Hc]. apply alias_class_not_space.
Qed.

Lemma validateAlias_lowercase_policy_witness :
  (1 <= String.length "meet-1" <= 50) /\ forallb alias_class "meet-1" = true
  /\ validateAlias "meet-1" = Valid.
Proof.
  split; [simpl; lia|]. split; [reflexivity|].
  apply (validateAlias_lowercase_policy "meet-1"); [simpl; lia | reflexivity].
Defined.

(** C7 (as stated) fails: "Meet" has 4 characters over [A-Za-z0-9-], yet
    [validateAlias] rejects it. *)
Lemma validateAlias_rejects_uppercase :
  Spec.specAliasAccepted "Meet" = true
  /\ validateAlias "Meet" =
     Invalid "Alias must be lowercase, no spaces, only letters, numbers, and hyphens (-)".
Proof. split; reflexivity. Qed.

(** C8 (as the code has it): when every counted entry is a valid tag,
    [validateTags] succeeds whenever there are at most 20 entries, and the
    too-many-tags failure occurs exactly when there are more than 20. *)
Theorem validateTags_limit_20 (input : tags_input) :
  Forall (fun t => validateTag t = Valid) (tag_entries input) ->
  (List.length (tag_entries input) <= 20 ->
     exists tags, validateTags input = TagsValid tags)
  /\ (validateTags input = TagsInvalid "Maximum 20 tags allowed" <->
      20 < List.length (tag_entries input)).
Proof.
  intros Hall. rewrite validateTags_entries. cbv zeta.
  rewrite (first_invalid_none _ Hall).
  destruct (Nat.ltb_spec 20 (List.length (tag_entries input))) as [Hgt|Hle].
  - split; [lia|]. split; [intros _; exact Hgt | reflexivity].
  - split; [intros _; eexists; reflexivity|].
    split; [discriminate | lia].
Qed.

Lemma validateTags_limit_20_witness :
  Forall (fun t => validateTag t = Valid) (tag_entries (TagsString "work, docs"))
  /\ ((List.length (tag_entries (TagsString "work, docs")) <= 20 ->
       exists tags, validateTags (TagsString "work, docs") = TagsValid tags)
      /\ (validateTags (TagsString "work, docs")
            = TagsInvalid "Maximum 20 tags allowed" <->
          20 < List.length (tag_entries (TagsString "work, docs")))).
Proof.
  assert (H : Forall (fun t => validateTag t = Valid)
                (tag_entries (TagsString "work, docs"))).
  { simpl. repeat constructor. }
  split; [exact H|].
  exact (validateTags_limit_20 (TagsString "work, docs") H).
Defined.

(** C8 (as stated) fails: 21 valid tags, fewer than 50, are refused. *)
Lemma validateTags_rejects_21_tags :
  Forall (fun t => validateTag t = Valid)
    (tag_entries (TagsArray Samples.twentyOneTags))
  /\ List.length (tag_entries (TagsArray Samples.twentyOneTags)) <= 50
  /\ validateTags (TagsArray Samples.twentyOneTags)
     = TagsInvalid "Maximum 20 tags allowed".
Proof.
  split; [|split].
  - simpl. repeat constructor.
  - simpl. lia.
  - reflexivity.
Qed.

End ValidatorClaims.

(** ** Array.prototype.sort *)

Module JsArrayFacts.
Import JsArray.

Section SortFacts.
Context {A : Type}.
Variable cmp : A -> A -> Z.

Lemma insert_perm (x : A) (l : list A) : Permutation (insert cmp x l) (x :: l).
Proof.
  induction l as [|y l IH]; simpl; [reflexivity|].
  destruct (cmp x y <=? 0)%Z; [reflexivity|].
  rewrite IH. apply perm_swap.
Qed.

Lemma sort_perm (l : list A) : Permutation (sort cmp l) l.
Proof.
  induction l as [|x l IH]; simpl; [reflexivity|].
  rewrite insert_perm. constructor. exact IH.
Qed.

Lemma sort_length (l : list A) : List.length (sort cmp l) = List.length l.
Proof. apply Permutation_length, sort_perm. Qed.

(** Stability: elements that the comparator ties keep their order. *)
Lemma filter_insert (p : A -> bool) (x : A) (l : list A) :
  (forall a b, p a = true -> p b = true -> (cmp a b <= 0)%Z) ->
  filter p (insert cmp x l) = filter p (x :: l).
Proof.
  intros Htie. induction l as [|y l IH]; [reflexivity|].
  simpl insert. destruct (Z.leb_spec (cmp x y) 0) as [Hle|Hgt]; [reflexivity|].
  simpl. rewrite IH. simpl.
  destruct (p x) eqn:Hx, (p y) eqn:Hy; try reflexivity.
  specialize (Htie x y Hx Hy). lia.
Qed.

Lemma filter_sort (p : A -> bool) (l : list A) :
  (forall a b, p a = true -> p b = true -> (cmp a b <= 0)%Z) ->
  filter p (sort cmp l) = filter p l.
Proof.
  intros Htie. induction l as [|x l IH]; [reflexivity|].
  simpl sort. rewrite filter_insert by exact Htie.
  simpl. rewrite IH. reflexivity.
Qed.

Hypothesis cmp_total : forall a b, (0 < cmp a b)%Z -> (cmp b a <= 0)%Z.

Lemma insert_sorted (x : A) (l : list A) :
  Sorted (ordered cmp) l -> Sorted (ordered cmp) (insert cmp x l).
Proof.
  induction l as [|y l IH]; simpl; intros Hs.
  - repeat constructor.
  - destruct (Z.leb_spec (cmp x y) 0) as [Hle|Hgt].
    + constructor; [exact Hs|]. constructor. exact Hle.
    + apply Sorted_inv in Hs as [Hs Hhd].
      constructor; [apply IH, Hs|].
      destruct l as [|z l]; simpl.
      * constructor. apply cmp_total, Hgt.
      * destruct (Z.leb_spec (cmp x z) 0).
        -- constructor. apply cmp_total, Hgt.
        -- constructor. inversion Hhd; assumption.
Qed.

Lemma sort_sorted (l : list A) : Sorted (ordered cmp) (sort cmp l).
Proof.
  induction l as [|x l IH]; simpl; [constructor|].
  apply insert_sorted, IH.
Qed.

Hypothesis cmp_trans :
  forall a b c, (cmp a b <= 0)%Z -> (cmp b c <= 0)%Z -> (cmp a c <= 0)%Z.

Lemma sort_strongly_sorted (l : list A) :
  StronglySorted (ordered cmp) (sort cmp l).
Proof.
  apply Sorted_StronglySorted; [|apply sort_sorted].
  intros a b c. apply cmp_trans.
Qed.

End SortFacts.

Lemma strongly_sorted_app {A} (R : A -> A -> Prop) (l1 l2 : list A) :
  StronglySorted R (l1 ++ l2) ->
  StronglySorted R l1 /\ forall x y, In x l1 -> In y l2 -> R x y.
Proof.
  induction l1 as [|a l1 IH]; simpl; intros H.
  - split; [constructor | intros x y []].
  - apply StronglySorted_inv in H as [Hs Hall].
    destruct (IH Hs) as [Hs1 Hcross].
    rewrite Forall_app in Hall. destruct Hall as [Ha1 Ha2].
    split; [constructor; assumption|].
    intros x y [->|Hx] Hy.
    + rewrite Forall_forall in Ha2. auto.
    + auto.
Qed.

End JsArrayFacts.

(** ** getFrequentShortcuts *)

Module FrequentClaims.
Import Store ShortcutService JsArray JsArrayFacts.

Lemma byAccessCount_total (a b : Shortcut) :
  (0 < byAccessCount a b)%Z -> (byAccessCount b a <= 0)%Z.
Proof. unfold byAccessCount. lia. Qed.

Lemma byAccessCount_trans (a b c : Shortcut) :
  (byAccessCount a b <= 0)%Z -> (byAccessCount b c <= 0)%Z ->
  (byAccessCount a c <= 0)%Z.
Proof. unfold byAccessCount. lia. Qed.

(** C9 (as the code has it): [getFrequentShortcuts(n)] returns the first
    [n] of the stored shortcuts ordered by access count, highest first:
    it has [min n |store|] elements, no shortcut left out has a higher
    count than one returned, and shortcuts of equal count keep the order of
    the store (there is no further tie-break). *)
Theorem getFrequentShortcuts_by_count (limit : nat) (st : store) :
  let top := getFrequentShortcuts limit st in
  List.length top = Nat.min limit (List.length st)
  /\ (exists rest,
        Permutation (top ++ rest) st
        /\ forall x y, In x top -> In y rest -> accessCount y <= accessCount x)
  /\ StronglySorted (fun a b => accessCount b <= accessCount a) top
  /\ (forall c, exists later,
        filter (fun s => (accessCount s =? c)%nat) st
        = filter (fun s => (accessCount s =? c)%nat) top ++ later).
Proof.
  unfold getFrequentShortcuts, slice0, getAll. cbv zeta.
  set (sorted := sort byAccessCount st).
  assert (Hss : StronglySorted (ordered byAccessCount) sorted).
  { apply sort_strongly_sorted;
      [apply byAccessCount_total | apply byAccessCount_trans]. }
  rewrite <- (firstn_skipn limit sorted) in Hss.
  apply strongly_sorted_app in Hss as [Htop Hcross].
  split; [|split; [|split]].
  - rewrite length_firstn. unfold sorted. rewrite sort_length. reflexivity.
  - exists (skipn limit sorted). split.
    + rewrite firstn_skipn. apply sort_perm.
    + intros x y Hx Hy. specialize (Hcross x y Hx Hy).
      unfold ordered, byAccessCount in Hcross. lia.
  - eapply StronglySorted_ind with (R := ordered byAccessCount)
      (P := StronglySorted (fun a b => accessCount b <= accessCount a));
      [constructor | | exact Htop].
    intros a l _ IH Hall. constructor; [exact IH|].
    eapply Forall_impl; [|exact Hall].
    intros b Hb. unfold ordered, byAccessCount in Hb. lia.
  - intros c. exists (filter (fun s => (accessCount s =? c)%nat) (skipn limit sorted)).
    rewrite <- filter_app, firstn_skipn. unfold sorted.
    symmetry. apply filter_sort.
    intros a b Ha Hb. apply Nat.eqb_eq in Ha, Hb.
    unfold byAccessCount. lia.
Qed.

(** C9 (as stated) fails: of two shortcuts opened five times each, the
    one opened more recently is claimed first; the code keeps the order of
    the store. *)
Lemma getFrequentShortcuts_ignores_recency :
  let older := Samples.accessed "1" "alpha" 5 100 in
  let newer := Samples.accessed "2" "beta" 5 200 in
  getFrequentShortcuts 1 [older; newer] = [older]
  /\ Spec.referenceTopFrequent 1 [older; newer] = [newer].
Proof. split; reflexivity. Qed.

End FrequentClaims.

(** ** searchShortcuts *)

Module SearchClaims.
Import JsString Store ShortcutService JsStringFacts.

(** A non-blank query without ['/'] normalizes to a string that starts
    with another character. *)
Lemma normalized_head (query : string) :
  trim query <> EmptyString -> noSlash query = true ->
  exists c q', toLowerCase (trim query) = String c q' /\ c <> "/"%char.
Proof.
  intros Hne Hns. apply (forallb_trim _ query) in Hns.
  destruct (trim query) as [|c r]; [congruence|].
  simpl in Hns. apply andb_true_iff in Hns as [Hc _].
  apply negb_true_iff, Ascii.eqb_neq in Hc.
  exists (lower_char c), (toLowerCase r). split; [reflexivity|].
  intros H. apply Hc, lower_char_slash, H.
Qed.

Lemma eqb_slash_head (a : string) (c : ascii) (q' : string) :
  c <> "/"%char -> String.eqb (String "/" a) (String c q') = false.
Proof.
  intros Hc. apply String.eqb_neq. intros H. injection H as H _. congruence.
Qed.

Lemma includes_slash_head (a : string) (c : ascii) (q' : string) :
  c <> "/"%char ->
  includes (String "/" a) (String c q') = includes a (String c q').
Proof.
  intros Hc. cbn [includes prefix].
  destruct (ascii_dec c "/") as [E|_]; [congruence | reflexivity].
Qed.

(** Lower-casing the tags first, or each tag as it is tested. *)
Lemma tag_match_lowered (q : string) (tagList : list string) :
  existsb (fun t => includes t q) (map toLowerCase tagList)
  = existsb (fun t => includes (toLowerCase t) q) tagList.
Proof.
  induction tagList as [|t tagList IH]; simpl; [|rewrite IH]; reflexivity.
Qed.

(** On such a query the tests of the loop select the tiers of the
    specification. *)
Lemma classify_specTier (c : ascii) (q' : string) (s : Shortcut) :
  c <> "/"%char -> classify (String c q') s = Spec.specTier (String c q') s.
Proof.
  intros Hc. unfold classify, Spec.specTier, Spec.fullAlias. cbv zeta.
  rewrite tag_match_lowered.
  destruct (folder s) as [|d f] eqn:Ef.
  - cbn [is_empty toLowerCase String.append].
    rewrite (eqb_slash_head _ c q' Hc), (includes_slash_head _ c q' Hc).
    destruct (String.eqb (toLowerCase (alias s)) (String c q')); [reflexivity|].
    cbn [orb].
    destruct (includes (toLowerCase (alias s)) (String c q')); reflexivity.
  - cbn [is_empty]. rewrite !toLowerCase_app. reflexivity.
Qed.

Lemma searchLoop_buckets (q : string) (all exact partial tagMatches urlMatches : list Shortcut) :
  searchLoop q all exact partial tagMatches urlMatches =
  (exact ++ bucket Exact q all, partial ++ bucket Partial q all,
   tagMatches ++ bucket TagMatch q all, urlMatches ++ bucket UrlMatch q all).
Proof.
  revert exact partial tagMatches urlMatches.
  induction all as [|s all IH]; intros e p t u; simpl.
  - rewrite !app_nil_r. reflexivity.
  - unfold bucket in *. simpl.
    destruct (classify q s) as [[]|]; simpl; rewrite IH, <- ?app_assoc;
      reflexivity.
Qed.

Lemma tier_eqb_eq (a b : tier) : tier_eqb a b = true -> a = b.
Proof. destruct a, b; simpl; congruence. Qed.

(** C4 (as the code has it): for a non-blank query without ['/'] the
    result is the four tiers in order (exact, partial, tag, URL), each
    shortcut in the one tier it first qualifies for, and each tier in the
    order in which the store returns its shortcuts. *)
Theorem searchShortcuts_tiers_in_store_order (query : string) (st : store) :
  trim query <> EmptyString -> noSlash query = true ->
  searchShortcuts query st = Spec.tieredInStoreOrder query st
  /\ forall s t1 t2,
      Spec.inTier t1 (toLowerCase (trim query)) s = true ->
      Spec.inTier t2 (toLowerCase (trim query)) s = true -> t1 = t2.
Proof.
  intros Hne Hns. split.
  - destruct (normalized_head query Hne Hns) as (c & q' & Hq & Hc).
    unfold searchShortcuts, Spec.tieredInStoreOrder, getAll. cbv zeta.
    assert (Hq0 : is_empty query = false).
    { destruct query; [exfalso; apply Hne; reflexivity | reflexivity]. }
    apply is_empty_false in Hne. rewrite Hq0, Hne. cbn [orb].
    rewrite searchLoop_buckets. cbn [app]. rewrite Hq.
    unfold bucket, Spec.inTier.
    f_equal; [|f_equal; [|f_equal]]; apply filter_ext; intros s;
      rewrite (classify_specTier c q' s Hc); reflexivity.
  - intros s t1 t2. unfold Spec.inTier.
    destruct (Spec.specTier (toLowerCase (trim query)) s) as [t|];
      [|discriminate].
    intros H1 H2. apply tier_eqb_eq in H1, H2. congruence.
Qed.

Lemma searchShortcuts_tiers_in_store_order_witness :
  trim "meet" <> EmptyString /\ noSlash "meet" = true
  /\ searchShortcuts "meet"
       [Samples.shortcut "1" "" "meet-b"; Samples.shortcut "2" "" "meet-a"]
     = Spec.tieredInStoreOrder "meet"
         [Samples.shortcut "1" "" "meet-b"; Samples.shortcut "2" "" "meet-a"].
Proof.
  split; [discriminate|]. split; [reflexivity|].
  apply searchShortcuts_tiers_in_store_order; [discriminate | reflexivity].
Defined.

(** C4 (as stated) fails: two partial matches stored as [meet-b] then
    [meet-a] are returned in that order, not by full alias ascending. *)
Lemma searchShortcuts_keeps_store_order :
  let b := Samples.shortcut "1" "" "meet-b" in
  let a := Samples.shortcut "2" "" "meet-a" in
  trim "meet" <> EmptyString /\ noSlash "meet" = true
  /\ searchShortcuts "meet" [b; a] = [b; a]
  /\ Spec.referenceRanking "meet" [b; a] = [a; b].
Proof. repeat split; discriminate. Qed.

End SearchClaims.

(** ** Folder listings *)

Module FolderListingClaims.
Import JsString Store DebouncedSearch JsStringFacts JsArray JsArrayFacts.

Lemma includes_refl_slash (f : string) : includes (f ++ "/") "/" = true.
Proof.
  induction f as [|c f IH]; [reflexivity|].
  cbn [String.append includes]. rewrite IH.
  destruct (prefix "/" (String c (f ++ "/"))); reflexivity.
Qed.

Lemma split_trailing_slash (f : string) :
  noSlash f = true -> split "/" (f ++ "/") = [f; EmptyString].
Proof.
  unfold noSlash. induction f as [|c f IH]; [reflexivity|].
  cbn [forallb String.append split]. intros H.
  apply andb_true_iff in H as [Hc Hf]. apply negb_true_iff in Hc.
  rewrite Hc, (IH Hf). reflexivity.
Qed.

(** A query that holds a ['/'] is not blank. *)
Lemma listing_query_not_blank (query f : string) :
  toLowerCase query = (f ++ "/")%string -> is_empty (trim query) = false.
Proof.
  intros Hq. apply is_empty_false. intros Ht.
  pose proof (trim_empty_spaces query Ht) as Hsp.
  rewrite (toLowerCase_spaces query Hsp) in Hq. rewrite Hq in Hsp.
  rewrite forallb_app in Hsp. apply andb_true_iff in Hsp as [_ Hsl].
  vm_compute in Hsl. discriminate.
Qed.

Lemma defaultSearchFunction_listing (query f : string) (item : Shortcut) :
  toLowerCase query = (f ++ "/")%string -> noSlash f = true ->
  defaultSearchFunction item query = includes (toLowerCase (folder item)) f.
Proof.
  intros Hq Hf. unfold defaultSearchFunction.
  rewrite (listing_query_not_blank query f Hq), Hq, includes_refl_slash.
  unfold split2. rewrite (split_trailing_slash f Hf). reflexivity.
Qed.

Lemma getMatchScore_listing (f : string) (item : Shortcut) :
  noSlash f = true ->
  includes (toLowerCase (folder item)) f = true ->
  getMatchScore (f ++ "/") item
  = if Spec.exactFolder f item then 100%Z else 50%Z.
Proof.
  intros Hf Hin. unfold getMatchScore, Spec.exactFolder.
  rewrite includes_refl_slash. unfold split2.
  rewrite (split_trailing_slash f Hf). cbn [missing is_empty].
  rewrite Hin. destruct (String.eqb (toLowerCase (folder item)) f); reflexivity.
Qed.

Lemma default_cmp_leb (a b : string) :
  (default_cmp a b <= 0)%Z -> String.leb a b = true.
Proof.
  unfold default_cmp, String.leb.
  destruct (String.compare a b); [reflexivity | reflexivity | lia].
Qed.

Lemma default_cmp_total (a b : string) :
  (0 < default_cmp a b)%Z -> (default_cmp b a <= 0)%Z.
Proof.
  unfold default_cmp. rewrite (String.compare_antisym a b).
  destruct (String.compare b a); simpl; lia.
Qed.

(** The comparator of the popup is as consistent as the host's collation
    is. *)
Lemma defaultSortFunction_total
      (localeCompare : string -> string -> Z) (query : string)
      (a b : Shortcut) :
  (forall x y, (0 < localeCompare x y)%Z -> (localeCompare y x <= 0)%Z) ->
  (0 < defaultSortFunction localeCompare query a b)%Z ->
  (defaultSortFunction localeCompare query b a <= 0)%Z.
Proof.
  intros Htotal.
  unfold defaultSortFunction. destruct (is_empty (trim query)); [lia|].
  cbv zeta. rewrite (Z.eqb_sym (getMatchScore _ b)).
  destruct (Z.eqb_spec (getMatchScore (toLowerCase query) a)
                       (getMatchScore (toLowerCase query) b)); simpl.
  - apply Htotal.
  - lia.
Qed.

(** The sample collation is a consistent comparator. *)
Lemma collate_total (x y : string) :
  (0 < Samples.collate x y)%Z -> (Samples.collate y x <= 0)%Z.
Proof. apply default_cmp_total. Qed.

Lemma sorted_among {A} (P : A -> Prop) (R R' : A -> A -> Prop) (l : list A) :
  (forall a b, P a -> P b -> R a b -> R' a b) ->
  Forall P l -> Sorted R l -> Sorted R' l.
Proof.
  intros Himp Hall Hs. induction Hs as [|a l Hs IH Hhd]; [constructor|].
  apply Forall_cons_iff in Hall as [Pa Pl].
  constructor; [apply IH, Pl|].
  destruct Hhd as [|b l' Hab]; constructor.
  apply Forall_cons_iff in Pl as [Pb _]. auto.
Qed.

(** C5 (as the code has it): for a query whose lower-cased form is
    [folderPart/], the filter of the search popup keeps exactly the
    shortcuts whose folder contains [folderPart], each once, and lists those
    whose folder is exactly [folderPart] first; within each of the two
    groups every shortcut is followed by one that [localeCompare], the
    collation of the host, does not put before it by its lower-cased alias.
    (The collation is a consistent comparator: of [x.localeCompare(y)] and
    [y.localeCompare(x)] at most one is positive.) *)
Theorem folder_listing_exact_folder_first
        (localeCompare : string -> string -> Z)
        (items : list Shortcut) (query folderPart : string) :
  (forall x y, (0 < localeCompare x y)%Z -> (localeCompare y x <= 0)%Z) ->
  toLowerCase query = (folderPart ++ "/")%string ->
  noSlash folderPart = true ->
  Permutation (filteredItems localeCompare items query)
    (filter (fun s => includes (toLowerCase (folder s)) folderPart) items)
  /\ Sorted (Spec.listingOrder localeCompare folderPart)
            (filteredItems localeCompare items query).
Proof.
  intros Htotal Hq Hf. unfold filteredItems.
  rewrite (listing_query_not_blank query folderPart Hq).
  rewrite (filter_ext _ (fun s => includes (toLowerCase (folder s)) folderPart))
    by (intros s; apply defaultSearchFunction_listing; assumption).
  set (kept := filter _ items).
  split; [apply sort_perm|].
  apply (sorted_among
           (fun s => includes (toLowerCase (folder s)) folderPart = true)
           (ordered (defaultSortFunction localeCompare query))).
  - intros a b Ha Hb. unfold ordered, defaultSortFunction.
    rewrite (listing_query_not_blank query folderPart Hq), Hq.
    rewrite !getMatchScore_listing by assumption.
    unfold Spec.listingOrder.
    destruct (Spec.exactFolder folderPart a), (Spec.exactFolder folderPart b);
      simpl; intros H; try lia; auto.
  - rewrite Forall_forall. intros x Hx.
    apply (Permutation_in _ (sort_perm _ _)) in Hx.
    apply filter_In in Hx as [_ Hx]. exact Hx.
  - apply sort_sorted. intros a b. apply defaultSortFunction_total, Htotal.
Qed.

(** Under the sample collation ['_'] sorts before ['-']: of two shortcuts
    of folder [work], [a_b] is listed before [a-b]. *)
Lemma folder_listing_exact_folder_first_witness :
  let items := [Samples.shortcut "1" "work" "zeta";
                Samples.shortcut "2" "workshop" "alpha";
                Samples.shortcut "3" "home" "mail";
                Samples.shortcut "4" "work" "a-b";
                Samples.shortcut "5" "work" "a_b"] in
  (forall x y, (0 < Samples.collate x y)%Z -> (Samples.collate y x <= 0)%Z)
  /\ toLowerCase "Work/" = ("work" ++ "/")%string /\ noSlash "work" = true
  /\ filteredItems Samples.collate items "Work/"
     = [Samples.shortcut "5" "work" "a_b"; Samples.shortcut "4" "work" "a-b";
        Samples.shortcut "1" "work" "zeta";
        Samples.shortcut "2" "workshop" "alpha"]
  /\ (Permutation (filteredItems Samples.collate items "Work/")
        (filter (fun s => includes (toLowerCase (folder s)) "work") items)
      /\ Sorted (Spec.listingOrder Samples.collate "work")
                (filteredItems Samples.collate items "Work/")).
Proof.
  intros items.
  split; [exact collate_total|]. split; [reflexivity|].
  split; [reflexivity|]. split; [reflexivity|].
  apply (folder_listing_exact_folder_first Samples.collate items "Work/" "work"
           collate_total); reflexivity.
Defined.

(** C5 (as stated) fails on both search paths.  With [work/zeta] and
    [workshop/alpha] stored, the specified listing for [work/] is
    [alpha, zeta]; the popup filter lists [zeta] first, whatever the
    collation of the host, and [searchShortcuts] does not return
    [workshop/alpha] at all. *)
Lemma folder_listing_not_alias_ascending :
  let zeta := Samples.shortcut "1" "work" "zeta" in
  let alpha := Samples.shortcut "2" "workshop" "alpha" in
  Spec.referenceFolderListing "work" [zeta; alpha] = [alpha; zeta]
  /\ (forall localeCompare : string -> string -> Z,
        filteredItems localeCompare [zeta; alpha] "work/" = [zeta; alpha])
  /\ ShortcutService.searchShortcuts "work/" [zeta; alpha] = [zeta].
Proof. split; [|split]; [reflexivity | intros localeCompare | ]; reflexivity. Qed.

End FolderListingClaims.

(** ** The query controller's cache *)

Module CacheClaims.
Import JsString Store ShortcutValidation JsStringFacts.
Import SearchData ShortcutsData.

Lemma performSearch_hit (query : string) (st : store) (c : cache)
      (results : list Shortcut) :
  trim query <> EmptyString ->
  own (toLowerCase (trim query)) c = Some results ->
  performSearch query st c = (c, Results results).
Proof.
  intros Hne Hown. unfold performSearch.
  assert (Hq : is_empty query = false).
  { destruct query; [exfalso; apply Hne; reflexivity | reflexivity]. }
  rewrite Hq, <- is_empty_length.
  apply is_empty_false in Hne. rewrite Hne. cbn [orb].
  unfold lookup. rewrite Hown. reflexivity.
Qed.

Lemma performSearch_miss (query : string) (st : store) :
  trim query <> EmptyString ->
  inherited (toLowerCase (trim query)) = false ->
  snd (performSearch query st []) =
  Results (ShortcutService.searchShortcuts query st).
Proof.
  intros Hne Hinh. unfold performSearch.
  assert (Hq : is_empty query = false).
  { destruct query; [exfalso; apply Hne; reflexivity | reflexivity]. }
  rewrite Hq, <- is_empty_length.
  apply is_empty_false in Hne. rewrite Hne. cbn [orb].
  unfold lookup. cbn [own]. rewrite Hinh. reflexivity.
Qed.

(** C6 (as the code has it): [createShortcut], [updateShortcut] and
    [deleteShortcut] leave the result cache as it is, so a query with a cached
    result is answered from the cache after the mutation, whatever the store
    then holds.  Only [clearCache] empties the cache: the search that follows
    it is computed from the current store. *)
Theorem cache_outlives_mutations
        (urlProtocol : string -> option string)
        (query : string) (a : app) (results : list Shortcut) :
  trim query <> EmptyString ->
  own (toLowerCase (trim query)) (resultsCache a) = Some results ->
  (forall data newId now,
      snd (search query (createShortcut urlProtocol data newId now a))
      = Results results)
  /\ (forall k updates now,
        snd (search query (updateShortcut urlProtocol k updates now a))
        = Results results)
  /\ (forall k, snd (search query (deleteShortcut k a)) = Results results)
  /\ (inherited (toLowerCase (trim query)) = false ->
      forall a', snd (search query (clearCache a'))
                 = Results (ShortcutService.searchShortcuts query (db a'))).
Proof.
  intros Hne Hown.
  assert (Hserved : forall a', resultsCache a' = resultsCache a ->
                               snd (search query a') = Results results).
  { intros a' Hc. unfold search. rewrite Hc.
    rewrite (performSearch_hit query (db a') _ results Hne Hown). reflexivity. }
  split; [|split; [|split]].
  - intros. apply Hserved. reflexivity.
  - intros. apply Hserved. reflexivity.
  - intros k. apply Hserved. unfold deleteShortcut.
    destruct (get k (db a)); reflexivity.
  - intros Hinh a'. unfold search, clearCache, SearchData.clearCache.
    cbn [db resultsCache].
    pose proof (performSearch_miss query (db a') Hne Hinh) as Hm.
    destruct (performSearch query (db a') []) as [c r]. exact Hm.
Qed.

Lemma cache_outlives_mutations_witness :
  let a := {| db := []; resultsCache := [("meet", [])] |} in
  trim "Meet" <> EmptyString
  /\ own (toLowerCase (trim "Meet")) (resultsCache a) = Some []
  /\ snd (search "Meet"
            (createShortcut Samples.schemeOf (Samples.draftOf "" "meet")
               "1" "2025-10-22T00:00:00Z" a))
     = Results [].
Proof.
  split; [discriminate|]. split; [reflexivity|].
  apply (cache_outlives_mutations Samples.schemeOf "Meet"
           {| db := []; resultsCache := [("meet", [])] |} []);
    [discriminate | reflexivity].
Defined.

(** C6 (as stated) fails: a search for [meet] on the empty store caches
    the empty result; after [meet] is created, the same search is still
    answered with the empty list, although the store now holds a match. *)
Lemma stale_result_after_create :
  let a0 := {| db := []; resultsCache := [] |} in
  let a1 := fst (search "meet" a0) in
  let a2 := createShortcut Samples.schemeOf (Samples.draftOf "" "meet")
              "1" "2025-10-22T00:00:00Z" a1 in
  snd (search "meet" a0) = Results []
  /\ snd (search "meet" a2) = Results []
  /\ ShortcutService.searchShortcuts "meet" (db a2)
     = [ {| id := "1"; url := "https://example.com"; alias := "meet";
            folder := ""; tags := []; createdAt := "2025-10-22T00:00:00Z";
            updatedAt := "2025-10-22T00:00:00Z"; lastAccessedAt := None;
            accessCount := 0; isFavorite := false |} ].
Proof. split; [|split]; reflexivity. Qed.

End CacheClaims.

(** ** The object store *)

Module StoreFacts.
Import Store.

Lemma get_id (k : string) (st : store) (s : Shortcut) :
  get k st = Some s -> id s = k.
Proof.
  induction st as [|x st IH]; simpl; [discriminate|].
  destruct (String.eqb_spec (id x) k) as [E|_]; [|exact IH].
  intros H. injection H as <-. exact E.
Qed.

Lemma get_In (k : string) (st : store) (s : Shortcut) :
  get k st = Some s -> In s st.
Proof.
  induction st as [|x st IH]; simpl; [discriminate|].
  destruct (String.eqb (id x) k); [|auto].
  intros H. injection H as <-. auto.
Qed.

Lemma get_None (k : string) (st : store) :
  get k st = None <-> forall s, In s st -> id s <> k.
Proof.
  induction st as [|x st IH]; simpl.
  - split; [intros _ s [] | reflexivity].
  - destruct (String.eqb_spec (id x) k) as [E|N].
    + split; [discriminate|]. intros H. exfalso. apply (H x); auto.
    + rewrite IH. split.
      * intros H s [<-|Hs]; auto.
      * intros H s Hs. apply H. auto.
Qed.

Lemma insert_ordered_perm (s : Shortcut) (st : store) :
  Permutation (insert_ordered s st) (s :: st).
Proof.
  induction st as [|x st IH]; simpl; [reflexivity|].
  destruct (String.ltb (id s) (id x)); [reflexivity|].
  rewrite IH. apply perm_swap.
Qed.

Lemma In_insert_ordered (x s : Shortcut) (st : store) :
  In x (insert_ordered s st) <-> x = s \/ In x st.
Proof.
  split; intros H.
  - apply (Permutation_in _ (insert_ordered_perm s st)) in H.
    destruct H as [<-|H]; auto.
  - apply (Permutation_in _ (Permutation_sym (insert_ordered_perm s st))).
    destruct H as [->|H]; [left|right]; auto.
Qed.

Lemma In_delete (x : Shortcut) (k : string) (st : store) :
  In x (delete k st) <-> In x st /\ id x <> k.
Proof.
  unfold delete. rewrite filter_In, negb_true_iff, String.eqb_neq. reflexivity.
Qed.

Lemma In_put (x s : Shortcut) (st : store) :
  In x (put s st) <-> x = s \/ (In x st /\ id x <> id s).
Proof. unfold put. rewrite In_insert_ordered, In_delete. reflexivity. Qed.

Lemma get_insert_other (k : string) (s : Shortcut) (st : store) :
  id s <> k -> get k (insert_ordered s st) = get k st.
Proof.
  intros N. apply String.eqb_neq in N.
  induction st as [|x st IH]; simpl.
  - rewrite N. reflexivity.
  - destruct (String.ltb (id s) (id x)); simpl.
    + rewrite N. reflexivity.
    + rewrite IH. reflexivity.
Qed.

Lemma get_insert_same (s : Shortcut) (st : store) :
  get (id s) st = None -> get (id s) (insert_ordered s st) = Some s.
Proof.
  induction st as [|x st IH]; simpl.
  - rewrite String.eqb_refl. reflexivity.
  - destruct (String.eqb (id x) (id s)) eqn:E; [discriminate|]. intros H.
    destruct (String.ltb (id s) (id x)); simpl.
    + rewrite String.eqb_refl. reflexivity.
    + rewrite E. auto.
Qed.

Lemma get_delete_same (k : string) (st : store) : get k (delete k st) = None.
Proof.
  apply get_None. intros s Hs. apply In_delete in Hs. tauto.
Qed.

Lemma get_delete_other (k k' : string) (st : store) :
  k <> k' -> get k (delete k' st) = get k st.
Proof.
  intros N. induction st as [|x st IH]; simpl; [reflexivity|].
  destruct (String.eqb_spec (id x) k') as [E|N']; simpl.
  - destruct (String.eqb_spec (id x) k); [congruence | exact IH].
  - rewrite IH. reflexivity.
Qed.

Lemma get_put_same (s : Shortcut) (st : store) : get (id s) (put s st) = Some s.
Proof. unfold put. apply get_insert_same, get_delete_same. Qed.

Lemma get_put_other (k : string) (s : Shortcut) (st : store) :
  k <> id s -> get k (put s st) = get k st.
Proof.
  intros N. unfold put.
  rewrite get_insert_other by congruence. apply get_delete_other, N.
Qed.

End StoreFacts.

(** ** updateShortcut and renameFolder *)

Module UpdateFacts.
Import JsString Validators Store ShortcutValidation ShortcutService StoreFacts.

Section WithUrlParser.
Variable urlProtocol : string -> option string.

(** A failed update leaves the store as it was. *)
Lemma updateShortcut_failure (k : string) (updates : patch) (now : string)
      (st st' : store) (e : error) :
  updateShortcut urlProtocol k updates now st = (st', inr e) ->
  st' = st /\ forall a, e <> RenameConflict a.
Proof.
  unfold updateShortcut.
  destruct (get k st) as [existing|];
    [|intros H; injection H as <- <-; split; [reflexivity | discriminate]].
  destruct (validateShortcut _ _) as [validTags|errors];
    [|intros H; injection H as <- <-; split; [reflexivity | discriminate]].
  case_branch;
    intros H; [|discriminate].
  injection H as <- <-. split; [reflexivity | discriminate].
Qed.

(** A successful update stores the merged record, under the same key
    unless the updates carry an id of their own. *)
Lemma updateShortcut_success (k : string) (updates : patch) (now : string)
      (st st' : store) (stored : Shortcut) :
  updateShortcut urlProtocol k updates now st = (st', inl stored) ->
  exists existing,
    get k st = Some existing
    /\ st' = put stored st
    /\ id stored = or_else (p_id updates) k
    /\ alias stored = or_else (p_alias updates) (alias existing)
    /\ folder stored = merged_folder existing updates
    /\ validateAlias (alias stored) = Valid
    /\ validateFolderName (folder stored) = Valid
    /\ (identity_touched updates = true ->
        forall found,
          getShortcutByFullAlias (folder stored) (alias stored) st = Some found ->
          id found = k).
Proof.
  unfold updateShortcut.
  destruct (get k st) as [existing|] eqn:Hget; [|discriminate].
  destruct (validateShortcut _ _) as [validTags|errors] eqn:Hval; [|discriminate].
  case_branch_eqn Hc;
    [discriminate|].
  intros H. injection H as <- <-. exists existing.
  cbn [id alias folder merge].
  unfold validateShortcut, as_draft in Hval. cbn [d_url d_alias d_folder d_tags] in Hval.
  cbn [id alias folder url merge] in Hval, Hc.
  split; [reflexivity|]. split; [reflexivity|].
  split; [rewrite (get_id _ _ _ Hget); reflexivity|].
  split; [reflexivity|]. split; [reflexivity|].
  split; [|split].
  - destruct (validateUrl _ _), (validateAlias _); try discriminate; reflexivity.
  - destruct (validateUrl _ _), (validateAlias _), (validateFolderName _);
      try discriminate; reflexivity.
  - intros Ht found Hf. rewrite Ht, Hf in Hc.
    apply negb_false_iff, String.eqb_eq in Hc. exact Hc.
Qed.

(** What a rename that stops at a collision has done. *)
Lemma renameLoop_conflict (newName : string) (clock : nat -> string)
      (shortcuts : list Shortcut)
      (updated : nat) (st st' : store) (aliasName : string) :
  renameLoop urlProtocol newName clock shortcuts updated st
  = (st', inr (RenameConflict aliasName)) ->
  exists moved collider rest,
    shortcuts = moved ++ collider :: rest
    /\ alias collider = aliasName
    /\ (forall x, In x moved ->
        exists x', get (id x) st' = Some x' /\ folder x' = newName)
    /\ (forall k, ~ In k (map id moved) -> get k st' = get k st).
Proof.
  revert updated st. induction shortcuts as [|s l IH]; intros n st; simpl;
    [discriminate|].
  case_branch.
  - intros H. injection H as <- <-. exists [], s, l.
    split; [reflexivity|]. split; [reflexivity|].
    split; [intros x [] | reflexivity].
  - destruct (updateShortcut _ _ _ _ _) as [st1 [stored|e]] eqn:Hup.
    + intros H. destruct (IH _ _ H) as (moved & collider & rest & -> & Ha & Hm & Hk).
      apply updateShortcut_success in Hup
        as (existing & Hget & -> & Hid & _ & Hfolder & _).
      cbn [merged_folder p_folder p_id or_else folder_patch] in Hfolder, Hid.
      exists (s :: moved), collider, rest.
      split; [reflexivity|]. split; [exact Ha|]. split.
      * intros x [<-|Hx]; [|auto].
        destruct (in_dec string_dec (id s) (map id moved)) as [Hin|Hout].
        -- apply in_map_iff in Hin as (y & Hy & Hyin).
           rewrite <- Hy. auto.
        -- rewrite (Hk _ Hout), <- Hid, get_put_same. eauto.
      * intros k Hk'. cbn [map In] in Hk'.
        rewrite Hk by tauto. apply get_put_other. rewrite Hid.
        intros E. apply Hk'. left. symmetry. exact E.
    + intros H. injection H as _ He.
      apply updateShortcut_failure in Hup as [_ Hne]. exfalso.
      apply (Hne aliasName). exact He.
Qed.

End WithUrlParser.

End UpdateFacts.

(** ** renameFolder on a collision *)

Module RenameClaims.
Import JsString Validators Store ShortcutValidation ShortcutService UpdateFacts.

(** When [renameFolder(a, b)] stops at a colliding alias, the shortcuts of
    [a] that the store lists before the colliding one have been moved to
    [b]; every other record, the colliding shortcut and those after it
    included, is as it was. *)
Lemma renameFolder_conflict_is_partial
      (urlProtocol : string -> option string)
      (a b : string) (clock : nat -> string) (st st' : store)
      (aliasName : string) :
  renameFolder urlProtocol a b clock st
  = (st', inr (RenameConflict aliasName)) ->
  exists moved collider rest,
    getShortcutsByFolder a st = moved ++ collider :: rest
    /\ alias collider = aliasName
    /\ (forall x, In x moved ->
        exists x', get (id x) st' = Some x' /\ folder x' = b)
    /\ (forall k, ~ In k (map id moved) -> get k st' = get k st).
Proof.
  unfold renameFolder. destruct (caseInsensitiveEqual a b); [discriminate|].
  apply renameLoop_conflict.
Qed.

(** C2: the rename is not atomic.  With [a/x], [a/y] and [b/y] stored,
    [renameFolder("a", "b")] fails on the collision of [y], and [a/x], which
    was in folder [a], is now [b/x]. *)
Theorem renameFolder_conflict_moves_earlier_shortcuts :
  let st := [Samples.shortcut "1" "a" "x"; Samples.shortcut "2" "a" "y";
             Samples.shortcut "3" "b" "y"] in
  let result := renameFolder Samples.schemeOf "a" "b"
                  (Samples.at_time "2025-10-23T00:00:00Z") st in
  snd result = inr (RenameConflict "y")
  /\ In (Samples.shortcut "1" "a" "x") (getShortcutsByFolder "a" st)
  /\ option_map folder (get "1" (fst result)) = Some "b"
  /\ option_map folder (get "2" (fst result)) = Some "a".
Proof. split; [reflexivity|]. split; [left; reflexivity | split; reflexivity]. Qed.

End RenameClaims.

(** ** Renaming a folder onto an existing one *)

Module FolderClaims.
Import JsString Validators Store JsStringFacts.
Import FolderService.

Lemma folder_get_delete_other (k k' : string) (fs : folders) :
  k <> k' -> get k (delete k' fs) = get k fs.
Proof.
  intros Hne. unfold delete. induction fs as [|x fs IH]; simpl; [reflexivity|].
  destruct (String.eqb (name x) k') eqn:E'; simpl.
  - apply String.eqb_eq in E'.
    destruct (String.eqb (name x) k) eqn:E; [|exact IH].
    apply String.eqb_eq in E. congruence.
  - rewrite IH. reflexivity.
Qed.

Lemma trimmed_names_differ (a b : string) :
  caseInsensitiveEqual a b = false -> trim a <> trim b.
Proof.
  unfold caseInsensitiveEqual. intros H E. rewrite E, String.eqb_refl in H.
  discriminate.
Qed.

(** C10 (as the code has it): when the two names are not equal up to
    case, [renameFolder(oldName, newName)] fails whenever a Folder record is
    stored under the trimmed [newName], whatever shortcuts the two folders
    hold, and the folder records are left as they were.  When the new name
    is not blank the call fails at the lookup, with "Folder already
    exists", and the shortcuts are left as they were too. *)
Theorem renameFolder_refuses_existing_name
        (urlProtocol : string -> option string)
        (oldName newName : string) (clock : nat -> string)
        (storedAt returnedAt : string) (fs : folders) (st : store)
        (existing : Folder) :
  caseInsensitiveEqual oldName newName = false ->
  get (trim newName) fs = Some existing ->
  exists st' e,
    renameFolder urlProtocol oldName newName clock storedAt returnedAt fs st
    = (fs, st', inr e)
    /\ (trim newName <> EmptyString ->
        st' = st
        /\ (validateFolderName newName = Valid ->
            e = FolderExists (trim newName))).
Proof.
  intros Hneq Hget. unfold renameFolder.
  destruct (validateFolderName newName) as [|msg].
  2:{ exists st. eexists. split; [reflexivity|].
      intros _. split; [reflexivity | discriminate]. }
  pose proof (trimmed_names_differ _ _ Hneq) as Hdiff.
  unfold caseInsensitiveEqual in Hneq |- *. rewrite !trim_idem, Hneq.
  unfold getFolderByName.
  destruct (is_empty (trim newName)) eqn:Hblank.
  - destruct (ShortcutService.renameFolder _ _ _ _ _) as [st1 [n|e]].
    + unfold add. cbn [name].
      rewrite (folder_get_delete_other _ _ fs (not_eq_sym Hdiff)), Hget.
      exists st1. eexists. split; [reflexivity|].
      apply is_empty_true in Hblank. intros Hne. contradiction.
    + exists st1. eexists. split; [reflexivity|].
      apply is_empty_true in Hblank. intros Hne. contradiction.
  - rewrite trim_idem, Hget. exists st. eexists. split; [reflexivity|].
    intros _. split; reflexivity.
Qed.

Lemma renameFolder_refuses_existing_name_witness :
  let fs := [ {| name := "team"; folderCreatedAt := "2025-10-22T00:00:00Z" |};
              {| name := "work"; folderCreatedAt := "2025-10-22T00:00:00Z" |} ] in
  let st := [Samples.shortcut "1" "work" "meet"; Samples.shortcut "2" "team" "plan"] in
  caseInsensitiveEqual "work" "team" = false
  /\ get (trim "team") fs
     = Some {| name := "team"; folderCreatedAt := "2025-10-22T00:00:00Z" |}
  /\ exists st' e,
      renameFolder Samples.schemeOf "work" "team"
        (Samples.at_time "2025-10-23T00:00:00Z")
        "2025-10-23T00:00:01Z" "2025-10-23T00:00:02Z" fs st
      = (fs, st', inr e)
      /\ (trim "team" <> EmptyString ->
          st' = st
          /\ (validateFolderName "team" = Valid ->
              e = FolderExists (trim "team"))).
Proof.
  split; [reflexivity|]. split; [reflexivity|].
  apply (renameFolder_refuses_existing_name Samples.schemeOf "work" "team"
           (Samples.at_time "2025-10-23T00:00:00Z")
           "2025-10-23T00:00:01Z" "2025-10-23T00:00:02Z" _ _
           {| name := "team"; folderCreatedAt := "2025-10-22T00:00:00Z" |});
    reflexivity.
Defined.

(** C10 (as stated) fails when the new name is the old one up to case:
    with Folder records [Work] and [work] stored, [renameFolder("Work",
    "work")] does not fail; it returns the record [Work] and touches
    neither store. *)
Lemma renameFolder_same_name_succeeds :
  let upper := {| name := "Work"; folderCreatedAt := "2025-10-21T00:00:00Z" |} in
  let lower := {| name := "work"; folderCreatedAt := "2025-10-22T00:00:00Z" |} in
  let st := [Samples.shortcut "1" "work" "meet"] in
  get (trim "work") [upper; lower] = Some lower
  /\ renameFolder Samples.schemeOf "Work" "work"
       (Samples.at_time "2025-10-23T00:00:00Z")
       "2025-10-23T00:00:01Z" "2025-10-23T00:00:02Z" [upper; lower] st
     = ([upper; lower], st, inl (Some upper)).
Proof. split; reflexivity. Qed.

(** The lookup is by exact key: a record [Team] does not stand in the way
    of a rename to [team], which then joins the shortcuts of [work] to those
    of [Team]. *)
Lemma renameFolder_case_variant_not_blocked :
  let fs := [ {| name := "Team"; folderCreatedAt := "2025-10-21T00:00:00Z" |};
              {| name := "work"; folderCreatedAt := "2025-10-22T00:00:00Z" |} ] in
  let st := [Samples.shortcut "1" "work" "meet"; Samples.shortcut "2" "Team" "plan"] in
  let '(fs', st', result) :=
    renameFolder Samples.schemeOf "work" "team"
      (Samples.at_time "2025-10-23T00:00:00Z")
      "2025-10-23T00:00:01Z" "2025-10-23T00:00:02Z" fs st in
  result = inl (Some {| name := "team"; folderCreatedAt := "2025-10-23T00:00:02Z" |})
  /\ map name fs' = ["Team"; "team"]
  /\ map folder (ShortcutService.getShortcutsByFolder "team" st') = ["team"; "Team"].
Proof. repeat split. Qed.

(** A blank new name is not looked up.  With a record stored under the
    empty name, [renameFolder("work", " ")] fails too, but only when the
    record is added, after the shortcuts of [work] have been moved to the
    root folder. *)
Lemma renameFolder_blank_name_moves_shortcuts :
  let root := {| name := ""; folderCreatedAt := "2025-10-21T00:00:00Z" |} in
  let work := {| name := "work"; folderCreatedAt := "2025-10-22T00:00:00Z" |} in
  let st := [Samples.shortcut "1" "work" "meet"] in
  let '(fs', st', result) :=
    renameFolder Samples.schemeOf "work" " "
      (Samples.at_time "2025-10-23T00:00:00Z")
      "2025-10-23T00:00:01Z" "2025-10-23T00:00:02Z" [root; work] st in
  get (trim " ") [root; work] = Some root
  /\ result = inr (RenameFailed "Failed to rename folder")
  /\ fs' = [root; work]
  /\ map folder st' = [""].
Proof. repeat split. Qed.

End FolderClaims.


(** ** Composite keys *)

Module KeyFacts.
Import JsString Validators Store ShortcutService JsStringFacts ValidatorFacts.
Import Spec.

Lemma forallb_toLowerCase (p : ascii -> bool) (s : string) :
  forallb p (toLowerCase s) = forallb (fun c => p (lower_char c)) s.
Proof. induction s as [|c s IH]; simpl; [reflexivity|]. rewrite IH. reflexivity. Qed.

Lemma normalize_trim (s : string) : normalize (trim s) = normalize s.
Proof. unfold normalize. rewrite trim_idem. reflexivity. Qed.

Lemma folder_class_lower_not_slash (c : ascii) :
  folder_class c = true -> negb (Ascii.eqb (lower_char c) "/") = true.
Proof.
  intros H. apply negb_true_iff, Ascii.eqb_neq. intros E.
  apply lower_char_slash in E. subst c. vm_compute in H. discriminate.
Qed.

Lemma alias_class_folder_class (c : ascii) :
  alias_class c = true -> folder_class c = true.
Proof.
  unfold alias_class, folder_class.
  destruct (is_lower c), (is_digit c), (is_hyphen c), (is_upper c);
    simpl; congruence.
Qed.

Lemma noSlash_normalize_class (s : string) :
  forallb folder_class (trim s) = true -> noSlash (normalize s) = true.
Proof.
  intros H. unfold noSlash, normalize. rewrite forallb_toLowerCase.
  eapply forallb_impl; [|exact H]. apply folder_class_lower_not_slash.
Qed.

Lemma valid_alias_trim (a : string) :
  validateAlias a = Valid -> validateAlias (trim a) = Valid.
Proof. rewrite !validateAlias_valid_iff, trim_idem. trivial. Qed.

Lemma valid_alias_noSlash (a : string) :
  validateAlias a = Valid -> noSlash (normalize a) = true.
Proof.
  intros H. apply validateAlias_valid_iff in H as [_ H].
  apply noSlash_normalize_class.
  eapply forallb_impl; [|exact H]. apply alias_class_folder_class.
Qed.

Lemma valid_folder_cases (f : string) :
  validateFolderName f = Valid ->
  trim f = EmptyString \/ forallb folder_class (trim f) = true.
Proof.
  unfold validateFolderName, test_plus.
  destruct (is_empty f) eqn:Ef.
  - apply is_empty_true in Ef. subst f. auto.
  - destruct (is_empty (trim f)) eqn:Et.
    + apply is_empty_true in Et. auto.
    + destruct (String.length (trim f) <? 1)%nat; [discriminate|].
      destruct (30 <? String.length (trim f))%nat; [discriminate|].
      simpl. destruct (forallb folder_class (trim f)); [auto | discriminate].
Qed.

Lemma valid_folder_trim (f : string) :
  validateFolderName f = Valid -> validateFolderName (trim f) = Valid.
Proof.
  intros H. unfold validateFolderName in *.
  destruct (is_empty f) eqn:Ef.
  - apply is_empty_true in Ef. subst f. reflexivity.
  - rewrite trim_idem. destruct (is_empty (trim f)); [reflexivity | exact H].
Qed.

Lemma valid_folder_noSlash (f : string) :
  validateFolderName f = Valid -> noSlash (normalize f) = true.
Proof.
  intros H. apply valid_folder_cases in H as [H|H].
  - unfold normalize. rewrite H. reflexivity.
  - apply noSlash_normalize_class, H.
Qed.

Lemma noSlash_with_slash (x y : string) : noSlash (x ++ "/" ++ y) = false.
Proof.
  unfold noSlash. rewrite forallb_app. simpl. apply andb_false_r.
Qed.

Lemma app_slash_inj (f1 a1 f2 a2 : string) :
  noSlash f1 = true -> noSlash f2 = true ->
  (f1 ++ "/" ++ a1)%string = (f2 ++ "/" ++ a2)%string -> f1 = f2 /\ a1 = a2.
Proof.
  unfold noSlash. revert f2.
  induction f1 as [|c f1 IH]; intros [|d f2]; cbn [forallb String.append];
    intros H1 H2 E.
  - injection E as E. auto.
  - injection E as Ec _. subst d. vm_compute in H2. discriminate.
  - injection E as Ec _. subst c. vm_compute in H1. discriminate.
  - injection E as Ec E. subst d.
    apply andb_true_iff in H1 as [_ H1]. apply andb_true_iff in H2 as [_ H2].
    destruct (IH f2 H1 H2 E) as [-> ->]. auto.
Qed.

(** On validated fields, equal composite keys are equal normalized folders
    and equal normalized aliases. *)
Lemma compositeKey_eq_iff (f1 a1 f2 a2 : string) :
  noSlash (normalize f1) = true -> noSlash (normalize a1) = true ->
  noSlash (normalize f2) = true -> noSlash (normalize a2) = true ->
  compositeKey f1 a1 = compositeKey f2 a2 <->
  normalize f1 = normalize f2 /\ normalize a1 = normalize a2.
Proof.
  intros Hf1 Ha1 Hf2 Ha2. unfold compositeKey. split.
  - destruct (normalize f1) as [|c1 r1] eqn:E1,
             (normalize f2) as [|c2 r2] eqn:E2; cbn [is_empty]; intros E.
    + auto.
    + exfalso. rewrite E in Ha1. rewrite noSlash_with_slash in Ha1. discriminate.
    + exfalso. rewrite <- E in Ha2. rewrite noSlash_with_slash in Ha2.
      discriminate.
    + apply app_slash_inj in E; assumption.
  - intros [-> ->]. reflexivity.
Qed.

Lemma keyOf_eq_iff (s : Shortcut) (f a : string) :
  validIdentity s ->
  validateFolderName f = Valid -> validateAlias a = Valid ->
  keyOf s = compositeKey f a <->
  normalize (folder s) = normalize f /\ normalize (alias s) = normalize a.
Proof.
  intros [Ha Hf] Hf' Ha'. unfold keyOf.
  apply compositeKey_eq_iff;
    auto using valid_alias_noSlash, valid_folder_noSlash.
Qed.

(** [getShortcutByFullAlias] finds a record of the same normalized folder
    and alias, when there is one. *)
Lemma getShortcutByFullAlias_Some (f a : string) (st : store) (found : Shortcut) :
  getShortcutByFullAlias f a st = Some found ->
  In found st
  /\ normalize (folder found) = normalize f
  /\ normalize (alias found) = normalize a.
Proof.
  unfold getShortcutByFullAlias, getAll. intros H.
  apply find_some in H as [Hin H].
  apply andb_true_iff in H as [H1 H2].
  apply String.eqb_eq in H1, H2. auto.
Qed.

Lemma getShortcutByFullAlias_None (f a : string) (st : store) :
  getShortcutByFullAlias f a st = None ->
  forall s, In s st ->
    ~ (normalize (folder s) = normalize f /\ normalize (alias s) = normalize a).
Proof.
  unfold getShortcutByFullAlias, getAll. intros H s Hin [H1 H2].
  apply (find_none _ _ H) in Hin. unfold normalize in H1, H2.
  rewrite H1, H2, !String.eqb_refl in Hin. discriminate.
Qed.

Lemma NoDup_map_inj {A B} (f : A -> B) (l : list A) (x y : A) :
  NoDup (map f l) -> In x l -> In y l -> f x = f y -> x = y.
Proof.
  induction l as [|z l IH]; simpl; [intros _ []|].
  intros Hnd Hx Hy E. inversion Hnd as [|? ? Hnotin Hnd']; subst.
  destruct Hx as [->|Hx], Hy as [->|Hy]; auto.
  - exfalso. apply Hnotin. rewrite E. apply in_map, Hy.
  - exfalso. apply Hnotin. rewrite <- E. apply in_map, Hx.
Qed.

(** Deleting a record leaves the remaining keys distinct. *)
Lemma uniqueKeys_delete (k : string) (st : store) :
  uniqueKeys st -> uniqueKeys (delete k st).
Proof.
  unfold uniqueKeys, delete. induction st as [|z st IH]; simpl; [trivial|].
  intros Hnd. apply NoDup_cons_iff in Hnd as [Hnotin Hnd].
  destruct (negb (String.eqb (id z) k)); simpl; [|auto].
  constructor; [|auto].
  intros Hin. apply Hnotin. apply in_map_iff in Hin as (x & Hx & Hin).
  apply filter_In in Hin as [Hin _]. rewrite <- Hx. apply in_map, Hin.
Qed.

End KeyFacts.


(** ** Uniqueness of the composite key *)

Module NamespaceClaims.
Import JsString Validators Store ShortcutValidation ShortcutService.
Import JsStringFacts ValidatorFacts StoreFacts UpdateFacts KeyFacts.
Import Spec Namespace.

(** The key of the record built by [createShortcut] is the key of the draft. *)
Lemma created_key (f a : string) :
  compositeKey (if is_empty f then EmptyString else trim f) (trim a)
  = compositeKey f a.
Proof.
  unfold compositeKey. rewrite (normalize_trim a).
  destruct (is_empty f) eqn:Ef.
  - apply is_empty_true in Ef. subst f. reflexivity.
  - rewrite (normalize_trim f). reflexivity.
Qed.

Lemma created_valid (f a : string) :
  validateFolderName f = Valid -> validateAlias a = Valid ->
  validateAlias (trim a) = Valid
  /\ validateFolderName (if is_empty f then EmptyString else trim f) = Valid.
Proof.
  intros Hf Ha. split; [apply valid_alias_trim, Ha|].
  destruct (is_empty f); [reflexivity | apply valid_folder_trim, Hf].
Qed.

Lemma uniqueKeys_insert (s : Shortcut) (st : store) :
  uniqueKeys st -> ~ In (keyOf s) (map keyOf st) ->
  uniqueKeys (insert_ordered s st).
Proof.
  unfold uniqueKeys. intros Hnd Hnew.
  apply (Permutation_NoDup
           (Permutation_sym (Permutation_map keyOf (insert_ordered_perm s st)))).
  constructor; assumption.
Qed.

Lemma valid_insert (s : Shortcut) (st : store) :
  validIdentity s -> Forall validIdentity st ->
  Forall validIdentity (insert_ordered s st).
Proof.
  intros Hs Hst. rewrite Forall_forall in *. intros x Hx.
  apply In_insert_ordered in Hx as [->|Hx]; auto.
Qed.

Section WithUrlParser.
Variable urlProtocol : string -> option string.

Lemma validateShortcut_inl (d : draft) (validTags : list string) :
  validateShortcut urlProtocol d = inl validTags <->
  validateUrl urlProtocol (d_url d) = Valid
  /\ validateAlias (d_alias d) = Valid
  /\ validateFolderName (d_folder d) = Valid
  /\ validateTags (d_tags d) = TagsValid validTags.
Proof.
  unfold validateShortcut.
  destruct (validateUrl urlProtocol (d_url d)), (validateAlias (d_alias d)),
    (validateFolderName (d_folder d)), (validateTags (d_tags d));
    split; try discriminate; try (intros (? & ? & ? & ?); discriminate).
  - intros H. injection H as ->. auto.
  - intros (_ & _ & _ & H). injection H as ->. reflexivity.
Qed.

(** [createShortcut] keeps the keys apart. *)
Lemma createShortcut_preserves (data : draft) (newId now : string) (st : store) :
  Forall validIdentity st -> uniqueKeys st ->
  Forall validIdentity (fst (createShortcut urlProtocol data newId now st))
  /\ uniqueKeys (fst (createShortcut urlProtocol data newId now st)).
Proof.
  intros Hv Hu. unfold createShortcut.
  destruct (validateShortcut urlProtocol data) as [validTags|errors] eqn:Hval;
    [|auto].
  apply validateShortcut_inl in Hval as (_ & Ha & Hf & _).
  destruct (getShortcutByFullAlias _ _ st) eqn:Hfind; [auto|].
  unfold add. cbn [id]. destruct (get newId st); [auto|]. cbn [fst].
  destruct (created_valid _ _ Hf Ha) as [Ha' Hf'].
  split.
  - apply valid_insert; [split; assumption | exact Hv].
  - apply uniqueKeys_insert; [exact Hu|].
    intros Hin. apply in_map_iff in Hin as (x & Hk & Hx).
    unfold keyOf at 2 in Hk. cbn [folder alias] in Hk.
    rewrite created_key in Hk.
    apply (getShortcutByFullAlias_None _ _ _ Hfind x Hx).
    apply keyOf_eq_iff; auto.
    rewrite Forall_forall in Hv. auto.
Qed.

(** [updateShortcut] keeps the keys apart, when the updates carry no id
    and no folder of [undefined]. *)
Lemma updateShortcut_preserves (k : string) (updates : patch) (now : string)
      (st : store) :
  p_id updates = None -> p_folder updates <> FolderUndefined ->
  Forall validIdentity st -> uniqueKeys st ->
  Forall validIdentity (fst (updateShortcut urlProtocol k updates now st))
  /\ uniqueKeys (fst (updateShortcut urlProtocol k updates now st)).
Proof.
  intros Hnoid Hdefined Hv Hu.
  destruct (updateShortcut urlProtocol k updates now st) as [st' [stored|e]] eqn:Hup;
    cbn [fst].
  2:{ apply updateShortcut_failure in Hup as [-> _]. auto. }
  apply updateShortcut_success in Hup
    as (existing & Hget & -> & Hid & Halias & Hfolder & Ha & Hf & Hcheck).
  rewrite Hnoid in Hid. cbn [or_else] in Hid.
  assert (Hvs : validIdentity stored) by (split; assumption).
  pose proof (get_In _ _ _ Hget) as Hex.
  pose proof (get_id _ _ _ Hget) as Hexid.
  rewrite Forall_forall in Hv.
  split.
  - unfold put. apply valid_insert; [exact Hvs|].
    rewrite Forall_forall. intros x Hx. apply In_delete in Hx as [Hx _]. auto.
  - unfold put. apply uniqueKeys_insert.
    + apply uniqueKeys_delete, Hu.
    + intros Hin. apply in_map_iff in Hin as (x & Hk & Hx).
      apply In_delete in Hx as [Hx Hxid]. rewrite Hid in Hxid.
      destruct (identity_touched updates) eqn:Ht.
      * (* the guard ran the uniqueness check *)
        assert (Hpair : normalize (folder x) = normalize (folder stored)
                        /\ normalize (alias x) = normalize (alias stored)).
        { apply keyOf_eq_iff; auto. }
        destruct (getShortcutByFullAlias (folder stored) (alias stored) st)
          as [found|] eqn:Hfind.
        -- pose proof (Hcheck eq_refl found eq_refl) as Hfid.
           apply getShortcutByFullAlias_Some in Hfind as (Hfin & Hff & Hfa).
           assert (x = found).
           { apply (NoDup_map_inj keyOf st); auto.
             rewrite Hk. symmetry. apply keyOf_eq_iff; auto. }
           subst found. congruence.
        -- apply (getShortcutByFullAlias_None _ _ _ Hfind x Hx Hpair).
      * (* neither the alias nor the folder is in the updates *)
        unfold identity_touched in Ht. apply orb_false_iff in Ht as [Hta Htf].
        assert (Hsame : keyOf stored = keyOf existing).
        { unfold keyOf. rewrite Halias, Hfolder. unfold merged_folder.
          destruct (p_folder updates); [|contradiction|discriminate].
          destruct (p_alias updates) as [a|]; [|reflexivity].
          apply negb_false_iff, is_empty_true in Hta. subst a.
          rewrite Halias in Ha. discriminate. }
        assert (x = existing).
        { apply (NoDup_map_inj keyOf st); auto. congruence. }
        subst x. congruence.
Qed.

Lemma renameLoop_preserves (newName : string) (clock : nat -> string)
      (shortcuts : list Shortcut) (updated : nat) (st : store) :
  Forall validIdentity st -> uniqueKeys st ->
  Forall validIdentity
    (fst (renameLoop urlProtocol newName clock shortcuts updated st))
  /\ uniqueKeys (fst (renameLoop urlProtocol newName clock shortcuts updated st)).
Proof.
  revert updated st. induction shortcuts as [|s l IH]; intros n st Hv Hu;
    simpl; [auto|].
  case_branch; [auto|].
  match goal with
  | |- context [updateShortcut urlProtocol ?k ?u ?t st] =>
      pose proof (updateShortcut_preserves k u t st eq_refl
                    ltac:(discriminate) Hv Hu) as [Hv1 Hu1];
      destruct (updateShortcut urlProtocol k u t st) as [st1 [stored|e]]
  end; cbn [fst] in *; auto.
Qed.

Lemma run_preserves (op : operation) (st : store) :
  plain op ->
  Forall validIdentity st -> uniqueKeys st ->
  Forall validIdentity (run urlProtocol op st)
  /\ uniqueKeys (run urlProtocol op st).
Proof.
  intros Hplain Hv Hu.
  destruct op as [data newId now|k updates now|o n clock]; simpl.
  - apply createShortcut_preserves; assumption.
  - destruct Hplain as [Hnoid Hdefined].
    apply updateShortcut_preserves; assumption.
  - unfold renameFolder. destruct (caseInsensitiveEqual o n); [auto|].
    apply renameLoop_preserves; assumption.
Qed.

Lemma last_written (x : store) (l : list store) (d : store) :
  last (x :: l) d = last l x.
Proof.
  revert x d. induction l as [|y l IH]; intros x d; [reflexivity|].
  change (last (x :: y :: l) d) with (last (y :: l) d).
  rewrite (IH y d), (IH y x). reflexivity.
Qed.

(** The store that the loop leaves is the last one it wrote. *)
Lemma renameWrites_last (newName : string) (clock : nat -> string)
      (shortcuts : list Shortcut) (updated : nat) (st : store) :
  fst (renameLoop urlProtocol newName clock shortcuts updated st)
  = last (renameWrites urlProtocol newName clock shortcuts updated st) st.
Proof.
  revert updated st. induction shortcuts as [|s l IH]; intros n st; simpl;
    [reflexivity|].
  case_branch;
    [reflexivity|].
  destruct (updateShortcut urlProtocol (id s) (folder_patch newName)
              (clock n) st)
    as [st1 [stored|e]] eqn:Hup.
  - rewrite IH. symmetry. apply last_written.
  - apply updateShortcut_failure in Hup as [-> _]. reflexivity.
Qed.

Lemma writes_last (op : operation) (st : store) :
  last (writes urlProtocol op st) st = run urlProtocol op st.
Proof.
  destruct op as [data newId now|k updates now|o n clock]; cbn [writes];
    [reflexivity | reflexivity |].
  cbn [run]. unfold renameFolder.
  destruct (caseInsensitiveEqual o n); [reflexivity|].
  symmetry. apply renameWrites_last.
Qed.

Lemma renameWrites_preserve (newName : string) (clock : nat -> string)
      (shortcuts : list Shortcut) (updated : nat) (st : store) :
  Forall validIdentity st -> uniqueKeys st ->
  Forall uniqueKeys
    (renameWrites urlProtocol newName clock shortcuts updated st).
Proof.
  revert updated st. induction shortcuts as [|s l IH]; intros n st Hv Hu;
    simpl; [constructor|].
  case_branch;
    [constructor|].
  pose proof (updateShortcut_preserves (id s) (folder_patch newName)
                (clock n) st eq_refl ltac:(discriminate) Hv Hu)
    as [Hv1 Hu1].
  destruct (updateShortcut urlProtocol (id s) (folder_patch newName)
              (clock n) st)
    as [st1 [stored|e]]; cbn [fst] in *; [|constructor].
  constructor; [exact Hu1 | apply IH; assumption].
Qed.

Lemma writes_preserve (op : operation) (st : store) :
  plain op ->
  Forall validIdentity st -> uniqueKeys st ->
  Forall uniqueKeys (writes urlProtocol op st).
Proof.
  intros Hplain Hv Hu.
  destruct op as [data newId now|k updates now|o n clock]; cbn [writes].
  - constructor; [apply run_preserves; assumption | constructor].
  - constructor; [apply run_preserves; assumption | constructor].
  - destruct (caseInsensitiveEqual o n); [constructor|].
    apply renameWrites_preserve; assumption.
Qed.

End WithUrlParser.

(** The invariant that the three calls are written to keep: starting from
    a store of validated shortcuts without duplicate composite keys, every
    store reached by a sequence of [createShortcut], [updateShortcut] and
    [renameFolder] calls, failed ones included, and every store that a
    [renameFolder] passes through, is free of duplicate composite keys, as
    long as no [updates] object carries an [id] or a [folder] of
    [undefined]. *)
Lemma keys_stay_unique_without_undefined
      (urlProtocol : string -> option string)
      (ops : list operation) (st0 : store) :
  Forall plain ops ->
  Forall validIdentity st0 -> uniqueKeys st0 ->
  Forall uniqueKeys (trace urlProtocol ops st0).
Proof.
  revert st0. induction ops as [|op ops IH]; intros st Hplain Hv Hu; simpl.
  - constructor; [exact Hu | constructor].
  - inversion Hplain as [|? ? Hop Hops]; subst.
    constructor; [exact Hu|].
    apply Forall_app. split; [apply writes_preserve; assumption|].
    destruct (run_preserves urlProtocol op st Hop Hv Hu) as [Hv' Hu'].
    apply IH; assumption.
Qed.

(** C1: the invariant is broken by an update whose folder is [undefined].
    With [meet] stored in the root folder and in folder [work],
    [updateShortcut("2", { folder: undefined })] passes validation, skips the
    check for an existing alias and stores [work/meet] without a folder:
    two live shortcuts then have the composite key [meet]. *)
Theorem updateShortcut_undefined_folder_duplicates_key :
  let st := [Samples.shortcut "1" "" "meet"; Samples.shortcut "2" "work" "meet"] in
  let result :=
    updateShortcut Samples.schemeOf "2" undefined_folder_patch Samples.day st in
  Forall validIdentity st
  /\ uniqueKeys st
  /\ map keyOf st = ["meet"; "work/meet"]
  /\ (exists stored, snd result = inl stored /\ id stored = "2")
  /\ map keyOf (fst result) = ["meet"; "meet"]
  /\ ~ uniqueKeys (fst result)
  /\ ~ Forall uniqueKeys
         (trace Samples.schemeOf
            [Update "2" undefined_folder_patch Samples.day] st).
Proof.
  intros st result.
  assert (Hdup : ~ uniqueKeys (fst result)).
  { unfold uniqueKeys. vm_compute. intros H.
    inversion H as [|? ? Hnew _]. apply Hnew. left. reflexivity. }
  split; [repeat (constructor; [split; reflexivity|]); constructor|].
  split.
  { unfold uniqueKeys. vm_compute.
    constructor; [intros [E|[]]; discriminate E|].
    constructor; [intros []|]. constructor. }
  split; [reflexivity|].
  split; [eexists; split; reflexivity|].
  split; [reflexivity|]. split; [exact Hdup|].
  intros Hall. apply Hdup.
  inversion Hall as [|? ? _ Hrest]. inversion Hrest as [|? ? Hrun _].
  exact Hrun.
Qed.

(** The same sequences with a folder that is given keep the keys apart. *)
Lemma keys_stay_unique_without_undefined_witness :
  let st0 := [Samples.shortcut "1" "work" "meet"] in
  let ops :=
    [Create (Samples.draftOf "" "meet") "2" "2025-10-23T00:00:00Z";
     Create (Samples.draftOf "work" "meet") "3" "2025-10-23T00:00:01Z";
     Update "2" (folder_patch "work") "2025-10-23T00:00:02Z";
     Rename "work" "team" (Samples.at_time "2025-10-23T00:00:03Z")] in
  Forall plain ops /\ Forall validIdentity st0 /\ uniqueKeys st0
  /\ Forall uniqueKeys (trace Samples.schemeOf ops st0).
Proof.
  intros st0 ops.
  assert (Hplain : Forall plain ops).
  { repeat (constructor; [first [exact I | split; [reflexivity|discriminate]]|]).
    constructor. }
  assert (Hv : Forall validIdentity st0).
  { constructor; [split; reflexivity | constructor]. }
  assert (Hu : uniqueKeys st0).
  { constructor; [intros [] | constructor]. }
  split; [exact Hplain|]. split; [exact Hv|]. split; [exact Hu|].
  apply keys_stay_unique_without_undefined; assumption.
Defined.






End NamespaceClaims.

(** ** The scenarios of the specification *)

Module Scenarios.
Import Store ShortcutValidation ShortcutService.

(** Scenario 1: a second [work/meet] is refused. *)
Example duplicate_in_folder_refused :
  let st := fst (createShortcut Samples.schemeOf (Samples.draftOf "work" "meet")
                   "1" Samples.day []) in
  snd (createShortcut Samples.schemeOf (Samples.draftOf "work" "meet") "2" Samples.day st)
  = inr (AliasExists "work/meet").
Proof. reflexivity. Qed.

(** Scenario 2: [work/meet] and [meet] are both accepted. *)
Example same_alias_in_two_folders :
  let st := fst (createShortcut Samples.schemeOf (Samples.draftOf "work" "meet")
                   "1" Samples.day []) in
  map Spec.keyOf
    (fst (createShortcut Samples.schemeOf (Samples.draftOf "" "meet") "2" Samples.day st))
  = ["work/meet"; "meet"].
Proof. reflexivity. Qed.

(** Scenario 4: [meet] finds both, as exact matches. *)
Example exact_matches_found :
  let st := [Samples.shortcut "1" "" "meet"; Samples.shortcut "2" "work" "meet"] in
  searchShortcuts "meet" st = st
  /\ bucket Exact "meet" st = st.
Proof. split; reflexivity. Qed.

(** Scenario 5: renaming [work] to [team] is refused when [team/meet]
    exists, and [work/meet], the only shortcut of [work], is untouched. *)
Example rename_onto_taken_alias_refused :
  let st := [Samples.shortcut "1" "team" "meet"; Samples.shortcut "2" "work" "meet"] in
  renameFolder Samples.schemeOf "work" "team" (Samples.at_time Samples.day) st
  = (st, inr (RenameConflict "meet")).
Proof. reflexivity. Qed.

End Scenarios.

(* ================================================================== *)
(** * Further properties *)

(** ** The accepted folders and tags *)

Module CharsetFacts.
Import JsString Validators JsStringFacts ValidatorFacts.

Lemma alias_class_lower_fixed (c : ascii) :
  alias_class c = true -> lower_char c = c.
Proof.
  destruct c as [b0 b1 b2 b3 b4 b5 b6 b7].
  destruct b0, b1, b2, b3, b4, b5, b6, b7; vm_compute; intros H;
    solve [reflexivity | discriminate H].
Qed.

Lemma alias_class_toLowerCase (s : string) :
  forallb alias_class s = true -> toLowerCase s = s.
Proof.
  induction s as [|c s IH]; simpl; [reflexivity|].
  intros H. apply andb_true_iff in H as [Hc Hs].
  rewrite (alias_class_lower_fixed c Hc), (IH Hs). reflexivity.
Qed.

(** [validateFolderName] accepts the blank names and the names of at most
    30 characters over [A-Za-z0-9_-], and nothing else. *)
Theorem validateFolderName_accepts_iff (f : string) :
  validateFolderName f = Valid <->
  (trim f = EmptyString
   \/ (String.length (trim f) <= 30 /\ forallb folder_class (trim f) = true)).
Proof.
  unfold validateFolderName, test_plus.
  destruct (is_empty f) eqn:Ef.
  { apply is_empty_true in Ef. subst f. split; [auto | reflexivity]. }
  destruct (is_empty (trim f)) eqn:Et.
  { apply is_empty_true in Et. split; [auto | reflexivity]. }
  apply is_empty_false in Et.
  destruct (String.length (trim f)) as [|n] eqn:El.
  { destruct (trim f); [congruence | discriminate]. }
  destruct (Nat.ltb_spec (S n) 1) as [Hlt|_]; [lia|].
  destruct (Nat.ltb_spec 30 (S n)) as [Hgt|Hle].
  - split; [discriminate|]. intros [H|[H _]]; [congruence | lia].
  - destruct (forallb folder_class (trim f)); simpl.
    + split; [intros _; right; split; [lia | reflexivity] | reflexivity].
    + split; [discriminate|]. intros [H|[_ H]]; [congruence | discriminate].
Qed.

(** [validateTag] accepts exactly the strings that trim to 1 to 20
    characters over [a-z0-9-]. *)
Theorem validateTag_accepts_iff (t : string) :
  validateTag t = Valid <->
  (1 <= String.length (trim t) <= 20 /\ forallb alias_class (trim t) = true).
Proof.
  unfold validateTag, test_plus.
  destruct (is_empty t) eqn:Et.
  { apply is_empty_true in Et. subst t. simpl. split; [discriminate|].
    intros [[H _] _]. inversion H. }
  destruct (is_empty (trim t)) eqn:Ett.
  { apply is_empty_true in Ett. rewrite Ett. simpl. split; [discriminate|].
    intros [[H _] _]. inversion H. }
  assert (Hpos : 1 <= String.length (trim t)).
  { destruct (trim t); [discriminate | simpl; lia]. }
  destruct (Nat.ltb_spec 20 (String.length (trim t))) as [Hgt|Hle].
  { split; [discriminate|]. intros [[_ H] _]. lia. }
  destruct (forallb alias_class (trim t)) eqn:Hc.
  - rewrite (alias_class_toLowerCase _ Hc), String.eqb_refl. simpl.
    split; [intros _; split; [lia | reflexivity] | reflexivity].
  - destruct (String.eqb (trim t) (toLowerCase (trim t))); simpl;
      (split; [discriminate | intros [_ H]; discriminate]).
Qed.

End CharsetFacts.

(** ** The tags that validateTags returns *)

Module TagFacts.
Import JsString Validators JsStringFacts ValidatorFacts JsArray JsArrayFacts.
Import CharsetFacts.

Lemma first_invalid_all_valid (l : list string) :
  first_invalid l = None -> Forall (fun t => validateTag t = Valid) l.
Proof.
  induction l as [|t l IH]; simpl; [constructor|].
  destruct (validateTag t) eqn:Ht; [|discriminate].
  intros H. constructor; auto.
Qed.

Lemma seen_spec (x : string) (seen : list string) :
  existsb (String.eqb x) seen = true <-> In x seen.
Proof.
  rewrite existsb_exists. split.
  - intros (y & Hy & E). apply String.eqb_eq in E. subst y. exact Hy.
  - intros H. exists x. split; [exact H | apply String.eqb_refl].
Qed.

Lemma In_dedupe (t : string) (seen l : list string) :
  In t (dedupe seen l) <-> In t l /\ ~ In t seen.
Proof.
  revert seen. induction l as [|x l IH]; intros seen; simpl; [tauto|].
  destruct (existsb (String.eqb x) seen) eqn:E.
  - apply seen_spec in E. rewrite IH. split.
    + intros [H1 H2]. auto.
    + intros [[->|H1] H2]; [contradiction | auto].
  - assert (Hx : ~ In x seen).
    { intros H. apply seen_spec in H. congruence. }
    simpl. rewrite IH. simpl. split.
    + intros [->|[H1 H2]]; [auto|]. split; [auto|]. intros H. apply H2. auto.
    + intros [[->|H1] H2]; [auto|].
      destruct (string_dec x t) as [->|N]; [auto|].
      right. split; [exact H1|]. intros [E'|E']; [congruence | contradiction].
Qed.

Lemma NoDup_dedupe (seen l : list string) : NoDup (dedupe seen l).
Proof.
  revert seen. induction l as [|x l IH]; intros seen; simpl; [constructor|].
  destruct (existsb (String.eqb x) seen); [apply IH|].
  constructor; [|apply IH].
  rewrite In_dedupe. simpl. tauto.
Qed.

Lemma dedupe_length (seen l : list string) :
  List.length (dedupe seen l) <= List.length l.
Proof.
  revert seen. induction l as [|x l IH]; intros seen; simpl; [lia|].
  destruct (existsb (String.eqb x) seen); [specialize (IH seen)
                                           | specialize (IH (x :: seen))];
    simpl; lia.
Qed.

Lemma dedupe_distinct (seen l : list string) :
  NoDup l -> (forall x, In x l -> ~ In x seen) -> dedupe seen l = l.
Proof.
  revert seen. induction l as [|x l IH]; intros seen Hnd Hs; simpl;
    [reflexivity|].
  inversion Hnd as [|? ? Hx Hnd']; subst.
  destruct (existsb (String.eqb x) seen) eqn:E.
  - apply seen_spec in E. exfalso. apply (Hs x); simpl; auto.
  - f_equal. apply IH; [exact Hnd'|].
    intros y Hy [<-|H]; [contradiction|]. apply (Hs y); simpl; auto.
Qed.

(** Sorting an ordered array changes nothing. *)
Lemma sort_ordered {A} (cmp : A -> A -> Z) (l : list A) :
  Sorted (ordered cmp) l -> sort cmp l = l.
Proof.
  induction 1 as [|x l Hs IH Hhd]; simpl; [reflexivity|].
  rewrite IH. destruct Hhd as [|y l' Hxy]; simpl; [reflexivity|].
  unfold ordered in Hxy. apply Z.leb_le in Hxy. rewrite Hxy. reflexivity.
Qed.

Lemma ascending_of_ordered (l : list string) :
  Sorted (ordered default_cmp) l -> NoDup l ->
  Sorted (fun a b => String.ltb a b = true) l.
Proof.
  induction 1 as [|x l Hs IH Hhd]; intros Hnd; [constructor|].
  inversion Hnd as [|? ? Hx Hnd']; subst.
  constructor; [auto|].
  destruct Hhd as [|y l' Hxy]; constructor.
  unfold ordered, default_cmp in Hxy. unfold String.ltb.
  destruct (String.compare x y) eqn:E; [|reflexivity | lia].
  apply String.compare_eq_iff in E. subst y. exfalso. apply Hx. left.
  reflexivity.
Qed.

Lemma entries_trimmed (input : tags_input) :
  Forall (fun t => trim t = t /\ non_empty t = true) (tag_entries input).
Proof.
  assert (Hall : forall a, Forall (fun t => trim t = t /\ non_empty t = true)
                             (filter non_empty (map trim a))).
  { intros a. rewrite Forall_forall. intros t Ht.
    apply filter_In in Ht as [Ht Hne]. apply in_map_iff in Ht as (x & <- & _).
    split; [apply trim_idem | exact Hne]. }
  destruct input; simpl; [constructor | apply Hall | apply Hall].
Qed.

(** What a successful [validateTags] has computed. *)
Lemma validateTags_success (input : tags_input) (result : list string) :
  validateTags input = TagsValid result ->
  List.length (tag_entries input) <= 20
  /\ Forall (fun t => validateTag t = Valid) (tag_entries input)
  /\ result = sort default_cmp (dedupe [] (tag_entries input)).
Proof.
  rewrite validateTags_entries. cbv zeta.
  destruct (Nat.ltb_spec 20 (List.length (tag_entries input))) as [|Hle];
    [discriminate|].
  destruct (first_invalid (tag_entries input)) eqn:Hf; [discriminate|].
  intros Hres. injection Hres as <-.
  split; [lia|]. split; [apply first_invalid_all_valid, Hf | reflexivity].
Qed.

Lemma validateTags_shape
        (input : tags_input) (result : list string) :
  validateTags input = TagsValid result ->
  Sorted (fun a b => String.ltb a b = true) result
  /\ NoDup result
  /\ (forall t, In t result <-> In t (tag_entries input))
  /\ Forall (fun t => validateTag t = Valid) result
  /\ List.length result <= 20.
Proof.
  intros H. apply validateTags_success in H as (Hlen & Hvalid & ->).
  set (entries := tag_entries input) in *.
  pose proof (sort_perm default_cmp (dedupe [] entries)) as Hperm.
  assert (Hnd : NoDup (sort default_cmp (dedupe [] entries))).
  { apply (Permutation_NoDup (Permutation_sym Hperm)), NoDup_dedupe. }
  assert (Hin : forall t, In t (sort default_cmp (dedupe [] entries))
                          <-> In t entries).
  { intros t. split.
    - intros Ht. apply (Permutation_in _ Hperm) in Ht.
      apply In_dedupe in Ht. tauto.
    - intros Ht. apply (Permutation_in _ (Permutation_sym Hperm)).
      apply In_dedupe. simpl. tauto. }
  split; [|split; [exact Hnd | split; [exact Hin | split]]].
  - apply ascending_of_ordered; [|exact Hnd].
    apply sort_sorted. apply FolderListingClaims.default_cmp_total.
  - rewrite Forall_forall in *. intros t Ht. apply Hvalid, Hin, Ht.
  - rewrite (Permutation_length Hperm).
    pose proof (dedupe_length [] entries). lia.
Qed.

(** The tags returned by [validateTags] are the entries of the input, each
    once, in strictly ascending order; each is a valid tag and there are at
    most twenty. *)
Theorem validateTags_returns_canonical_set
        (input : tags_input) (result : list string) :
  validateTags input = TagsValid result ->
  Sorted (fun a b => String.ltb a b = true) result
  /\ NoDup result
  /\ (forall t, In t result <-> In t (tag_entries input))
  /\ Forall (fun t => validateTag t = Valid) result
  /\ List.length result <= 20.
Proof. apply validateTags_shape. Qed.

Lemma validateTags_returns_canonical_set_witness :
  validateTags (TagsString "work, docs ,,work") = TagsValid ["docs"; "work"]
  /\ Sorted (fun a b => String.ltb a b = true) ["docs"; "work"]
  /\ NoDup ["docs"; "work"].
Proof.
  split; [reflexivity|].
  destruct (validateTags_returns_canonical_set
              (TagsString "work, docs ,,work") ["docs"; "work"] eq_refl)
    as (Hs & Hn & _).
  split; assumption.
Defined.

(** Tags that [validateTags] has returned validate to themselves: what
    [createShortcut] stores passes the validation of a later
    [updateShortcut] unchanged. *)
Theorem validateTags_fixes_its_result
        (input : tags_input) (result : list string) :
  validateTags input = TagsValid result ->
  validateTags (TagsArray result) = TagsValid result.
Proof.
  intros H.
  destruct (validateTags_shape input result H)
    as (_ & Hnd & Hin & Hvalid & Hlen).
  apply validateTags_success in H as (_ & _ & Hres).
  assert (Hentries : tag_entries (TagsArray result) = result).
  { simpl. pose proof (entries_trimmed input) as Ht.
    rewrite Forall_forall in Ht.
    assert (Hfix : forall t, In t result -> trim t = t /\ non_empty t = true).
    { intros t Hr. apply Ht, Hin, Hr. }
    clear - Hfix. induction result as [|t l IH]; [reflexivity|].
    simpl. destruct (Hfix t (or_introl eq_refl)) as [-> ->].
    f_equal. apply IH. intros x Hx. apply Hfix. right. exact Hx. }
  rewrite validateTags_entries. cbv zeta. rewrite Hentries.
  destruct (Nat.ltb_spec 20 (List.length result)); [lia|].
  rewrite (first_invalid_none _ Hvalid).
  rewrite dedupe_distinct by (auto; intros x _ []).
  f_equal. apply sort_ordered. rewrite Hres.
  apply sort_sorted. apply FolderListingClaims.default_cmp_total.
Qed.

Lemma validateTags_fixes_its_result_witness :
  validateTags (TagsString "work, docs ,,work") = TagsValid ["docs"; "work"]
  /\ validateTags (TagsArray ["docs"; "work"]) = TagsValid ["docs"; "work"].
Proof.
  split; [reflexivity|].
  exact (validateTags_fixes_its_result
           (TagsString "work, docs ,,work") ["docs"; "work"] eq_refl).
Defined.

End TagFacts.

(** ** Writing and reading a full alias *)

Module AliasSyntaxFacts.
Import JsString Validators JsStringFacts ValidatorFacts KeyFacts.
Import AliasSyntax Spec.

Lemma folder_class_plain (c : ascii) :
  folder_class c = true ->
  negb (is_space c) = true /\ negb (Ascii.eqb c "/") = true.
Proof.
  destruct c as [b0 b1 b2 b3 b4 b5 b6 b7].
  destruct b0, b1, b2, b3, b4, b5, b6, b7; vm_compute; intros H;
    solve [split; reflexivity | discriminate H].
Qed.

Lemma folder_class_noSlash (s : string) :
  forallb folder_class s = true -> noSlash s = true.
Proof.
  apply forallb_impl. intros c Hc. apply folder_class_plain, Hc.
Qed.

Lemma folder_class_no_space (s : string) :
  forallb folder_class s = true ->
  forallb (fun c => negb (is_space c)) s = true.
Proof.
  apply forallb_impl. intros c Hc. apply folder_class_plain, Hc.
Qed.

Lemma includes_noSlash (s : string) :
  noSlash s = true -> includes s "/" = false.
Proof.
  unfold noSlash. induction s as [|c s IH]; [reflexivity|].
  cbn [forallb includes prefix]. intros H.
  apply andb_true_iff in H as [Hc Hs].
  apply negb_true_iff, Ascii.eqb_neq in Hc.
  destruct (ascii_dec "/" c) as [E|_]; [congruence | auto].
Qed.

Lemma includes_with_slash (x y : string) :
  includes (x ++ String "/" y) "/" = true.
Proof.
  induction x as [|c x IH].
  - cbn [String.append includes prefix].
    destruct (ascii_dec "/" "/") as [_|N]; [|congruence].
    destruct y; reflexivity.
  - cbn [String.append includes]. rewrite IH.
    destruct (prefix "/" (String c (x ++ String "/" y))); reflexivity.
Qed.

Lemma split_at_slash (x y : string) :
  noSlash x = true -> noSlash y = true ->
  split "/" (x ++ String "/" y) = [x; y].
Proof.
  unfold noSlash. intros Hx Hy.
  induction x as [|c x IH].
  - cbn [String.append split]. rewrite (split_no_sep "/" y Hy). reflexivity.
  - cbn [forallb] in Hx. apply andb_true_iff in Hx as [Hc Hx].
    apply negb_true_iff in Hc.
    cbn [String.append split]. rewrite Hc, (IH Hx). reflexivity.
Qed.

(** [folder && folder.trim() ? folder.trim() : ''] is the trimmed folder. *)
Lemma folderPart_trim (f : string) :
  (if negb (is_empty f) && negb (is_empty (trim f)) then trim f
   else EmptyString) = trim f.
Proof.
  destruct (is_empty f) eqn:Ef.
  - apply is_empty_true in Ef. subst f. reflexivity.
  - destruct (is_empty (trim f)) eqn:Et; [|reflexivity].
    apply is_empty_true in Et. rewrite Et. reflexivity.
Qed.

(** Reading back what [formatFullAlias] wrote returns the trimmed folder
    and alias, as long as neither holds a ['/']. *)
Theorem parseFullAlias_formatFullAlias (f a : string) :
  noSlash (trim f) = true -> noSlash (trim a) = true ->
  parseFullAlias (formatFullAlias f a) = (trim f, trim a).
Proof.
  intros Hf Ha. unfold formatFullAlias, parseFullAlias.
  rewrite folderPart_trim.
  destruct (trim f) as [|c r] eqn:Ef; cbn [is_empty negb].
  - rewrite (split_no_sep "/" (trim a) Ha), trim_idem. reflexivity.
  - change (String c r ++ "/" ++ trim a)%string
      with (String c r ++ String "/" (trim a))%string.
    rewrite (split_at_slash _ _ Hf Ha), trim_idem.
    rewrite <- Ef, trim_idem. reflexivity.
Qed.

Lemma parseFullAlias_formatFullAlias_witness :
  noSlash (trim " Work ") = true /\ noSlash (trim "meet ") = true
  /\ parseFullAlias (formatFullAlias " Work " "meet ") = ("Work", "meet").
Proof.
  split; [reflexivity|]. split; [reflexivity|].
  apply (parseFullAlias_formatFullAlias " Work " "meet "); reflexivity.
Defined.

Lemma toLowerCase_not_empty (s : string) :
  is_empty (toLowerCase s) = is_empty s.
Proof. destruct s; reflexivity. Qed.

Lemma parseAliasWithFolder_plain (x : string) :
  is_empty x = false -> forallb folder_class x = true ->
  parseAliasWithFolder x
  = {| pa_folder := EmptyString; pa_alias := toLowerCase x;
       pa_fullAlias := toLowerCase x |}.
Proof.
  intros Hne Hx. unfold parseAliasWithFolder.
  rewrite (ValidatorClaims.trim_no_space x (folder_class_no_space x Hx)).
  rewrite Hne, (includes_noSlash x (folder_class_noSlash x Hx)).
  reflexivity.
Qed.

Lemma parseAliasWithFolder_slash (x y : string) :
  forallb folder_class x = true -> forallb folder_class y = true ->
  parseAliasWithFolder (x ++ String "/" y)
  = {| pa_folder := toLowerCase x; pa_alias := toLowerCase y;
       pa_fullAlias := (toLowerCase x ++ "/" ++ toLowerCase y)%string |}.
Proof.
  intros Hx Hy. unfold parseAliasWithFolder.
  assert (Hne : is_empty (x ++ String "/" y) = false)
    by (destruct x; reflexivity).
  assert (Hfull : trim (x ++ String "/" y) = (x ++ String "/" y)%string).
  { apply ValidatorClaims.trim_no_space.
    rewrite forallb_app. cbn [forallb].
    rewrite (folder_class_no_space x Hx), (folder_class_no_space y Hy).
    reflexivity. }
  rewrite Hne, Hfull, Hne.
  rewrite (includes_with_slash x y).
  rewrite (split_at_slash x y (folder_class_noSlash x Hx)
             (folder_class_noSlash y Hy)).
  rewrite (ValidatorClaims.trim_no_space x (folder_class_no_space x Hx)).
  rewrite (ValidatorClaims.trim_no_space y (folder_class_no_space y Hy)).
  reflexivity.
Qed.

(** The full alias that [validateFullAlias] accepts is read by
    [parseAliasWithFolder] as the normalized folder and alias, and the full
    alias it reports is the composite key. *)
Theorem parseAliasWithFolder_validateFullAlias (f a full : string) :
  validateFullAlias f a = inl full ->
  parseAliasWithFolder full
  = {| pa_folder := normalize f; pa_alias := normalize a;
       pa_fullAlias := compositeKey f a |}.
Proof.
  unfold validateFullAlias.
  destruct (validateFolderName f) eqn:Hf; [|discriminate].
  destruct (validateAlias a) eqn:Ha; [|discriminate].
  rewrite folderPart_trim. intros H. injection H as <-.
  apply validateAlias_valid_iff in Ha as [[Hlen _] Hac].
  assert (Hane : is_empty (trim a) = false).
  { destruct (trim a); [simpl in Hlen; lia | reflexivity]. }
  assert (Haplain := forallb_impl _ _ _ alias_class_folder_class Hac).
  unfold compositeKey, normalize. rewrite toLowerCase_not_empty.
  destruct (is_empty (trim f)) eqn:Ef; cbn [negb].
  - apply is_empty_true in Ef. rewrite Ef.
    apply parseAliasWithFolder_plain; assumption.
  - apply valid_folder_cases in Hf as [Hf|Hf];
      [rewrite Hf in Ef; discriminate|].
    apply (parseAliasWithFolder_slash (trim f) (trim a) Hf Haplain).
Qed.

Lemma parseAliasWithFolder_validateFullAlias_witness :
  validateFullAlias " Work " "meet" = inl "Work/meet"
  /\ parseAliasWithFolder "Work/meet"
     = {| pa_folder := "work"; pa_alias := "meet"; pa_fullAlias := "work/meet" |}.
Proof.
  split; [reflexivity|].
  exact (parseAliasWithFolder_validateFullAlias " Work " "meet" "Work/meet"
           eq_refl).
Defined.

End AliasSyntaxFacts.

(** ** shortcutService.js: what a rename, an undo and a re-save do *)

Module ServiceFacts.
Import JsString Validators Store ShortcutValidation ShortcutService.
Import JsStringFacts ValidatorFacts StoreFacts UpdateFacts KeyFacts.
Import Spec ShortcutAccess.

Section WithUrlParser.
Variable urlProtocol : string -> option string.

(** What a rename loop that ran to its end has done. *)
Lemma renameLoop_success (newName : string) (clock : nat -> string)
      (shortcuts : list Shortcut)
      (updated : nat) (st st' : store) (n : nat) :
  renameLoop urlProtocol newName clock shortcuts updated st = (st', inl n) ->
  n = updated + List.length shortcuts
  /\ (forall x, In x shortcuts ->
      exists x', get (id x) st' = Some x' /\ folder x' = newName)
  /\ (forall k, ~ In k (map id shortcuts) -> get k st' = get k st)
  /\ (forall y, In y st' ->
      folder y = newName \/ (In y st /\ ~ In (id y) (map id shortcuts))).
Proof.
  revert updated st. induction shortcuts as [|s l IH]; intros u st; simpl.
  - intros H. injection H as <- <-. split; [lia|].
    split; [intros x []|]. split; [reflexivity|]. intros y Hy. right. tauto.
  - case_branch; [discriminate|].
    destruct (updateShortcut _ _ _ _ _) as [st1 [stored|e]] eqn:Hup;
      [|discriminate].
    intros H. destruct (IH _ _ H) as (Hn & Hmoved & Hframe & Hin).
    apply updateShortcut_success in Hup
      as (existing & Hget & -> & Hid & _ & Hfolder & _).
    cbn [merged_folder p_folder p_id or_else folder_patch] in Hfolder, Hid.
    split; [lia|]. split; [|split].
    + intros x [<-|Hx]; [|auto].
      destruct (in_dec string_dec (id s) (map id l)) as [Hyes|Hno].
      * apply in_map_iff in Hyes as (y & Hy & Hyin). rewrite <- Hy. auto.
      * rewrite (Hframe _ Hno), <- Hid, get_put_same. eauto.
    + intros k Hk. rewrite Hframe by tauto. apply get_put_other.
      rewrite Hid. intros E. apply Hk. left. symmetry. exact E.
    + intros y Hy. destruct (Hin y Hy) as [Hf|[Hy1 Hout]]; [auto|].
      apply In_put in Hy1 as [->|[Hy1 Hne]]; [auto|].
      right. split; [exact Hy1|]. rewrite Hid in Hne.
      intros [E|E]; [apply Hne; symmetry; exact E | apply Hout, E].
Qed.

Lemma getShortcutsByFolder_In (f : string) (st : store) (x : Shortcut) :
  In x (getShortcutsByFolder f st)
  <-> In x st /\ normalize (folder x) = normalize f.
Proof.
  unfold getShortcutsByFolder, getAll, normalize.
  rewrite filter_In, String.eqb_eq. reflexivity.
Qed.

(** The record that would collide with the one stored under the same key
    is that record. *)
Lemma same_key_same_record (st : store) (x y : Shortcut) :
  Forall validIdentity st -> uniqueKeys st -> In x st -> In y st ->
  normalize (folder x) = normalize (folder y) ->
  normalize (alias x) = normalize (alias y) ->
  x = y.
Proof.
  intros Hv Hu Hx Hy Hf Ha. rewrite Forall_forall in Hv.
  apply (NoDup_map_inj keyOf st); auto.
  destruct (Hv y Hy) as [Hay Hfy].
  unfold keyOf at 2. apply keyOf_eq_iff; auto.
Qed.

End WithUrlParser.

Lemma renameFolder_done
      (urlProtocol : string -> option string)
      (oldName newName : string) (clock : nat -> string)
      (st st' : store) (n : nat) :
  caseInsensitiveEqual oldName newName = false ->
  renameFolder urlProtocol oldName newName clock st = (st', inl n) ->
  n = List.length (getShortcutsByFolder oldName st)
  /\ getShortcutsByFolder oldName st' = []
  /\ (forall x, In x (getShortcutsByFolder oldName st) ->
      exists x', get (id x) st' = Some x' /\ folder x' = newName)
  /\ (forall k, ~ In k (map id (getShortcutsByFolder oldName st)) ->
      get k st' = get k st).
Proof.
  intros Hdiff. unfold renameFolder. rewrite Hdiff. intros Hrun.
  apply renameLoop_success in Hrun as (Hn & Hmoved & Hframe & Hin).
  split; [exact Hn|]. split; [|split; assumption].
  destruct (getShortcutsByFolder oldName st') as [|y rest] eqn:Hleft;
    [reflexivity|].
  exfalso.
  assert (Hy : In y (getShortcutsByFolder oldName st'))
    by (rewrite Hleft; left; reflexivity).
  apply getShortcutsByFolder_In in Hy as [Hy Hfolder].
  destruct (Hin y Hy) as [Hnew|[Hold Hout]].
  - unfold caseInsensitiveEqual in Hdiff. apply String.eqb_neq in Hdiff.
    apply Hdiff. rewrite Hnew in Hfolder. symmetry. exact Hfolder.
  - apply Hout, in_map, getShortcutsByFolder_In. auto.
Qed.

(** When [renameFolder(oldName, newName)] succeeds for two names that
    differ beyond case, it returns the number of shortcuts that were listed
    under [oldName], each of them is now stored with folder [newName],
    nothing is listed under [oldName] any more, and every other record is
    as it was. *)
Theorem renameFolder_moves_whole_folder
        (urlProtocol : string -> option string)
        (oldName newName : string) (clock : nat -> string)
        (st st' : store) (n : nat) :
  caseInsensitiveEqual oldName newName = false ->
  renameFolder urlProtocol oldName newName clock st = (st', inl n) ->
  n = List.length (getShortcutsByFolder oldName st)
  /\ getShortcutsByFolder oldName st' = []
  /\ (forall x, In x (getShortcutsByFolder oldName st) ->
      exists x', get (id x) st' = Some x' /\ folder x' = newName)
  /\ (forall k, ~ In k (map id (getShortcutsByFolder oldName st)) ->
      get k st' = get k st).
Proof. apply renameFolder_done. Qed.

Lemma renameFolder_moves_whole_folder_witness :
  let st := [Samples.shortcut "1" "work" "meet"; Samples.shortcut "2" "team" "plan";
             Samples.shortcut "3" "Work" "mail"] in
  let st' := fst (renameFolder Samples.schemeOf "work" "jobs"
                    (Samples.at_time "2025-10-23T00:00:00Z") st) in
  caseInsensitiveEqual "work" "jobs" = false
  /\ renameFolder Samples.schemeOf "work" "jobs"
       (Samples.at_time "2025-10-23T00:00:00Z") st
     = (st', inl 2)
  /\ getShortcutsByFolder "work" st' = [].
Proof.
  intros st st'.
  assert (Hrun : renameFolder Samples.schemeOf "work" "jobs"
                   (Samples.at_time "2025-10-23T00:00:00Z") st
                 = (st', inl 2))
    by (vm_compute; reflexivity).
  split; [reflexivity|]. split; [exact Hrun|].
  exact (proj1 (proj2 (renameFolder_moves_whole_folder Samples.schemeOf
                         "work" "jobs"
                         (Samples.at_time "2025-10-23T00:00:00Z") st st' 2
                         eq_refl Hrun))).
Defined.

(** A shortcut can always be saved again under its own folder and alias,
    in whatever letter case and outer spacing: in a store of validated
    shortcuts with distinct composite keys, an update that leaves the
    composite key of the record as it is never fails with the
    alias-exists error. *)
Theorem updateShortcut_own_key_is_no_conflict
        (urlProtocol : string -> option string)
        (k : string) (updates : patch) (now : string) (st : store)
        (existing : Shortcut) :
  Forall validIdentity st -> uniqueKeys st ->
  get k st = Some existing ->
  keyOf (merge existing updates) = keyOf existing ->
  forall full,
    snd (updateShortcut urlProtocol k updates now st) <> inr (AliasExists full).
Proof.
  intros Hv Hu Hget Hkey full. unfold updateShortcut. rewrite Hget.
  destruct (validateShortcut _ _) as [validTags|errors] eqn:Hval;
    [|discriminate].
  apply NamespaceClaims.validateShortcut_inl in Hval as (_ & Ha & Hf & _).
  cbn [as_draft d_alias d_folder] in Ha, Hf.
  destruct (identity_touched updates); [|discriminate].
  destruct (getShortcutByFullAlias _ _ st) as [found|] eqn:Hfind;
    [|discriminate].
  apply getShortcutByFullAlias_Some in Hfind as (Hin & Hff & Hfa).
  pose proof (get_In _ _ _ Hget) as Hex.
  pose proof (get_id _ _ _ Hget) as Hexid.
  assert (Hsame : found = existing).
  { apply (NoDup_map_inj keyOf st); auto.
    rewrite <- Hkey. unfold keyOf at 2.
    rewrite Forall_forall in Hv. apply keyOf_eq_iff; auto. }
  subst found. rewrite Hexid, String.eqb_refl. discriminate.
Qed.

Lemma updateShortcut_own_key_is_no_conflict_witness :
  let st := [Samples.shortcut "1" "work" "meet"; Samples.shortcut "2" "team" "plan"] in
  Forall validIdentity st /\ uniqueKeys st
  /\ snd (updateShortcut Samples.schemeOf "1" (folder_patch " Work ")
            "2025-10-23T00:00:00Z" st)
     <> inr (AliasExists "work/meet").
Proof.
  assert (Hv : Forall validIdentity
                 [Samples.shortcut "1" "work" "meet";
                  Samples.shortcut "2" "team" "plan"]).
  { repeat (constructor; [split; reflexivity|]). constructor. }
  assert (Hu : uniqueKeys [Samples.shortcut "1" "work" "meet";
                           Samples.shortcut "2" "team" "plan"]).
  { unfold uniqueKeys. vm_compute.
    constructor; [intros [E|[]]; discriminate E|].
    constructor; [intros []|]. constructor. }
  split; [exact Hv|]. split; [exact Hu|].
  exact (updateShortcut_own_key_is_no_conflict Samples.schemeOf "1"
           (folder_patch " Work ") "2025-10-23T00:00:00Z" _ _ Hv Hu
           eq_refl eq_refl "work/meet").
Defined.

(** Undoing a deletion creates a new record: when a shortcut [s] whose
    URL and tags still pass validation has just been deleted from a store
    of validated shortcuts with distinct composite keys, [undoDeletion(s)]
    succeeds and stores a shortcut with the composite key of [s], but under
    the new id and with the usage data reset: access count 0, no access
    time, creation time now, not a favourite. *)
Theorem undoDeletion_restores_key_not_usage
        (urlProtocol : string -> option string)
        (s : Shortcut) (newId now : string) (st : store)
        (validTags : list string) :
  Forall validIdentity st -> uniqueKeys st -> In s st ->
  validateUrl urlProtocol (url s) = Valid ->
  validateTags (TagsArray (tags s)) = TagsValid validTags ->
  get newId (delete (id s) st) = None ->
  exists restored,
    undoDeletion urlProtocol s newId now (fst (deleteShortcut (id s) st))
    = (insert_ordered restored (delete (id s) st), inl restored)
    /\ id restored = newId
    /\ keyOf restored = keyOf s
    /\ tags restored = validTags
    /\ createdAt restored = now
    /\ accessCount restored = 0
    /\ lastAccessedAt restored = None
    /\ isFavorite restored = false.
Proof.
  intros Hv Hu Hs Hurl Htags Hfresh.
  pose proof Hv as Hall. rewrite Forall_forall in Hall.
  destruct (Hall s Hs) as [Ha Hf].
  unfold undoDeletion, deleteShortcut, createShortcut. cbn [fst].
  assert (Hval : validateShortcut urlProtocol
                   {| d_url := url s; d_alias := alias s; d_folder := folder s;
                      d_tags := TagsArray (tags s) |} = inl validTags).
  { apply NamespaceClaims.validateShortcut_inl. auto. }
  rewrite Hval. cbn [d_url d_alias d_folder d_tags].
  destruct (getShortcutByFullAlias (folder s) (alias s) (delete (id s) st))
    as [found|] eqn:Hfind.
  - exfalso.
    apply getShortcutByFullAlias_Some in Hfind as (Hin & Hff & Hfa).
    apply In_delete in Hin as [Hin Hne]. apply Hne.
    rewrite (same_key_same_record st found s Hv Hu Hin Hs Hff Hfa).
    reflexivity.
  - unfold add. cbn [id]. rewrite Hfresh.
    eexists. split; [reflexivity|]. cbn.
    split; [reflexivity|].
    split; [apply NamespaceClaims.created_key|].
    repeat split.
Qed.

Lemma undoDeletion_restores_key_not_usage_witness :
  let s := Samples.accessed "1" "meet" 7 100 in
  let st := [s; Samples.shortcut "2" "team" "plan"] in
  Forall validIdentity st /\ uniqueKeys st /\ In s st
  /\ exists restored,
      undoDeletion Samples.schemeOf s "3" "2025-10-23T00:00:00Z"
        (fst (deleteShortcut "1" st))
      = (insert_ordered restored (delete "1" st), inl restored)
      /\ accessCount restored = 0.
Proof.
  cbv zeta.
  assert (Hv : Forall validIdentity
                 [Samples.accessed "1" "meet" 7 100;
                  Samples.shortcut "2" "team" "plan"]).
  { repeat (constructor; [split; reflexivity|]). constructor. }
  assert (Hu : uniqueKeys [Samples.accessed "1" "meet" 7 100;
                           Samples.shortcut "2" "team" "plan"]).
  { unfold uniqueKeys. vm_compute.
    constructor; [intros [E|[]]; discriminate E|].
    constructor; [intros []|]. constructor. }
  split; [exact Hv|]. split; [exact Hu|].
  split; [left; reflexivity|].
  destruct (undoDeletion_restores_key_not_usage Samples.schemeOf
              (Samples.accessed "1" "meet" 7 100) "3" "2025-10-23T00:00:00Z"
              _ (tags (Samples.accessed "1" "meet" 7 100))
              Hv Hu (or_introl eq_refl) eq_refl eq_refl eq_refl)
    as (restored & Hrun & _ & _ & _ & _ & Hcount & _).
  exists restored. split; assumption.
Defined.

End ServiceFacts.

(** ** shortcutService.js: access tracking and bulk calls *)

Module AccessFacts.
Import JsString Validators Store ShortcutValidation ShortcutService.
Import JsStringFacts StoreFacts UpdateFacts KeyFacts JsArray JsArrayFacts.
Import Spec ShortcutAccess.

Lemma delete_absent (k : string) (st : store) :
  get k st = None -> delete k st = st.
Proof.
  unfold delete. induction st as [|x st IH]; simpl; [reflexivity|].
  destruct (String.eqb (id x) k); [discriminate|].
  intros H. simpl. rewrite (IH H). reflexivity.
Qed.

Lemma valid_delete (k : string) (st : store) :
  Forall validIdentity st -> Forall validIdentity (delete k st).
Proof.
  rewrite !Forall_forall. intros H x Hx. apply In_delete in Hx as [Hx _]. auto.
Qed.

Lemma put_same_key (s s' : Shortcut) (st : store) :
  Forall validIdentity st -> uniqueKeys st ->
  get (id s') st = Some s -> keyOf s' = keyOf s -> validIdentity s' ->
  Forall validIdentity (put s' st) /\ uniqueKeys (put s' st).
Proof.
  intros Hv Hu Hget Hkey Hs'. unfold put. split.
  - apply NamespaceClaims.valid_insert; [exact Hs' | apply valid_delete, Hv].
  - apply NamespaceClaims.uniqueKeys_insert; [apply uniqueKeys_delete, Hu|].
    intros Hin. apply in_map_iff in Hin as (x & Hk & Hx).
    apply In_delete in Hx as [Hx Hne]. apply Hne.
    assert (x = s).
    { apply (NoDup_map_inj keyOf st); auto; [|congruence].
      apply (get_In _ _ _ Hget). }
    subst x. apply (get_id _ _ _ Hget).
Qed.

Section WithUrlParser.
Variable urlProtocol : string -> option string.

Lemma bulkStep_counts (op : bulk) (clock : nat -> string) (k : string)
      (st : store) (r : bulk_results) :
  let r' := snd (bulkStep urlProtocol op clock k (st, r)) in
  updated r' + failed r' = updated r + failed r + 1
  /\ (List.length (errors r) = failed r ->
      List.length (errors r') = failed r')
  /\ (forall k' f, In (k', f) (errors r') ->
      In (k', f) (errors r) \/ k' = k).
Proof.
  assert (Hup : let r' := one_more_updated r in
                updated r' + failed r' = updated r + failed r + 1
                /\ (List.length (errors r) = failed r ->
                    List.length (errors r') = failed r')
                /\ (forall k' f, In (k', f) (errors r') ->
                    In (k', f) (errors r) \/ k' = k)).
  { cbn. split; [lia|]. split; auto. }
  assert (Hfail : forall why,
             let r' := one_more_failed k why r in
             updated r' + failed r' = updated r + failed r + 1
             /\ (List.length (errors r) = failed r ->
                 List.length (errors r') = failed r')
             /\ (forall k' f, In (k', f) (errors r') ->
                 In (k', f) (errors r) \/ k' = k)).
  { intros why. cbn. split; [lia|]. split.
    - intros H. rewrite length_app, H. reflexivity.
    - intros k' f Hin. apply in_app_iff in Hin as [Hin|[E|[]]]; [auto|].
      injection E as <- _. auto. }
  unfold bulkStep. destruct (get k st) as [shortcut|]; [|apply Hfail].
  destruct op; try apply Hup; try apply Hfail;
    destruct (updateShortcut _ _ _ _ _) as [st1 [stored|e]];
    first [apply Hup | apply Hfail].
Qed.

Lemma bulkLoop_counts (op : bulk) (clock : nat -> string)
      (ids : list string) (st : store) (r : bulk_results) :
  let r' := snd (fold_left (fun state k => bulkStep urlProtocol op clock k state)
                           ids (st, r)) in
  updated r' + failed r' = updated r + failed r + List.length ids
  /\ (List.length (errors r) = failed r ->
      List.length (errors r') = failed r')
  /\ (forall k' f, In (k', f) (errors r') ->
      In (k', f) (errors r) \/ In k' ids).
Proof.
  revert st r. induction ids as [|k ids IH]; intros st r; cbn [fold_left].
  - cbn. split; [lia|]. split; auto.
  - pose proof (bulkStep_counts op clock k st r) as (Hsum & Hlen & Hids).
    destruct (bulkStep urlProtocol op clock k (st, r)) as [st1 r1].
    cbn [snd] in Hsum, Hlen, Hids.
    destruct (IH st1 r1) as (Hsum' & Hlen' & Hids'). cbv zeta.
    split; [cbn [List.length]; lia|]. split; [auto|].
    intros k' f Hin. destruct (Hids' k' f Hin) as [Hin1|Hin1].
    + destruct (Hids k' f Hin1) as [?| ->]; [auto | right; left; reflexivity].
    + right. right. exact Hin1.
Qed.

Lemma move_patch_defined (operationData : option string) :
  operationData <> None ->
  p_id (move_patch operationData) = None
  /\ p_folder (move_patch operationData) <> FolderUndefined.
Proof.
  destruct operationData as [folderName|]; [|congruence].
  intros _. cbn. split; [reflexivity | discriminate].
Qed.

Lemma bulkStep_preserves (op : bulk) (clock : nat -> string) (k : string)
      (st : store) (r : bulk_results) :
  op <> BulkMoveToFolder None ->
  Forall validIdentity st -> uniqueKeys st ->
  Forall validIdentity (fst (bulkStep urlProtocol op clock k (st, r)))
  /\ uniqueKeys (fst (bulkStep urlProtocol op clock k (st, r))).
Proof.
  intros Hop Hv Hu. unfold bulkStep.
  destruct (get k st) as [shortcut|]; [|cbn [fst]; auto].
  assert (Hplain : forall updates,
             p_id updates = None -> p_folder updates <> FolderUndefined ->
             let step :=
               match updateShortcut urlProtocol k updates
                       (clock (updated r)) st with
               | (st', inl _) => (st', one_more_updated r)
               | (st', inr e) => (st', one_more_failed k (Thrown e) r)
               end in
             Forall validIdentity (fst step) /\ uniqueKeys (fst step)).
  { intros updates Hnoid Hdefined.
    pose proof (NamespaceClaims.updateShortcut_preserves
                  urlProtocol k updates (clock (updated r)) st
                  Hnoid Hdefined Hv Hu) as Hkeep.
    destruct (updateShortcut urlProtocol k updates (clock (updated r)) st)
      as [st1 [stored|e]]; exact Hkeep. }
  destruct op as [|newTags|tag|operationData|operation].
  - cbn [fst deleteShortcut].
    split; [apply valid_delete, Hv | apply uniqueKeys_delete, Hu].
  - apply Hplain; [reflexivity | discriminate].
  - apply Hplain; [reflexivity | discriminate].
  - assert (Hgiven : operationData <> None) by congruence.
    destruct (move_patch_defined operationData Hgiven) as [Hnoid Hdefined].
    apply Hplain; assumption.
  - cbn [fst]. auto.
Qed.

Lemma bulkStep_delete (clock : nat -> string) (k : string) (st : store)
      (r : bulk_results) :
  fst (bulkStep urlProtocol BulkDelete clock k (st, r)) = delete k st
  /\ (forall k' f, In (k', f) (errors (snd (bulkStep urlProtocol BulkDelete
                                               clock k (st, r)))) ->
      In (k', f) (errors r) \/ f = MissingShortcut).
Proof.
  unfold bulkStep. destruct (get k st) as [shortcut|] eqn:Hget; cbn.
  - split; [reflexivity | auto].
  - split; [symmetry; apply delete_absent, Hget|].
    intros k' f Hin. apply in_app_iff in Hin as [Hin|[E|[]]]; [auto|].
    injection E as _ <-. auto.
Qed.

End WithUrlParser.

(** [bulkOperation] accounts for every id it is given exactly once: the
    counts of updated and failed ids add up to the number of ids, there is
    one error entry per failed id, and every error entry names one of the
    ids. *)
Theorem bulkOperation_counts_every_id
        (urlProtocol : string -> option string)
        (ids : list string) (op : bulk) (clock : nat -> string) (st : store) :
  let results := snd (bulkOperation urlProtocol ids op clock st) in
  updated results + failed results = List.length ids
  /\ List.length (errors results) = failed results
  /\ forall k f, In (k, f) (errors results) -> In k ids.
Proof.
  unfold bulkOperation.
  destruct (bulkLoop_counts urlProtocol op clock ids st
              {| updated := 0; failed := 0; errors := [] |})
    as (Hsum & Hlen & Hids).
  cbv zeta in *. cbn [updated failed errors] in Hsum, Hlen, Hids.
  split; [lia|]. split; [auto|].
  intros k f Hin. destruct (Hids k f Hin) as [[]|Hk]. exact Hk.
Qed.

(** Whatever the bulk operation, a move to a folder being given its
    folder, and however many of its steps fail, a store of validated
    shortcuts with distinct composite keys stays one.  (A move called
    without its folder is left out: it hands [updateShortcut] a [folder]
    that is [undefined].) *)
Theorem bulkOperation_keeps_keys_unique
        (urlProtocol : string -> option string)
        (ids : list string) (op : bulk) (clock : nat -> string) (st : store) :
  op <> BulkMoveToFolder None ->
  Forall validIdentity st -> uniqueKeys st ->
  Forall validIdentity (fst (bulkOperation urlProtocol ids op clock st))
  /\ uniqueKeys (fst (bulkOperation urlProtocol ids op clock st)).
Proof.
  intros Hop. unfold bulkOperation.
  generalize {| updated := 0; failed := 0; errors := [] |}.
  revert st. induction ids as [|k ids IH]; intros st r Hv Hu; cbn [fold_left].
  - cbn [fst]. auto.
  - destruct (bulkStep_preserves urlProtocol op clock k st r Hop Hv Hu)
      as [Hv1 Hu1].
    destruct (bulkStep urlProtocol op clock k (st, r)) as [st1 r1].
    cbn [fst] in Hv1, Hu1. apply IH; assumption.
Qed.

Lemma bulkOperation_keeps_keys_unique_witness :
  let st := [Samples.shortcut "1" "work" "meet"; Samples.shortcut "2" "team" "meet"] in
  let run := bulkOperation Samples.schemeOf ["1"; "2"; "3"]
               (BulkMoveToFolder (Some "home"))
               (Samples.at_time "2025-10-23T00:00:00Z") st in
  BulkMoveToFolder (Some "home") <> BulkMoveToFolder None
  /\ Forall validIdentity st /\ uniqueKeys st
  /\ updated (snd run) = 1 /\ failed (snd run) = 2
  /\ uniqueKeys (fst run).
Proof.
  intros st run.
  assert (Hv : Forall validIdentity st).
  { repeat (constructor; [split; reflexivity|]). constructor. }
  assert (Hu : uniqueKeys st).
  { unfold uniqueKeys. vm_compute.
    constructor; [intros [E|[]]; discriminate E|].
    constructor; [intros []|]. constructor. }
  assert (Hop : BulkMoveToFolder (Some "home") <> BulkMoveToFolder None)
    by discriminate.
  split; [exact Hop|]. split; [exact Hv|]. split; [exact Hu|].
  split; [reflexivity|]. split; [reflexivity|].
  exact (proj2 (bulkOperation_keeps_keys_unique Samples.schemeOf
                  ["1"; "2"; "3"] (BulkMoveToFolder (Some "home"))
                  (Samples.at_time "2025-10-23T00:00:00Z") st Hop Hv Hu)).
Defined.

(** The move left out above, on the store of two shortcuts "meet" and
    "work/meet": [bulkOperation(['2'], 'moveToFolder')] counts one update
    and leaves two shortcuts under the key "meet". *)
Lemma bulkOperation_move_without_folder :
  let st := [Samples.shortcut "1" "" "meet"; Samples.shortcut "2" "work" "meet"] in
  let run := bulkOperation Samples.schemeOf ["2"] (BulkMoveToFolder None)
               (Samples.at_time "2025-10-23T00:00:00Z") st in
  updated (snd run) = 1 /\ failed (snd run) = 0
  /\ map keyOf (fst run) = ["meet"; "meet"].
Proof.
  vm_compute. repeat split; reflexivity.
Qed.

(** A bulk delete leaves exactly the records whose id is not among the
    ids given, and the only failure it reports is a missing shortcut. *)
Theorem bulkOperation_delete_removes_ids
        (urlProtocol : string -> option string)
        (ids : list string) (clock : nat -> string) (st : store) :
  let run := bulkOperation urlProtocol ids BulkDelete clock st in
  fst run = filter (fun x => negb (existsb (String.eqb (id x)) ids)) st
  /\ forall k f, In (k, f) (errors (snd run)) -> f = MissingShortcut.
Proof.
  unfold bulkOperation.
  assert (Hgen : forall r st,
             let run := fold_left
                          (fun state k =>
                             bulkStep urlProtocol BulkDelete clock k state)
                          ids (st, r) in
             fst run = filter (fun x => negb (existsb (String.eqb (id x)) ids)) st
             /\ forall k f, In (k, f) (errors (snd run)) ->
                  In (k, f) (errors r) \/ f = MissingShortcut).
  { induction ids as [|k ids IH]; intros r st0; cbn [fold_left].
    - cbn. split; [|auto].
      induction st0 as [|x l IHl]; [reflexivity|].
      cbn [filter]. rewrite <- IHl. reflexivity.
    - destruct (bulkStep_delete urlProtocol clock k st0 r) as [Hst Herr].
      destruct (bulkStep urlProtocol BulkDelete clock k (st0, r)) as [st1 r1].
      cbn [fst snd] in Hst, Herr. subst st1.
      destruct (IH r1 (delete k st0)) as [Hst' Herr']. cbv zeta.
      split.
      + rewrite Hst'. unfold delete. clear.
        induction st0 as [|x l IHl]; [reflexivity|].
        cbn [filter existsb]. rewrite (String.eqb_sym (id x) k).
        destruct (String.eqb k (id x)); cbn [negb orb].
        * exact IHl.
        * cbn [filter]. rewrite IHl. reflexivity.
      + intros k' f Hin. destruct (Herr' k' f Hin) as [Hin1|?]; auto. }
  destruct (Hgen {| updated := 0; failed := 0; errors := [] |} st)
    as [Hst Herr].
  cbv zeta in *. split; [exact Hst|].
  intros k f Hin. destruct (Herr k f Hin) as [[]|Hf]. exact Hf.
Qed.

(** Below [2^53] every natural number and its successor are doubles, so
    the increment is exact. *)
Lemma plus_one_exact (count : nat) :
  (N.of_nat count < 2 ^ 53)%N -> JsNumber.plus_one count = count + 1.
Proof.
  intros Hsmall. unfold JsNumber.plus_one.
  assert (Hround : JsNumber.round (N.of_nat count + 1) = (N.of_nat count + 1)%N).
  { destruct (N.eq_dec (N.of_nat count + 1) (2 ^ 53)) as [E|Hne].
    - rewrite E. vm_compute. reflexivity.
    - unfold JsNumber.round.
      assert (Hsize : (N.size (N.of_nat count + 1) <= 53)%N).
      { rewrite N.size_log2 by lia. apply N.le_succ_l.
        apply N.log2_lt_pow2; lia. }
      apply N.leb_le in Hsize. rewrite Hsize. reflexivity. }
  rewrite Hround, N2Nat.inj_add, Nat2N.id. reflexivity.
Qed.

(** At [2^53] the increment is lost: [2^53 + 1] is no double, and the
    nearest one is [2^53] again. *)
Lemma plus_one_saturates :
  JsNumber.plus_one (N.to_nat (2 ^ 53)) = N.to_nat (2 ^ 53).
Proof.
  unfold JsNumber.plus_one. rewrite N2Nat.id.
  assert (Hround : JsNumber.round (2 ^ 53 + 1) = (2 ^ 53)%N)
    by (vm_compute; reflexivity).
  rewrite Hround. reflexivity.
Qed.

(** Opening the most used shortcut keeps it on top: when no stored
    shortcut has a higher access count than the one under [k], and that
    count is below [2^53] (so that adding one to it is exact),
    [trackShortcutAccess(k)] stores it with the count raised by one and
    [getFrequentShortcuts(1)] then returns exactly that record. *)
Theorem trackShortcutAccess_promotes
        (k : string) (clock : Z) (now : string) (st : store) (s : Shortcut) :
  get k st = Some s ->
  (N.of_nat (accessCount s) < 2 ^ 53)%N ->
  (forall x, In x st -> accessCount x <= accessCount s) ->
  exists s',
    snd (trackShortcutAccess k clock now st) = Some s'
    /\ accessCount s' = accessCount s + 1
    /\ lastAccessedAt s' = Some clock
    /\ getFrequentShortcuts 1 (fst (trackShortcutAccess k clock now st)) = [s'].
Proof.
  intros Hget Hsmall Hmax. unfold trackShortcutAccess. rewrite Hget.
  cbn [fst snd]. rewrite (plus_one_exact _ Hsmall).
  eexists. split; [reflexivity|]. cbn [accessCount lastAccessedAt].
  split; [reflexivity|]. split; [reflexivity|].
  match goal with |- getFrequentShortcuts 1 (put ?r st) = _ => set (s' := r) end.
  unfold getFrequentShortcuts, slice0, getAll.
  pose proof (sort_perm byAccessCount (put s' st)) as Hperm.
  pose proof (sort_strongly_sorted byAccessCount
                FrequentClaims.byAccessCount_total
                FrequentClaims.byAccessCount_trans (put s' st)) as Hsorted.
  assert (Hs' : In s' (sort byAccessCount (put s' st))).
  { apply (Permutation_in _ (Permutation_sym Hperm)), In_put. auto. }
  destruct (sort byAccessCount (put s' st)) as [|h t]; [destruct Hs'|].
  cbn [firstn]. f_equal.
  destruct Hs' as [E|Hin]; [exact E|].
  apply StronglySorted_inv in Hsorted as [_ Hhead].
  rewrite Forall_forall in Hhead. specialize (Hhead s' Hin).
  unfold ordered, byAccessCount in Hhead.
  assert (Hh : In h (put s' st)).
  { apply (Permutation_in _ Hperm). left. reflexivity. }
  apply In_put in Hh. destruct Hh as [Hh|[Hh _]]; [exact Hh|].
  specialize (Hmax h Hh). subst s'. cbn [accessCount] in Hhead. lia.
Qed.

Lemma trackShortcutAccess_promotes_witness :
  let top := Samples.accessed "2" "beta" 5 200 in
  let st := [Samples.accessed "1" "alpha" 5 100; top] in
  get "2" st = Some top
  /\ (N.of_nat (accessCount top) < 2 ^ 53)%N
  /\ (forall x, In x st -> accessCount x <= accessCount top)
  /\ exists s',
      snd (trackShortcutAccess "2" 300 "2025-10-23T00:00:00Z" st) = Some s'
      /\ getFrequentShortcuts 1
           (fst (trackShortcutAccess "2" 300 "2025-10-23T00:00:00Z" st)) = [s'].
Proof.
  intros top st.
  assert (Hmax : forall x, In x st -> accessCount x <= accessCount top).
  { intros x [<-|[<-|[]]]; cbn; lia. }
  assert (Hsmall : (N.of_nat (accessCount top) < 2 ^ 53)%N) by reflexivity.
  split; [reflexivity|]. split; [exact Hsmall|]. split; [exact Hmax|].
  destruct (trackShortcutAccess_promotes "2" 300 "2025-10-23T00:00:00Z" st top
              eq_refl Hsmall Hmax) as (s' & Hret & _ & _ & Hfirst).
  exists s'. split; assumption.
Defined.

End AccessFacts.

(** ** folderService.js: the folder records *)

Module FolderFacts.
Import JsString Validators JsStringFacts KeyFacts.
Import FolderService Folders FolderClaims.

Lemma folder_get_name (k : string) (fs : folders) (f : Folder) :
  get k fs = Some f -> name f = k.
Proof.
  induction fs as [|x fs IH]; simpl; [discriminate|].
  destruct (String.eqb (name x) k) eqn:E; [|exact IH].
  intros H. injection H as <-. apply String.eqb_eq, E.
Qed.

Lemma folder_get_insert_other (k : string) (f : Folder) (fs : folders) :
  name f <> k -> get k (insert_ordered f fs) = get k fs.
Proof.
  intros Hne. apply String.eqb_neq in Hne.
  induction fs as [|x fs IH]; simpl; [rewrite Hne; reflexivity|].
  destruct (String.ltb (name f) (name x)); simpl.
  - rewrite Hne. reflexivity.
  - rewrite IH. reflexivity.
Qed.

Lemma folder_get_insert_new (f : Folder) (fs : folders) :
  get (name f) fs = None -> get (name f) (insert_ordered f fs) = Some f.
Proof.
  induction fs as [|x fs IH]; simpl.
  - rewrite String.eqb_refl. reflexivity.
  - destruct (String.eqb (name x) (name f)) eqn:E; [discriminate|].
    intros H. destruct (String.ltb (name f) (name x)); simpl.
    + rewrite String.eqb_refl. reflexivity.
    + rewrite E. apply IH, H.
Qed.

Lemma folder_get_delete_same (k : string) (fs : folders) :
  get k (delete k fs) = None.
Proof.
  unfold delete. induction fs as [|x fs IH]; simpl; [reflexivity|].
  destruct (String.eqb (name x) k) eqn:E; simpl; [exact IH|].
  rewrite E. exact IH.
Qed.

(** [getFolderByName] of a trimmed name reads the record under it, except
    that the empty name is never looked up. *)
Lemma getFolderByName_trimmed (n : string) (fs : folders) :
  getFolderByName (trim n) fs
  = if is_empty (trim n) then None else get (trim n) fs.
Proof. unfold getFolderByName. rewrite trim_idem. reflexivity. Qed.

Lemma createFolder_cases (folderName now : string) (fs : folders) :
  match createFolder folderName now fs with
  | (fs', inl folder) =>
      validateFolderName folderName = Valid
      /\ get (trim folderName) fs = None
      /\ folder = {| name := trim folderName; folderCreatedAt := now |}
      /\ get (trim folderName) fs' = Some folder
      /\ forall k, k <> trim folderName -> get k fs' = get k fs
  | (fs', inr _) =>
      fs' = fs
      /\ (validateFolderName folderName <> Valid
          \/ get (trim folderName) fs <> None)
  end.
Proof.
  unfold createFolder.
  destruct (validateFolderName folderName) as [|msg];
    [|split; [reflexivity | left; discriminate]].
  rewrite getFolderByName_trimmed. unfold add. cbn [name].
  destruct (is_empty (trim folderName)) eqn:Eblank;
    destruct (get (trim folderName) fs) as [existing|] eqn:Hget;
    try (split; [reflexivity | right; discriminate]).
  - split; [reflexivity|]. split; [reflexivity|]. split; [reflexivity|].
    split.
    + exact (folder_get_insert_new
               {| name := trim folderName; folderCreatedAt := now |} fs Hget).
    + intros k Hk. apply folder_get_insert_other. cbn [name]. congruence.
  - split; [reflexivity|]. split; [reflexivity|]. split; [reflexivity|].
    split.
    + exact (folder_get_insert_new
               {| name := trim folderName; folderCreatedAt := now |} fs Hget).
    + intros k Hk. apply folder_get_insert_other. cbn [name]. congruence.
Qed.

(** [createFolder(name)] succeeds exactly when the name is valid and no
    record is stored under the trimmed name, spelled as given.  It then
    stores a record with the trimmed name and the current time and leaves
    every other record alone; a failed call changes nothing. *)
Theorem createFolder_adds_trimmed_name (folderName now : string) (fs : folders) :
  match createFolder folderName now fs with
  | (fs', inl folder) =>
      validateFolderName folderName = Valid
      /\ get (trim folderName) fs = None
      /\ folder = {| name := trim folderName; folderCreatedAt := now |}
      /\ get (trim folderName) fs' = Some folder
      /\ forall k, k <> trim folderName -> get k fs' = get k fs
  | (fs', inr _) =>
      fs' = fs
      /\ (validateFolderName folderName <> Valid
          \/ get (trim folderName) fs <> None)
  end.
Proof. apply createFolder_cases. Qed.

(** For a name that is not blank, [getOrCreateFolder] returns the record
    stored under the trimmed name: the one that was there, with the store
    untouched, or else a new one, when the name is valid. *)
Theorem getOrCreateFolder_finds_or_adds
        (folderName now : string) (fs : folders) :
  trim folderName <> EmptyString ->
  validateFolderName folderName = Valid ->
  exists fs' folder,
    getOrCreateFolder folderName now fs = (fs', inl (Some folder))
    /\ name folder = trim folderName
    /\ get (trim folderName) fs' = Some folder
    /\ (forall k, k <> trim folderName -> get k fs' = get k fs)
    /\ (forall existing, get (trim folderName) fs = Some existing ->
        folder = existing /\ fs' = fs).
Proof.
  intros Hblank Hvalid. unfold getOrCreateFolder.
  assert (Hne : is_empty (trim folderName) = false)
    by (apply is_empty_false, Hblank).
  assert (Hne' : is_empty folderName = false).
  { destruct folderName; [|reflexivity]. exfalso. apply Hblank. reflexivity. }
  rewrite Hne', Hne. cbn [orb].
  rewrite getFolderByName_trimmed, Hne.
  destruct (get (trim folderName) fs) as [existing|] eqn:Hget.
  - exists fs, existing. split; [reflexivity|].
    split; [apply (folder_get_name _ _ _ Hget)|]. split; [exact Hget|].
    split; [reflexivity|]. intros e He. injection He as <-. auto.
  - pose proof (createFolder_cases (trim folderName) now fs)
      as Hcreate.
    rewrite trim_idem in Hcreate.
    destruct (createFolder (trim folderName) now fs) as [fs' [folder|e]].
    + destruct Hcreate as (_ & _ & -> & Hnew & Hframe).
      eexists _, _. split; [reflexivity|]. split; [reflexivity|].
      split; [exact Hnew|]. split; [exact Hframe|]. discriminate.
    + exfalso. destruct Hcreate as (_ & [Hbad|Hbad]).
      * apply Hbad, valid_folder_trim, Hvalid.
      * apply Hbad, Hget.
Qed.

(** The availability check agrees with creation: for a valid name that
    is not blank, [isFolderNameAvailable] answers true exactly when
    [createFolder] would succeed. *)
Theorem isFolderNameAvailable_iff_creatable
        (folderName now : string) (fs : folders) :
  validateFolderName folderName = Valid ->
  trim folderName <> EmptyString ->
  isFolderNameAvailable folderName fs = true
  <-> exists fs' folder, createFolder folderName now fs = (fs', inl folder).
Proof.
  intros Hvalid Hblank. unfold isFolderNameAvailable.
  assert (Hne : is_empty (trim folderName) = false)
    by (apply is_empty_false, Hblank).
  assert (Hne' : is_empty folderName = false).
  { destruct folderName; [|reflexivity]. exfalso. apply Hblank. reflexivity. }
  rewrite Hne', Hne. cbn [orb]. rewrite getFolderByName_trimmed, Hne.
  pose proof (createFolder_cases folderName now fs) as Hcreate.
  destruct (createFolder folderName now fs) as [fs' [folder|e]].
  - destruct Hcreate as (_ & -> & _). split; [eauto | reflexivity].
  - destruct Hcreate as (_ & [Hbad|Hbad]); [contradiction|].
    destruct (get (trim folderName) fs); [|contradiction].
    split; [discriminate|]. intros (? & ? & H). discriminate H.
Qed.

Lemma isFolderNameAvailable_iff_creatable_witness :
  let fs := [ {| name := "team"; folderCreatedAt := "2025-10-22T00:00:00Z" |} ] in
  validateFolderName " team " = Valid
  /\ trim " team " <> EmptyString
  /\ isFolderNameAvailable " team " fs = false
  /\ ~ exists fs' folder,
        createFolder " team " "2025-10-23T00:00:00Z" fs = (fs', inl folder).
Proof.
  intros fs.
  assert (Hne : trim " team " <> EmptyString) by discriminate.
  split; [reflexivity|]. split; [exact Hne|]. split; [reflexivity|].
  intros Hcreated.
  apply (isFolderNameAvailable_iff_creatable " team " "2025-10-23T00:00:00Z"
           fs eq_refl Hne) in Hcreated.
  discriminate Hcreated.
Defined.

Lemma getOrCreateFolder_finds_or_adds_witness :
  let fs := [ {| name := "team"; folderCreatedAt := "2025-10-22T00:00:00Z" |} ] in
  trim " Work " <> EmptyString
  /\ validateFolderName " Work " = Valid
  /\ exists fs' folder,
      getOrCreateFolder " Work " "2025-10-23T00:00:00Z" fs
      = (fs', inl (Some folder))
      /\ name folder = "Work".
Proof.
  intros fs.
  assert (Hne : trim " Work " <> EmptyString) by discriminate.
  split; [exact Hne|]. split; [reflexivity|].
  destruct (getOrCreateFolder_finds_or_adds " Work " "2025-10-23T00:00:00Z"
              fs Hne eq_refl) as (fs' & folder & Hrun & Hname & _).
  exists fs', folder. split; assumption.
Defined.

(** Whether [deleteFolder] finds shortcuts filed under the folder. *)
Lemma deleteFolder_trimmed (folder : Folder) (fs : folders) (st : Store.store) :
  trim (name folder) = name folder ->
  deleteFolder (name folder) fs st
  = if (0 <? List.length (ShortcutService.getShortcutsByFolder (name folder) st))%nat
    then (fs, inr (NotEmpty (List.length
                               (ShortcutService.getShortcutsByFolder
                                  (name folder) st))))
    else (delete (name folder) fs, inl tt).
Proof. intros Ht. unfold deleteFolder. rewrite Ht. reflexivity. Qed.

Section Cleanup.
Variable st : Store.store.

(** The folder has at least one shortcut filed under it. *)
Let used (folder : Folder) : bool :=
  (0 <? List.length (ShortcutService.getShortcutsByFolder (name folder) st))%nat.

Let named (l : list Folder) (folder : Folder) : bool :=
  existsb (fun g => String.eqb (name folder) (name g)) l.

Lemma cleanupLoop_removes (listed : list Folder) (deletedCount : nat)
      (fs : folders) :
  Forall (fun folder => trim (name folder) = name folder) listed ->
  cleanupLoop listed deletedCount fs st
  = (filter (fun folder =>
               negb (named (filter (fun g => negb (used g)) listed) folder)) fs,
     deletedCount + List.length (filter (fun g => negb (used g)) listed)).
Proof.
  revert deletedCount fs.
  induction listed as [|g listed IH]; intros c fs Htrim.
  - cbn. f_equal; [|lia].
    induction fs as [|x fs IHfs]; [reflexivity|].
    cbn [filter named existsb negb]. rewrite <- IHfs. reflexivity.
  - inversion Htrim as [|? ? Hg Hrest]; subst.
    cbn [cleanupLoop]. rewrite (deleteFolder_trimmed g fs st Hg).
    fold (used g). cbn [filter].
    destruct (used g) eqn:Hused; cbn [negb].
    + apply IH, Hrest.
    + rewrite (IH _ _ Hrest). f_equal; [|cbn [List.length]; lia].
      unfold delete. clear.
      induction fs as [|x fs IHfs]; [reflexivity|].
      cbn [filter named existsb].
      destruct (String.eqb (name x) (name g)); cbn [negb orb].
      * exact IHfs.
      * cbn [filter]. fold (named (filter (fun g0 => negb (used g0)) listed) x).
        rewrite IHfs. reflexivity.
Qed.

Lemma used_by_name (f g : Folder) : name f = name g -> used f = used g.
Proof. unfold used. intros ->. reflexivity. Qed.

Lemma named_unused (fs : folders) (folder : Folder) :
  In folder fs ->
  named (filter (fun g => negb (used g)) fs) folder = negb (used folder).
Proof.
  intros Hin. unfold named.
  destruct (used folder) eqn:Hu; cbn [negb].
  - apply not_true_is_false. intros H.
    apply existsb_exists in H as (g & Hg & Heq).
    apply filter_In in Hg as [_ Hg]. apply String.eqb_eq in Heq.
    rewrite <- (used_by_name _ _ Heq), Hu in Hg. discriminate.
  - apply existsb_exists. exists folder.
    split; [|apply String.eqb_refl].
    apply filter_In. rewrite Hu. auto.
Qed.

Lemma cleanupEmptyFolders_result (fs : folders) :
  Forall (fun folder => trim (name folder) = name folder) fs ->
  cleanupEmptyFolders fs st
  = (filter used fs, List.length (filter (fun g => negb (used g)) fs)).
Proof.
  intros Htrim. unfold cleanupEmptyFolders.
  rewrite (cleanupLoop_removes fs 0 fs Htrim). f_equal.
  apply filter_ext_in. intros folder Hin.
  rewrite (named_unused fs folder Hin). apply negb_involutive.
Qed.

End Cleanup.

Lemma unused_count (used : Folder -> bool) (fs : folders) :
  List.length (filter (fun g => negb (used g)) fs)
  = List.length fs - List.length (filter used fs).
Proof.
  induction fs as [|x fs IH]; [reflexivity|].
  pose proof (filter_length_le used fs) as Hle.
  cbn [filter]. destruct (used x); cbn [negb List.length]; lia.
Qed.

Lemma used_again (used : Folder -> bool) (fs : folders) :
  filter used (filter used fs) = filter used fs.
Proof.
  induction fs as [|x fs IH]; [reflexivity|].
  simpl. destruct (used x) eqn:Hx; [|exact IH].
  simpl. rewrite Hx, IH. reflexivity.
Qed.

(** [cleanupEmptyFolders] deletes exactly the folder records that no
    shortcut is filed under (up to case), keeps the others in their order
    and returns the number of records it deleted; run again, it deletes
    nothing and returns 0.  (Folder names are stored trimmed.) *)
Theorem cleanupEmptyFolders_removes_unused (fs : folders) (st : Store.store) :
  Forall (fun folder => trim (name folder) = name folder) fs ->
  let used folder :=
    (0 <? List.length
            (ShortcutService.getShortcutsByFolder (name folder) st))%nat in
  cleanupEmptyFolders fs st
  = (filter used fs, List.length fs - List.length (filter used fs))
  /\ cleanupEmptyFolders (filter used fs) st = (filter used fs, 0).
Proof.
  intros Htrim used. split.
  - rewrite (cleanupEmptyFolders_result st fs Htrim). fold used. f_equal.
    apply unused_count.
  - rewrite cleanupEmptyFolders_result.
    + fold used. f_equal.
      * apply used_again.
      * rewrite unused_count, used_again. apply Nat.sub_diag.
    + rewrite Forall_forall in *. intros folder Hin.
      apply filter_In in Hin as [Hin _]. auto.
Qed.

Lemma cleanupEmptyFolders_removes_unused_witness :
  let fs := [ {| name := "Work"; folderCreatedAt := "2025-10-22T00:00:00Z" |};
              {| name := "old"; folderCreatedAt := "2025-10-22T00:00:00Z" |};
              {| name := "team"; folderCreatedAt := "2025-10-22T00:00:00Z" |} ] in
  let st := [Samples.shortcut "1" "work" "meet"] in
  Forall (fun folder => trim (name folder) = name folder) fs
  /\ cleanupEmptyFolders fs st
     = ([ {| name := "Work"; folderCreatedAt := "2025-10-22T00:00:00Z" |} ], 2).
Proof.
  intros fs st.
  assert (Htrim : Forall (fun folder => trim (name folder) = name folder) fs).
  { repeat (constructor; [reflexivity|]). constructor. }
  split; [exact Htrim|].
  exact (proj1 (cleanupEmptyFolders_removes_unused fs st Htrim)).
Defined.

(** A [renameFolder] of the folder service that succeeds for two names
    differing beyond case replaces the folder record: a record with the
    trimmed new name is stored, its creation time being the time read when
    it is added, and a record with the same name is returned, its creation
    time being the time read once more after the add (the two times may
    differ); no record is left under the trimmed old name, the other
    folder records are untouched, and no shortcut is listed under the old
    name any more. *)
Theorem renameFolder_replaces_record
        (urlProtocol : string -> option string)
        (oldName newName : string) (clock : nat -> string)
        (storedAt returnedAt : string) (fs fs' : folders)
        (st st' : Store.store) (result : option Folder) :
  caseInsensitiveEqual oldName newName = false ->
  renameFolder urlProtocol oldName newName clock storedAt returnedAt fs st
  = (fs', st', inl result) ->
  result = Some {| name := trim newName; folderCreatedAt := returnedAt |}
  /\ get (trim newName) fs'
     = Some {| name := trim newName; folderCreatedAt := storedAt |}
  /\ get (trim oldName) fs' = None
  /\ (forall k, k <> trim oldName -> k <> trim newName -> get k fs' = get k fs)
  /\ ShortcutService.getShortcutsByFolder oldName st' = []
  /\ (forall x, In x (ShortcutService.getShortcutsByFolder oldName st) ->
      exists x', Store.get (Store.id x) st' = Some x'
                 /\ Store.folder x' = trim newName).
Proof.
  intros Hdiff. unfold renameFolder.
  destruct (validateFolderName newName) as [|msg]; [|discriminate].
  assert (Hdiff' : caseInsensitiveEqual (trim oldName) (trim newName) = false).
  { unfold caseInsensitiveEqual in *. rewrite !trim_idem. exact Hdiff. }
  rewrite Hdiff'.
  destruct (getFolderByName (trim newName) fs); [discriminate|].
  destruct (ShortcutService.renameFolder _ _ _ _ _) as [st1 [n|e]] eqn:Hmove;
    [|discriminate].
  unfold add. cbn [name].
  destruct (get (trim newName) (delete (trim oldName) fs)) eqn:Hfree;
    [discriminate|].
  intros H. injection H as <- <- <-.
  apply (ServiceFacts.renameFolder_done _ _ _ _ _ _ _ Hdiff') in Hmove
    as (_ & Hempty & Hmoved & _).
  pose proof (trimmed_names_differ _ _ Hdiff) as Hne.
  assert (Hlist : forall s,
             ShortcutService.getShortcutsByFolder (trim oldName) s
             = ShortcutService.getShortcutsByFolder oldName s).
  { intros s. unfold ShortcutService.getShortcutsByFolder.
    rewrite trim_idem. reflexivity. }
  rewrite Hlist in Hempty. 
  split; [reflexivity|]. split.
  { exact (folder_get_insert_new
             {| name := trim newName; folderCreatedAt := storedAt |} _ Hfree). }
  split.
  { rewrite folder_get_insert_other by (cbn [name]; congruence).
    apply folder_get_delete_same. }
  split.
  { intros k Hold Hnew.
    rewrite folder_get_insert_other by (cbn [name]; congruence).
    apply folder_get_delete_other. exact Hold. }
  split; [exact Hempty|].
  intros x Hx. apply Hmoved. rewrite Hlist. exact Hx.
Qed.

Lemma renameFolder_replaces_record_witness :
  let fs := [ {| name := "work"; folderCreatedAt := "2025-10-22T00:00:00Z" |} ] in
  let st := [Samples.shortcut "1" "work" "meet"; Samples.shortcut "2" "team" "plan"] in
  let clock := Samples.at_time "2025-10-23T00:00:00Z" in
  let stored := {| name := "jobs"; folderCreatedAt := "2025-10-23T00:00:01Z" |} in
  let returned := {| name := "jobs"; folderCreatedAt := "2025-10-23T00:00:02Z" |} in
  let st' := snd (fst (renameFolder Samples.schemeOf "work" " jobs " clock
                         "2025-10-23T00:00:01Z" "2025-10-23T00:00:02Z"
                         fs st)) in
  caseInsensitiveEqual "work" " jobs " = false
  /\ renameFolder Samples.schemeOf "work" " jobs " clock
       "2025-10-23T00:00:01Z" "2025-10-23T00:00:02Z" fs st
     = ([stored], st', inl (Some returned))
  /\ get "jobs" [stored] = Some stored
  /\ get "work" [stored] = None
  /\ ShortcutService.getShortcutsByFolder "work" st' = [].
Proof.
  intros fs st clock stored returned st'.
  assert (Hrun : renameFolder Samples.schemeOf "work" " jobs " clock
                   "2025-10-23T00:00:01Z" "2025-10-23T00:00:02Z" fs st
                 = ([stored], st', inl (Some returned)))
    by (vm_compute; reflexivity).
  split; [reflexivity|]. split; [exact Hrun|].
  destruct (renameFolder_replaces_record Samples.schemeOf "work" " jobs "
              clock "2025-10-23T00:00:01Z" "2025-10-23T00:00:02Z"
              fs [stored] st st' (Some returned)
              eq_refl Hrun) as (_ & Hstored & Hgone & _ & Hempty & _).
  split; [exact Hstored|]. split; [exact Hgone | exact Hempty].
Defined.

End FolderFacts.

(** ** useSearchData.js: the size of the result cache *)

Module CacheFacts.
Import JsString Store JsStringFacts JsArray JsArrayFacts.
Import SearchData CacheKeys.

Lemma plain_key_eq (k : string) (v : list Shortcut) :
  plain_key (k, v)
  = match array_index k with Some _ => false | None => true end.
Proof. reflexivity. Qed.

Lemma set_new (k : string) (v : list Shortcut) (c : cache) :
  own k c = None -> set k v c = c ++ [(k, v)].
Proof.
  induction c as [|[k' v'] c IH]; simpl; [reflexivity|].
  destruct (String.eqb k' k); [discriminate|].
  intros H. rewrite (IH H). reflexivity.
Qed.

Lemma index_keys_length (c : cache) :
  List.length (index_keys c) + List.length (filter plain_key c)
  = List.length c.
Proof.
  induction c as [|[k v] c IH]; [reflexivity|].
  cbn [index_keys filter]. rewrite (plain_key_eq k v).
  destruct (array_index k); cbn [List.length]; lia.
Qed.

Lemma keys_length (c : cache) : List.length (keys c) = List.length c.
Proof.
  unfold keys. fold plain_key.
  rewrite length_app, !length_map, sort_length. apply index_keys_length.
Qed.

Lemma index_keys_In (n : N) (k : string) (c : cache) :
  In (n, k) (index_keys c) -> In k (map fst c).
Proof.
  induction c as [|[k' v] c IH]; simpl; [tauto|].
  destruct (array_index k'); [|auto].
  intros [E|H]; [left; congruence | auto].
Qed.

Lemma keys_In (k : string) (c : cache) : In k (keys c) -> In k (map fst c).
Proof.
  unfold keys. intros H. apply in_app_iff in H as [H|H].
  - apply in_map_iff in H as ([n k'] & <- & H).
    apply (Permutation_in _ (sort_perm index_cmp (index_keys c))) in H.
    apply (index_keys_In n), H.
  - apply in_map_iff in H as (kv & <- & H).
    apply filter_In in H as [H _]. apply in_map, H.
Qed.

Lemma remove_shrinks (k : string) (c : cache) :
  In k (map fst c) -> List.length (remove k c) < List.length c.
Proof.
  unfold remove. induction c as [|[k' v] c IH]; simpl; [tauto|].
  pose proof (filter_length_le
                (fun kv : string * list Shortcut =>
                   negb (String.eqb (fst kv) k)) c) as Hle.
  destruct (String.eqb k' k) eqn:E; simpl; [lia|].
  intros [->|H]; [rewrite String.eqb_refl in E; discriminate|].
  specialize (IH H). lia.
Qed.

Lemma remove_absent (k : string) (c : cache) :
  own k c = None -> remove k c = c.
Proof.
  unfold remove. induction c as [|[k' v] c IH]; simpl; [reflexivity|].
  destruct (String.eqb k' k); [discriminate|].
  intros H. simpl. rewrite (IH H). reflexivity.
Qed.

Lemma own_app_new (k k' : string) (v : list Shortcut) (c : cache) :
  own k c = None -> k' <> k -> own k (c ++ [(k', v)]) = None.
Proof.
  intros Hc Hne. induction c as [|[k0 v0] c IH]; simpl in *.
  - apply String.eqb_neq in Hne. rewrite Hne. reflexivity.
  - destruct (String.eqb k0 k); [discriminate | auto].
Qed.

Lemma plain_keys_only (c : cache) :
  List.forallb plain_key c = true -> index_keys c = [] /\ filter plain_key c = c.
Proof.
  induction c as [|[k v] c IH]; [auto|].
  cbn [List.forallb index_keys filter]. intros H.
  apply andb_true_iff in H as [Hk Hc]. rewrite Hk.
  rewrite plain_key_eq in Hk.
  destruct (array_index k); [discriminate|].
  destruct (IH Hc) as [-> ->]. auto.
Qed.

Lemma index_keys_app (c d : cache) :
  index_keys (c ++ d) = index_keys c ++ index_keys d.
Proof.
  induction c as [|[k v] c IH]; [reflexivity|].
  cbn [index_keys app]. rewrite IH. destruct (array_index k); reflexivity.
Qed.

Lemma performSearch_bounded (query : string) (st : store) (c : cache) :
  List.length c <= 50 ->
  List.length (fst (performSearch query st c)) <= 50.
Proof.
  intros Hc. unfold performSearch.
  case_branch; [exact Hc|].
  destruct (lookup (toLowerCase (trim query)) c) eqn:Hlook; [exact Hc|].
  cbn [fst]. unfold lookup in Hlook.
  destruct (own (toLowerCase (trim query)) c) eqn:Hown; [discriminate|].
  rewrite (set_new _ _ _ Hown), keys_length.
  set (c1 := c ++ [(toLowerCase (trim query),
                    ShortcutService.searchShortcuts query st)]).
  assert (Hlen : List.length c1 = List.length c + 1).
  { unfold c1. rewrite length_app. reflexivity. }
  destruct (Nat.ltb_spec 50 (List.length c1)) as [Hfull|Hroom]; [|exact Hroom].
  pose proof (keys_length c1) as Hkeys.
  pose proof (keys_In) as Hin.
  destruct (keys c1) as [|k0 others] eqn:Hk; [simpl in Hkeys; lia|].
  assert (Hk0 : In k0 (map fst c1)).
  { apply Hin. rewrite Hk. left. reflexivity. }
  pose proof (remove_shrinks k0 c1 Hk0). lia.
Qed.

(** However many searches are issued, against whatever stores, the result
    cache that started empty never holds more than 50 entries once a search
    has returned. *)
Theorem cache_holds_at_most_50 (calls : list (string * store)) :
  List.length
    (fold_left (fun c call => fst (performSearch (fst call) (snd call) c))
               calls [])
  <= 50.
Proof.
  assert (Hgen : forall c, List.length c <= 50 ->
            List.length
              (fold_left
                 (fun c call => fst (performSearch (fst call) (snd call) c))
                 calls c) <= 50).
  { induction calls as [|[query st] calls IH]; intros c Hc; cbn [fold_left];
      [exact Hc|].
    apply IH. cbn [fst snd]. apply performSearch_bounded, Hc. }
  apply Hgen. cbn. lia.
Qed.

(** With 50 cached queries, none of them a canonical array index, a new
    query evicts the oldest entry, unless the new query is itself a
    canonical array index (such as [7]): then its own result is the entry
    deleted, and the cache is left as it was. *)
Theorem performSearch_eviction_when_full
        (query : string) (st : store)
        (oldest : string) (v0 : list Shortcut) (rest : cache) :
  let c := (oldest, v0) :: rest in
  let q := toLowerCase (trim query) in
  let results := ShortcutService.searchShortcuts query st in
  trim query <> EmptyString ->
  List.length c = 50 ->
  List.forallb plain_key c = true ->
  own oldest rest = None ->
  lookup q c = None ->
  performSearch query st c
  = (match array_index q with
     | Some _ => c
     | None => rest ++ [(q, results)]
     end, Results results).
Proof.
  intros c q results Hne Hlen Hplain Hfirst Hlook.
  unfold performSearch.
  assert (Hq : is_empty query = false).
  { destruct query; [exfalso; apply Hne; reflexivity | reflexivity]. }
  rewrite Hq, <- is_empty_length.
  apply is_empty_false in Hne. rewrite Hne. cbn [orb].
  fold q. rewrite Hlook. fold results.
  unfold lookup in Hlook.
  destruct (own q c) eqn:Hown; [discriminate|]. clear Hlook.
  rewrite (set_new _ _ _ Hown), keys_length, length_app, Hlen.
  cbn [List.length Nat.add Nat.ltb Nat.leb]. f_equal.
  destruct (plain_keys_only c Hplain) as [Hidx Hall].
  unfold keys. fold plain_key.
  rewrite index_keys_app, Hidx, filter_app, Hall.
  cbn [app index_keys filter plain_key fst].
  destruct (array_index q) as [n|] eqn:Hindex.
  - cbn [sort insert map app snd].
    unfold remove. rewrite filter_app. cbn [filter fst].
    rewrite String.eqb_refl. cbn [negb]. rewrite app_nil_r.
    apply (remove_absent q c Hown).
  - cbn [sort map app]. unfold c. cbn [map fst app].
    unfold remove. cbn [filter fst app]. rewrite String.eqb_refl. cbn [negb].
    rewrite filter_app. cbn [filter fst].
    unfold c in Hown. cbn [own] in Hown.
    destruct (String.eqb oldest q) eqn:E; [discriminate|].
    rewrite (String.eqb_sym q oldest), E. cbn [negb].
    f_equal. apply (remove_absent oldest rest Hfirst).
Qed.

Lemma performSearch_eviction_when_full_witness :
  let entry n := (string_of_list_ascii (repeat "a"%char (S n)),
                  @nil Shortcut) in
  let rest := map entry (seq 1 49) in
  let c := ("a", []) :: rest in
  trim " 7 " <> EmptyString
  /\ List.length c = 50
  /\ List.forallb plain_key c = true
  /\ own "a" rest = None
  /\ lookup "7" c = None
  /\ fst (performSearch " 7 " [Samples.shortcut "1" "" "7up"] c) = c
  /\ snd (performSearch " 7 " [Samples.shortcut "1" "" "7up"] c)
     = Results [Samples.shortcut "1" "" "7up"].
Proof.
  intros entry rest c.
  assert (Hne : trim " 7 " <> EmptyString) by discriminate.
  split; [exact Hne|].
  split; [reflexivity|]. split; [reflexivity|]. split; [reflexivity|].
  split; [reflexivity|].
  pose proof (performSearch_eviction_when_full " 7 "
                [Samples.shortcut "1" "" "7up"] "a" [] rest
                Hne eq_refl eq_refl eq_refl eq_refl) as Hrun.
  unfold c. rewrite Hrun. split; reflexivity.
Defined.

End CacheFacts.

(** ** useDebouncedSearch.js: what the popup keeps and how it orders it *)

Module PopupFacts.
Import JsString Store JsStringFacts JsArray JsArrayFacts.
Import DebouncedSearch.

Lemma string_leb_trans (a b c : string) :
  String.leb a b = true -> String.leb b c = true -> String.leb a c = true.
Proof.
  unfold String.leb. revert b c.
  induction a as [|x a IH]; intros [|y b] [|z c]; simpl; try congruence.
  unfold Ascii.compare.
  destruct (N.compare_spec (N_of_ascii x) (N_of_ascii y)) as [Exy|Lxy|Gxy];
    destruct (N.compare_spec (N_of_ascii y) (N_of_ascii z)) as [Eyz|Lyz|Gyz];
    destruct (N.compare_spec (N_of_ascii x) (N_of_ascii z)) as [Exz|Lxz|Gxz];
    try congruence; try lia; apply IH.
Qed.

Lemma default_cmp_leb_iff (a b : string) :
  (default_cmp a b <= 0)%Z <-> String.leb a b = true.
Proof.
  unfold default_cmp, String.leb.
  destruct (String.compare a b); split; intros H;
    first [reflexivity | lia | discriminate H].
Qed.

Lemma collate_trans (x y z : string) :
  (Samples.collate x y <= 0)%Z -> (Samples.collate y z <= 0)%Z ->
  (Samples.collate x z <= 0)%Z.
Proof.
  unfold Samples.collate. rewrite !default_cmp_leb_iff.
  apply string_leb_trans.
Qed.

Section WithCollation.
Variable localeCompare : string -> string -> Z.
Hypothesis localeCompare_trans :
  forall x y z,
    (localeCompare x y <= 0)%Z -> (localeCompare y z <= 0)%Z ->
    (localeCompare x z <= 0)%Z.

Lemma defaultSortFunction_order (query : string) (a b : Shortcut) :
  is_empty (trim query) = false ->
  (defaultSortFunction localeCompare query a b <= 0)%Z
  <-> (getMatchScore (toLowerCase query) b
       < getMatchScore (toLowerCase query) a)%Z
      \/ (getMatchScore (toLowerCase query) a
          = getMatchScore (toLowerCase query) b
          /\ (localeCompare (toLowerCase (alias a)) (toLowerCase (alias b))
              <= 0)%Z).
Proof.
  intros Hq. unfold defaultSortFunction. rewrite Hq. cbv zeta.
  destruct (Z.eqb_spec (getMatchScore (toLowerCase query) a)
                       (getMatchScore (toLowerCase query) b)) as [E|N];
    cbn [negb]; split; intros H.
  - right. split; assumption.
  - destruct H as [H|[_ H]]; [lia | exact H].
  - left. lia.
  - destruct H as [H|[H _]]; [lia | contradiction].
Qed.

Lemma defaultSortFunction_trans (query : string) (a b c : Shortcut) :
  (defaultSortFunction localeCompare query a b <= 0)%Z ->
  (defaultSortFunction localeCompare query b c <= 0)%Z ->
  (defaultSortFunction localeCompare query a c <= 0)%Z.
Proof.
  destruct (is_empty (trim query)) eqn:Hq.
  - unfold defaultSortFunction. rewrite Hq. lia.
  - rewrite !(defaultSortFunction_order query _ _ Hq).
    intros [Hab|[Eab Lab]] [Hbc|[Ebc Lbc]]; try (left; lia).
    right. split; [congruence|].
    apply (localeCompare_trans _ _ _ Lab Lbc).
Qed.

End WithCollation.

Lemma strongly_sorted_weaken {A} (R R' : A -> A -> Prop) (l : list A) :
  (forall a b, R a b -> R' a b) ->
  StronglySorted R l -> StronglySorted R' l.
Proof.
  intros Himp Hs. induction Hs as [|a l Hs IH Hall]; constructor; [exact IH|].
  rewrite Forall_forall in *. auto.
Qed.

(** A field contributes to the score exactly when it holds the query. *)
Lemma includes_self (s : string) : includes s s = true.
Proof.
  assert (Hp : prefix s s = true).
  { induction s as [|c s IH]; [reflexivity|].
    simpl. destruct (ascii_dec c c) as [_|N]; [exact IH | congruence]. }
  destruct s; cbn [includes]; rewrite Hp; reflexivity.
Qed.

Lemma prefix_includes (needle hay : string) :
  prefix needle hay = true -> includes hay needle = true.
Proof. intros H. destruct hay; cbn [includes]; rewrite H; reflexivity. Qed.

Lemma nothing_in_empty (needle : string) :
  is_empty needle = false ->
  String.eqb EmptyString needle = false
  /\ prefix needle EmptyString = false
  /\ includes EmptyString needle = false.
Proof. destruct needle; [discriminate|]. intros _. repeat split. Qed.

Section Scores.
Variable searchText : string.
Hypothesis searchText_ne : is_empty searchText = false.

(** The step of [searchFields.forEach] in [getMatchScore]. *)
Let step (score : Z) (fieldValue : option string) : Z :=
  let searchableValue :=
    toLowerCase (ShortcutService.or_else fieldValue EmptyString) in
  if String.eqb searchableValue searchText then (score + 100)%Z
  else if prefix searchText searchableValue then (score + 50)%Z
  else if includes searchableValue searchText then (score + 25)%Z
  else score.

(** The test of [searchFields.some] in [defaultSearchFunction]. *)
Let hit (fieldValue : option string) : bool :=
  match fieldValue with
  | None => false
  | Some valueToSearch => includes (toLowerCase valueToSearch) searchText
  end.

Lemma step_hit (score : Z) (fieldValue : option string) :
  (hit fieldValue = true /\ (score + 25 <= step score fieldValue)%Z)
  \/ (hit fieldValue = false /\ step score fieldValue = score).
Proof.
  unfold step, hit. destruct fieldValue as [v|]; cbn [ShortcutService.or_else].
  - destruct (String.eqb (toLowerCase v) searchText) eqn:E.
    + apply String.eqb_eq in E. rewrite E, includes_self. left. split; [auto|lia].
    + destruct (prefix searchText (toLowerCase v)) eqn:P.
      * rewrite (prefix_includes _ _ P). left. split; [auto|lia].
      * destruct (includes (toLowerCase v) searchText);
          [left; split; [auto|lia] | right; auto].
  - cbn [toLowerCase].
    destruct (nothing_in_empty searchText searchText_ne) as (H1 & H2 & H3).
    rewrite H1, H2, H3. right. auto.
Qed.

Lemma fold_step_hit (fields : list (option string)) (score : Z) :
  (score <= fold_left step fields score)%Z
  /\ (existsb hit fields = true ->
      (score + 25 <= fold_left step fields score)%Z)
  /\ (existsb hit fields = false -> fold_left step fields score = score).
Proof.
  revert score. induction fields as [|f fields IH]; intros score; cbn.
  - split; [lia|]. split; [discriminate | reflexivity].
  - destruct (IH (step score f)) as (Hmono & Hyes & Hno).
    destruct (step_hit score f) as [[Hf Hs]|[Hf Hs]]; rewrite Hf; cbn [orb].
    + split; [lia|]. split; [intros _; lia | discriminate].
    + rewrite Hs in *. auto.
Qed.

End Scores.

(** For a query that is not blank, the popup shows the items that pass
    the filter, ordered by match score, highest first, and among equal
    scores in the order that the host's [localeCompare] gives their
    lower-cased aliases.  The collation is the host's: all that is asked
    of it is that it compares any two strings one way or the other and
    that its order is transitive. *)
Theorem filteredItems_ranked
        (localeCompare : string -> string -> Z)
        (items : list Shortcut) (query : string) :
  (forall x y, (0 < localeCompare x y)%Z -> (localeCompare y x <= 0)%Z) ->
  (forall x y z,
      (localeCompare x y <= 0)%Z -> (localeCompare y z <= 0)%Z ->
      (localeCompare x z <= 0)%Z) ->
  is_empty (trim query) = false ->
  let score := getMatchScore (toLowerCase query) in
  Permutation (filteredItems localeCompare items query)
    (filter (fun item => defaultSearchFunction item query) items)
  /\ StronglySorted
       (fun a b =>
          (score b < score a)%Z
          \/ (score a = score b
              /\ (localeCompare (toLowerCase (alias a))
                                (toLowerCase (alias b)) <= 0)%Z))
       (filteredItems localeCompare items query).
Proof.
  intros Htotal Htrans Hq score. unfold filteredItems. rewrite Hq. cbv zeta.
  split; [apply sort_perm|].
  apply (strongly_sorted_weaken
           (ordered (defaultSortFunction localeCompare query))).
  - intros a b Hab.
    apply (defaultSortFunction_order localeCompare query a b Hq), Hab.
  - apply sort_strongly_sorted.
    + intros a b.
      apply FolderListingClaims.defaultSortFunction_total, Htotal.
    + apply defaultSortFunction_trans, Htrans.
Qed.

Lemma filteredItems_ranked_witness :
  let items := [Samples.shortcut "1" "home" "network";
                Samples.shortcut "2" "work" "zeta";
                Samples.shortcut "3" "work" "a-b";
                Samples.shortcut "4" "home" "mail";
                Samples.shortcut "5" "work" "a_b"] in
  (forall x y, (0 < Samples.collate x y)%Z -> (Samples.collate y x <= 0)%Z)
  /\ (forall x y z,
        (Samples.collate x y <= 0)%Z -> (Samples.collate y z <= 0)%Z ->
        (Samples.collate x z <= 0)%Z)
  /\ is_empty (trim "Work") = false
  /\ filteredItems Samples.collate items "Work"
     = [Samples.shortcut "5" "work" "a_b"; Samples.shortcut "3" "work" "a-b";
        Samples.shortcut "2" "work" "zeta";
        Samples.shortcut "1" "home" "network"]
  /\ StronglySorted
       (fun a b =>
          (getMatchScore "work" b < getMatchScore "work" a)%Z
          \/ (getMatchScore "work" a = getMatchScore "work" b
              /\ (Samples.collate (toLowerCase (alias a))
                                  (toLowerCase (alias b)) <= 0)%Z))
       (filteredItems Samples.collate items "Work").
Proof.
  intros items.
  split; [exact FolderListingClaims.collate_total|].
  split; [exact collate_trans|].
  split; [reflexivity|]. split; [reflexivity|].
  exact (proj2 (filteredItems_ranked Samples.collate items "Work"
                  FolderListingClaims.collate_total collate_trans eq_refl)).
Defined.

Lemma query_text_not_empty (query : string) :
  is_empty (trim query) = false -> is_empty (toLowerCase query) = false.
Proof.
  intros H. destruct query; [discriminate H | reflexivity].
Qed.

(** An item that the popup filter keeps has a match score of at least 25;
    for a query without ['/'] the filter keeps exactly the items with a
    positive score. *)
Theorem defaultSearchFunction_keeps_scored (item : Shortcut) (query : string) :
  is_empty (trim query) = false ->
  (defaultSearchFunction item query = true ->
   (25 <= getMatchScore (toLowerCase query) item)%Z)
  /\ (includes (toLowerCase query) "/" = false ->
      (0 < getMatchScore (toLowerCase query) item)%Z ->
      defaultSearchFunction item query = true).
Proof.
  intros Hq. unfold defaultSearchFunction, getMatchScore. rewrite Hq.
  cbv zeta.
  destruct (includes (toLowerCase query) "/") eqn:Hslash.
  - split; [|discriminate].
    destruct (split2 (toLowerCase query)) as [folderPart aliasPart].
    set (aliasScore := if missing aliasPart then 0%Z else _).
    assert (Halias : (0 <= aliasScore)%Z).
    { unfold aliasScore. repeat case_branch; lia. }
    intros Hkept.
    assert (Hfolder : includes (toLowerCase (folder item)) folderPart = true).
    { destruct (missing aliasPart); [exact Hkept|].
      apply andb_true_iff in Hkept as [H _]. exact H. }
    rewrite Hfolder. case_branch; lia.
  - pose proof (fold_step_hit (toLowerCase query)
                  (query_text_not_empty query Hq) (field_values item) 0)
      as Hfold.
    cbv zeta in Hfold. destruct Hfold as (_ & Hyes & Hno).
    split.
    + intros Hkept. exact (Hyes Hkept).
    + intros _ Hscore.
      match goal with |- ?kept = true => destruct kept eqn:Hkept end;
        [reflexivity|].
      exfalso. pose proof (Hno eq_refl) as Hzero.
      rewrite Hzero in Hscore. lia.
Qed.

Lemma defaultSearchFunction_keeps_scored_witness :
  is_empty (trim "Work") = false
  /\ defaultSearchFunction (Samples.shortcut "2" "work" "zeta") "Work" = true
  /\ (25 <= getMatchScore "work" (Samples.shortcut "2" "work" "zeta"))%Z.
Proof.
  split; [reflexivity|]. split; [reflexivity|].
  exact (proj1 (defaultSearchFunction_keeps_scored
                  (Samples.shortcut "2" "work" "zeta") "Work" eq_refl)
               eq_refl).
Defined.

End PopupFacts.

(** ** shortcutService.js: finding what was created *)

Module LookupFacts.
Import JsString Validators Store ShortcutValidation ShortcutService.
Import JsStringFacts ValidatorFacts StoreFacts KeyFacts JsArray JsArrayFacts.
Import Spec ShortcutAccess.

Lemma find_the_only {A} (p : A -> bool) (l : list A) (x : A) :
  In x l -> p x = true -> (forall y, In y l -> p y = true -> y = x) ->
  find p l = Some x.
Proof.
  intros Hin Hp Honly. destruct (find p l) as [y|] eqn:Hfind.
  - apply find_some in Hfind as [Hy Hpy]. f_equal. auto.
  - exfalso. pose proof (find_none p l Hfind x Hin) as Hno. congruence.
Qed.

Lemma created_folder_normalize (f : string) :
  normalize (if is_empty f then EmptyString else trim f) = normalize f.
Proof.
  destruct (is_empty f) eqn:Ef; [|apply normalize_trim].
  apply is_empty_true in Ef. subst f. reflexivity.
Qed.

Lemma valid_tags_stored_trimmed (input : tags_input) (result : list string)
      (t : string) :
  validateTags input = TagsValid result -> In t result ->
  trim t = t /\ is_empty t = false.
Proof.
  intros Hvalid Ht.
  destruct (TagFacts.validateTags_shape input result Hvalid)
    as (_ & _ & Hin & _).
  pose proof (TagFacts.entries_trimmed input) as Hall.
  rewrite Forall_forall in Hall.
  destruct (Hall t (proj1 (Hin t) Ht)) as [Htrim Hne].
  split; [exact Htrim|]. unfold non_empty in Hne.
  destruct t; [discriminate Hne | reflexivity].
Qed.

(** A shortcut that [createShortcut] has stored is found again: under its
    id; by its folder and alias in any letter case and outer spacing; in
    the listing of its folder; under each of its tags; and a lookup by its
    URL finds a shortcut with that URL. *)
Theorem createShortcut_then_found
        (urlProtocol : string -> option string)
        (data : draft) (newId now : string) (st st' : store)
        (created : Shortcut) :
  createShortcut urlProtocol data newId now st = (st', inl created) ->
  get newId st' = Some created
  /\ (forall f a,
        normalize f = normalize (d_folder data) ->
        normalize a = normalize (d_alias data) ->
        getShortcutByFullAlias f a st' = Some created)
  /\ In created (getShortcutsByFolder (d_folder data) st')
  /\ (forall t, In t (tags created) -> In created (getShortcutsByTag t st'))
  /\ (exists x, getShortcutByUrl (d_url data) st' = Some x
                /\ toLowerCase (url x) = toLowerCase (trim (d_url data))).
Proof.
  unfold createShortcut.
  destruct (validateShortcut urlProtocol data) as [validTags|errors] eqn:Hval;
    [|discriminate].
  apply NamespaceClaims.validateShortcut_inl in Hval as (Hurl & _ & _ & Htags).
  destruct (getShortcutByFullAlias _ _ st) eqn:Hnone; [discriminate|].
  unfold add. cbn [id]. destruct (get newId st) eqn:Hfresh; [discriminate|].
  intros H. injection H as <- <-.
  set (created := {| id := newId; url := trim (d_url data) |}).
  assert (Hin : In created (insert_ordered created st))
    by (apply In_insert_ordered; auto).
  assert (Hf : normalize (folder created) = normalize (d_folder data))
    by apply created_folder_normalize.
  assert (Ha : normalize (alias created) = normalize (d_alias data))
    by apply normalize_trim.
  split; [exact (get_insert_same created st Hfresh)|].
  split; [|split; [|split]].
  - intros f a Ef Ea. unfold getShortcutByFullAlias, getAll.
    apply find_the_only; [exact Hin | |].
    + fold (normalize (folder created)) (normalize (alias created))
        (normalize f) (normalize a).
      rewrite Hf, Ha, Ef, Ea, !String.eqb_refl. reflexivity.
    + intros y Hy Hp. apply In_insert_ordered in Hy as [Hy|Hy]; [exact Hy|].
      exfalso. apply andb_true_iff in Hp as [Hpf Hpa].
      apply String.eqb_eq in Hpf, Hpa.
      apply (getShortcutByFullAlias_None _ _ _ Hnone y Hy).
      unfold normalize in *. split; congruence.
  - apply ServiceFacts.getShortcutsByFolder_In. auto.
  - intros t Ht. cbn [tags created] in Ht.
    destruct (valid_tags_stored_trimmed _ _ t Htags Ht) as [Htrim Hne].
    unfold getShortcutsByTag, getAll. rewrite Hne.
    apply filter_In. split; [exact Hin|].
    apply existsb_exists. exists t. split; [exact Ht|].
    rewrite Htrim. apply String.eqb_refl.
  - unfold getShortcutByUrl, getAll.
    assert (Hne : is_empty (d_url data) = false).
    { unfold validateUrl in Hurl.
      destruct (is_empty (d_url data)); [discriminate | reflexivity]. }
    rewrite Hne.
    destruct (find _ (insert_ordered created st)) as [x|] eqn:Hfind.
    + apply find_some in Hfind as [_ Hx]. apply String.eqb_eq in Hx.
      exists x. auto.
    + exfalso. pose proof (find_none _ _ Hfind created Hin) as Hno.
      cbn [url created] in Hno. rewrite String.eqb_refl in Hno.
      discriminate.
Qed.

Lemma createShortcut_then_found_witness :
  let st := [Samples.shortcut "1" "work" "meet"] in
  let data := {| d_url := " https://Example.com/Docs "; d_alias := "docs";
                 d_folder := "Team"; d_tags := TagsString "wiki, howto" |} in
  let run := createShortcut Samples.schemeOf data "2" "2025-10-23T00:00:00Z" st in
  exists created,
    run = (fst run, inl created)
    /\ getShortcutByFullAlias " team" "DOCS" (fst run) = Some created
    /\ In created (getShortcutsByTag "Wiki " (fst run)).
Proof.
  intros st data run.
  assert (Hrun : exists created, run = (fst run, inl created)).
  { vm_compute. eexists. reflexivity. }
  destruct Hrun as [created Hrun]. exists created.
  destruct (createShortcut_then_found Samples.schemeOf data "2"
              "2025-10-23T00:00:00Z" st (fst run) created Hrun)
    as (_ & Hfull & _ & Htag & _).
  split; [exact Hrun|]. split.
  - apply Hfull; reflexivity.
  - assert (Hstored : In "wiki" (tags created)).
    { assert (E : snd run = inl created) by (rewrite Hrun; reflexivity).
      vm_compute in E. injection E as <-. right. left. reflexivity. }
    exact (Htag "wiki" Hstored).
Defined.

End LookupFacts.

(** ** shortcutService.js: what a bulk operation does to each id *)

Module BulkFacts.
Import JsString Validators Store ShortcutValidation ShortcutService.
Import JsStringFacts ValidatorFacts StoreFacts UpdateFacts JsArray JsArrayFacts.
Import ShortcutAccess BulkSpec.

Section WithUrlParser.
Variable urlProtocol : string -> option string.

(** The record stored by a successful update. *)
Lemma updateShortcut_stored (k : string) (updates : patch) (now : string)
      (st st' : store) (stored : Shortcut) :
  updateShortcut urlProtocol k updates now st = (st', inl stored) ->
  exists existing,
    get k st = Some existing
    /\ st' = put stored st
    /\ id stored = or_else (p_id updates) k
    /\ alias stored = or_else (p_alias updates) (alias existing)
    /\ folder stored = merged_folder existing updates
    /\ validateTags (merged_tags existing updates) = TagsValid (tags stored).
Proof.
  unfold updateShortcut.
  destruct (get k st) as [existing|] eqn:Hget; [|discriminate].
  destruct (validateShortcut _ _) as [validTags|errors] eqn:Hval; [|discriminate].
  case_branch; [discriminate|].
  intros H. injection H as <- <-. exists existing.
  apply NamespaceClaims.validateShortcut_inl in Hval as (_ & _ & _ & Htags).
  cbn [as_draft d_tags] in Htags. cbn [id alias folder tags merge].
  repeat split; try reflexivity;
    [rewrite (get_id _ _ _ Hget); reflexivity | exact Htags].
Qed.

Lemma move_patch_no_id (operationData : option string) :
  p_id (move_patch operationData) = None.
Proof. destruct operationData; reflexivity. Qed.

Lemma move_patch_folder (operationData : option string) (s : Shortcut) :
  merged_folder s (move_patch operationData)
  = match operationData with
    | Some folderName => folderName
    | None => EmptyString
    end.
Proof. destruct operationData; reflexivity. Qed.

Lemma move_patch_tags (operationData : option string) (s : Shortcut) :
  merged_tags s (move_patch operationData) = TagsArray (tags s).
Proof. destruct operationData; reflexivity. Qed.

Lemma entries_of_dedupe (l : list string) (t : string) :
  In t (tag_entries (TagsArray (dedupe [] l)))
  <-> In t (tag_entries (TagsArray l)).
Proof.
  cbn [tag_entries]. rewrite !filter_In, !in_map_iff.
  split; intros [(x & Hx & Hin) Hne]; (split; [|exact Hne]); exists x;
    (split; [exact Hx|]).
  - apply TagFacts.In_dedupe in Hin. tauto.
  - apply TagFacts.In_dedupe. cbn. tauto.
Qed.

(** One turn of the loop on a stored shortcut: it is recorded as failed, or
    the operation has been applied to it. *)
Lemma bulkStep_effect (op : bulk) (clock : nat -> string) (k : string)
      (st : store) (r : bulk_results) (s : Shortcut) :
  get k st = Some s ->
  (exists f, In (k, f) (errors (snd (bulkStep urlProtocol op clock k (st, r)))))
  \/ applied op s (get k (fst (bulkStep urlProtocol op clock k (st, r)))).
Proof.
  intros Hget. unfold bulkStep. rewrite Hget.
  assert (Hfailed : forall why (st1 : store),
             exists f, In (k, f) (errors (snd (st1, one_more_failed k why r)))).
  { intros why st1. exists why. cbn. apply in_app_iff. right. left. reflexivity. }
  set (now := clock (updated r)).
  assert (Hupdate : forall updates,
             p_id updates = None ->
             match updateShortcut urlProtocol k updates now st with
             | (st1, inl _) =>
                 exists s', get k st1 = Some s'
                   /\ alias s' = or_else (p_alias updates) (alias s)
                   /\ folder s' = merged_folder s updates
                   /\ validateTags (merged_tags s updates) = TagsValid (tags s')
             | (_, inr _) => True
             end).
  { intros updates Hnoid.
    destruct (updateShortcut urlProtocol k updates now st) as [st1 [stored|e]] eqn:Hup;
      [|exact I].
    apply updateShortcut_stored in Hup
      as (existing & Hex & -> & Hid & Ha & Hf & Ht).
    rewrite Hget in Hex. injection Hex as <-.
    rewrite Hnoid in Hid. cbn [or_else] in Hid.
    exists stored. rewrite <- Hid, get_put_same. auto. }
  destruct op as [|newTags|tag|operationData|other]; cbn [applied].
  - right. cbn [fst deleteShortcut]. apply get_delete_same.
  - specialize (Hupdate (tags_patch (dedupe [] (tags s ++ newTags)))
                        eq_refl).
    destruct (updateShortcut _ _ _ _ _) as [st1 [stored|e]]; [|left; apply Hfailed].
    right. cbn [fst]. destruct Hupdate as (s' & Hs' & Ha & Hf & Ht).
    exists s'. split; [exact Hs'|]. split; [exact Hf|]. split; [exact Ha|].
    intros t. cbn [merged_tags tags_patch p_tags or_else] in Ht.
    destruct (TagFacts.validateTags_shape _ _ Ht) as (_ & _ & Hin & _).
    rewrite Hin. apply entries_of_dedupe.
  - specialize (Hupdate (tags_patch
                           (filter (fun t => negb (String.eqb t tag)) (tags s)))
                        eq_refl).
    destruct (updateShortcut _ _ _ _ _) as [st1 [stored|e]]; [|left; apply Hfailed].
    right. cbn [fst]. destruct Hupdate as (s' & Hs' & Ha & Hf & Ht).
    exists s'. split; [exact Hs'|]. split; [exact Hf|]. split; [exact Ha|].
    cbn [merged_tags tags_patch p_tags or_else] in Ht.
    destruct (TagFacts.validateTags_shape _ _ Ht) as (_ & _ & Hin & _).
    exact Hin.
  - specialize (Hupdate (move_patch operationData)
                        (move_patch_no_id operationData)).
    destruct (updateShortcut _ _ _ _ _) as [st1 [stored|e]]; [|left; apply Hfailed].
    right. cbn [fst]. destruct Hupdate as (s' & Hs' & Ha & Hf & Ht).
    rewrite move_patch_folder in Hf. rewrite move_patch_tags in Ht.
    assert (Halias : alias s' = alias s).
    { rewrite Ha. destruct operationData; reflexivity. }
    exists s'. split; [exact Hs'|]. split; [exact Hf|]. split; [exact Halias|].
    destruct (TagFacts.validateTags_shape _ _ Ht) as (_ & _ & Hin & _).
    exact Hin.
  - left. apply Hfailed.
Qed.

Lemma bulkStep_missing (op : bulk) (clock : nat -> string) (k : string)
      (st : store) (r : bulk_results) :
  get k st = None ->
  exists f, In (k, f) (errors (snd (bulkStep urlProtocol op clock k (st, r)))).
Proof.
  intros Hget. unfold bulkStep. rewrite Hget. exists MissingShortcut.
  cbn. apply in_app_iff. right. left. reflexivity.
Qed.

(** One turn of the loop touches the record under its id only and drops no
    error entry. *)
Lemma bulkStep_frame (op : bulk) (clock : nat -> string) (k : string)
      (st : store) (r : bulk_results) :
  (forall k', k' <> k ->
     get k' (fst (bulkStep urlProtocol op clock k (st, r))) = get k' st)
  /\ (forall e, In e (errors r) ->
        In e (errors (snd (bulkStep urlProtocol op clock k (st, r))))).
Proof.
  unfold bulkStep. set (now := clock (updated r)).
  assert (Hfail : forall why,
             (forall k', k' <> k ->
                get k' (fst (st, one_more_failed k why r)) = get k' st)
             /\ (forall e, In e (errors r) ->
                   In e (errors (snd (st, one_more_failed k why r))))).
  { intros why. split; [reflexivity|]. intros e He. cbn.
    apply in_app_iff. auto. }
  assert (Hupdate : forall updates,
             p_id updates = None ->
             let run := match updateShortcut urlProtocol k updates now st with
                        | (st', inl _) => (st', one_more_updated r)
                        | (st', inr e) => (st', one_more_failed k (Thrown e) r)
                        end in
             (forall k', k' <> k -> get k' (fst run) = get k' st)
             /\ (forall e, In e (errors r) -> In e (errors (snd run)))).
  { intros updates Hnoid.
    destruct (updateShortcut urlProtocol k updates now st) as [st1 [stored|e]] eqn:Hup;
      cbv zeta.
    - apply updateShortcut_stored in Hup as (existing & _ & -> & Hid & _).
      rewrite Hnoid in Hid. cbn [or_else] in Hid.
      split; [|auto]. intros k' Hk'. cbn [fst]. apply get_put_other.
      congruence.
    - apply updateShortcut_failure in Hup as [-> _]. apply Hfail. }
  destruct (get k st) as [shortcut|]; [|apply Hfail].
  destruct op as [|newTags|tag|operationData|other];
    [| apply Hupdate; reflexivity | apply Hupdate; reflexivity
     | apply Hupdate, move_patch_no_id | apply Hfail].
  split; [|auto]. intros k' Hk'. cbn [fst deleteShortcut].
  apply get_delete_other, Hk'.
Qed.

Lemma bulkLoop_frame (op : bulk) (clock : nat -> string) (ids : list string)
      (st : store) (r : bulk_results) :
  let run := fold_left (fun state k => bulkStep urlProtocol op clock k state)
                       ids (st, r) in
  (forall k', ~ In k' ids -> get k' (fst run) = get k' st)
  /\ (forall e, In e (errors r) -> In e (errors (snd run))).
Proof.
  revert st r. induction ids as [|k ids IH]; intros st r; cbn [fold_left].
  - cbn. auto.
  - destruct (bulkStep_frame op clock k st r) as [Hget Herr].
    destruct (bulkStep urlProtocol op clock k (st, r)) as [st1 r1].
    cbn [fst snd] in Hget, Herr.
    destruct (IH st1 r1) as [Hget' Herr']. cbv zeta. split.
    + intros k' Hk'. rewrite Hget' by (cbn in Hk'; tauto).
      apply Hget. cbn in Hk'. intros E. apply Hk'. left. symmetry. exact E.
    + auto.
Qed.

Lemma bulkLoop_effect (op : bulk) (clock : nat -> string)
      (ids : list string) :
  NoDup ids ->
  forall (st : store) (r : bulk_results) (k : string),
    let run := fold_left (fun state k => bulkStep urlProtocol op clock k state)
                         ids (st, r) in
    In k ids ->
    ~ In k (map fst (errors (snd run))) ->
    exists s, get k st = Some s /\ applied op s (get k (fst run)).
Proof.
  induction 1 as [|k0 ids Hnew Hnd IH]; intros st r k run; [intros []|].
  subst run. cbn [fold_left].
  pose proof (bulkStep_frame op clock k0 st r) as [Hget1 _].
  pose proof (bulkStep_effect op clock k0 st r) as Heffect.
  pose proof (bulkStep_missing op clock k0 st r) as Hmissing.
  destruct (bulkStep urlProtocol op clock k0 (st, r)) as [st1 r1].
  cbn [fst snd] in Hget1, Heffect, Hmissing.
  destruct (bulkLoop_frame op clock ids st1 r1) as [Hframe Hkeep].
  cbv zeta in Hframe, Hkeep.
  intros [<-|Hin] Hok.
  - assert (Hclean : forall f, ~ In (k0, f) (errors r1)).
    { intros f Hf. apply Hok. apply in_map_iff. exists (k0, f).
      split; [reflexivity | apply Hkeep, Hf]. }
    destruct (get k0 st) as [s|] eqn:Hget.
    + exists s. split; [reflexivity|].
      destruct (Heffect s eq_refl) as [[f Hf]|Happlied];
        [exfalso; apply (Hclean f Hf)|].
      rewrite (Hframe k0 Hnew). exact Happlied.
    + exfalso. destruct (Hmissing eq_refl) as [f Hf]. apply (Hclean f Hf).
  - destruct (IH st1 r1 k Hin Hok) as (s & Hs & Happlied).
    exists s. split; [|exact Happlied].
    rewrite <- Hs. symmetry. apply Hget1. intros ->. contradiction.
Qed.

End WithUrlParser.

(** For distinct ids, every id that a bulk operation does not report in
    its errors was stored before the call and has had the operation applied:
    deleted; or stored with its tags extended by the new tags, or reduced by
    the removed tag, as a set of trimmed entries; or stored with the new
    folder (with no folder, read as the root, when the move is called
    without one).  Alias and the untouched folder are kept. *)
Theorem bulkOperation_applies_to_unfailed
        (urlProtocol : string -> option string)
        (ids : list string) (op : bulk) (clock : nat -> string) (st : store)
        (k : string) :
  NoDup ids ->
  In k ids ->
  ~ In k (map fst (errors (snd (bulkOperation urlProtocol ids op clock st)))) ->
  exists s,
    get k st = Some s
    /\ applied op s (get k (fst (bulkOperation urlProtocol ids op clock st))).
Proof.
  intros Hnd Hin Hok. unfold bulkOperation in *.
  exact (bulkLoop_effect urlProtocol op clock ids Hnd st _ k Hin Hok).
Qed.

Lemma bulkOperation_applies_to_unfailed_witness :
  let st := [Samples.shortcut "1" "work" "meet"; Samples.shortcut "2" "team" "plan"] in
  let run := bulkOperation Samples.schemeOf ["2"; "9"]
               (BulkAddTags [" docs"; "wiki"; "docs"])
               (Samples.at_time "2025-10-23T00:00:00Z") st in
  NoDup ["2"; "9"] /\ In "2" ["2"; "9"]
  /\ map fst (errors (snd run)) = ["9"]
  /\ exists s, get "2" st = Some s
              /\ applied (BulkAddTags [" docs"; "wiki"; "docs"]) s
                         (get "2" (fst run)).
Proof.
  intros st run.
  assert (Hnd : NoDup ["2"; "9"]).
  { constructor; [intros [E|[]]; discriminate E|].
    constructor; [intros []|]. constructor. }
  assert (Hok : ~ In "2" (map fst (errors (snd run)))).
  { vm_compute. intros [E|[]]. discriminate E. }
  split; [exact Hnd|]. split; [left; reflexivity|]. split; [reflexivity|].
  exact (bulkOperation_applies_to_unfailed Samples.schemeOf ["2"; "9"]
           (BulkAddTags [" docs"; "wiki"; "docs"])
           (Samples.at_time "2025-10-23T00:00:00Z") st "2"
           Hnd (or_introl eq_refl) Hok).
Defined.

End BulkFacts.

(** ** useRecentShortcuts.js: the recent and the most used shortcuts *)

Module RecentFacts.
Import Store ShortcutService JsArray JsArrayFacts.
Import RecentShortcuts.

Lemma byLastAccessed_total (a b : Shortcut) :
  (0 < byLastAccessed a b)%Z -> (byLastAccessed b a <= 0)%Z.
Proof. unfold byLastAccessed. lia. Qed.

Lemma byLastAccessed_trans (a b c : Shortcut) :
  (byLastAccessed a b <= 0)%Z -> (byLastAccessed b c <= 0)%Z ->
  (byLastAccessed a c <= 0)%Z.
Proof. unfold byLastAccessed. lia. Qed.

Section SortedFilter.
Context {A : Type}.
Variable cmp : A -> A -> Z.
Hypothesis cmp_trans :
  forall a b c, (cmp a b <= 0)%Z -> (cmp b c <= 0)%Z -> (cmp a c <= 0)%Z.
Variable keep : A -> bool.

Lemma insert_before_all (x : A) (l : list A) :
  Forall (ordered cmp x) l -> insert cmp x l = x :: l.
Proof.
  destruct l as [|y l]; [reflexivity|]. intros H.
  apply Forall_inv in H. unfold ordered in H. cbn [insert].
  destruct (Z.leb_spec (cmp x y) 0); [reflexivity | lia].
Qed.

(** Inserting into a sorted array and then filtering is filtering and then
    inserting. *)
Lemma filter_insert_sorted (x : A) (l : list A) :
  StronglySorted (ordered cmp) l ->
  filter keep (insert cmp x l)
  = if keep x then insert cmp x (filter keep l) else filter keep l.
Proof.
  induction 1 as [|y l Hs IH Hall]; cbn [insert filter].
  - destruct (keep x); reflexivity.
  - destruct (Z.leb_spec (cmp x y) 0) as [Hle|Hgt]; cbn [filter].
    + destruct (keep x); [|reflexivity].
      symmetry. apply insert_before_all.
      apply Forall_forall. intros z Hz.
      assert (Hin : In z (filter keep (y :: l))) by exact Hz.
      apply filter_In in Hin as [[<-|Hin] _]; [exact Hle|].
      rewrite Forall_forall in Hall.
      apply (cmp_trans x y z Hle (Hall z Hin)).
    + rewrite IH. destruct (keep y), (keep x); cbn [insert]; try reflexivity.
      destruct (Z.leb_spec (cmp x y) 0); [lia | reflexivity].
Qed.

Hypothesis cmp_total : forall a b, (0 < cmp a b)%Z -> (cmp b a <= 0)%Z.

Lemma sort_of_filter (l : list A) :
  sort cmp (filter keep l) = filter keep (sort cmp l).
Proof.
  induction l as [|x l IH]; [reflexivity|].
  cbn [sort filter].
  rewrite filter_insert_sorted
    by (apply sort_strongly_sorted; assumption).
  destruct (keep x); cbn [sort]; rewrite IH; reflexivity.
Qed.

End SortedFilter.

(** In an array ordered by access count, highest first, the used
    shortcuts come first. *)
Lemma used_first (n : nat) (l : list Shortcut) :
  StronglySorted (ordered byAccessCount) l ->
  firstn n (filter (fun s => (0 <? accessCount s)%nat) l)
  = filter (fun s => (0 <? accessCount s)%nat) (firstn n l).
Proof.
  intros Hs. revert n. induction Hs as [|y l Hs IH Hall]; intros n.
  - destruct n; reflexivity.
  - destruct n as [|n]; [reflexivity|].
    cbn [firstn filter].
    destruct (Nat.ltb_spec 0 (accessCount y)) as [Hused|Hnever].
    + cbn [firstn]. rewrite IH. reflexivity.
    + assert (Hnone : forall l', (forall z, In z l' -> In z l) ->
                filter (fun s => (0 <? accessCount s)%nat) l' = []).
      { intros l' Hsub. induction l' as [|z l' IHl']; [reflexivity|].
        cbn [filter]. rewrite Forall_forall in Hall.
        assert (Hz : ordered byAccessCount y z)
          by (apply Hall, Hsub; left; reflexivity).
        unfold ordered, byAccessCount in Hz.
        destruct (Nat.ltb_spec 0 (accessCount z)); [lia|].
        apply IHl'. intros w Hw. apply Hsub. right. exact Hw. }
      rewrite (Hnone l) by auto.
      rewrite (Hnone (firstn n l)).
      * destruct n; reflexivity.
      * intros z Hz. rewrite <- (firstn_skipn n l).
        apply in_app_iff. auto.
Qed.

(** The hook's most used shortcuts are the service's frequent shortcuts
    without those never opened: for the same shortcuts and limit,
    [getMostUsedShortcuts(limit)] is [getFrequentShortcuts(limit)] with the
    entries of access count 0 left out. *)
Theorem getMostUsedShortcuts_of_frequent (limit : nat) (st : store) :
  getMostUsedShortcuts limit (getAll st)
  = filter (fun s => (0 <? accessCount s)%nat) (getFrequentShortcuts limit st).
Proof.
  unfold getMostUsedShortcuts, getFrequentShortcuts, slice0.
  rewrite (sort_of_filter byAccessCount FrequentClaims.byAccessCount_trans
             _ FrequentClaims.byAccessCount_total).
  apply used_first, sort_strongly_sorted;
    [apply FrequentClaims.byAccessCount_total
    | apply FrequentClaims.byAccessCount_trans].
Qed.

(** The recent list holds at most [maxRecent] of the shortcuts opened
    after the cutoff, the latest first; no shortcut opened after the
    cutoff and left out was opened later than one that is listed; and
    shortcuts never opened are not listed. *)
Theorem recentShortcuts_latest_first
        (clock recentDays : Z) (maxRecent : nat) (shortcuts : list Shortcut) :
  let cutoffDate := (clock - recentDays * 86400000)%Z in
  let recent := recentShortcuts clock recentDays maxRecent shortcuts in
  List.length recent <= maxRecent
  /\ (exists others,
        Permutation (recent ++ others)
          (filter (accessedAfter cutoffDate) shortcuts)
        /\ forall x y, In x recent -> In y others ->
             (lastAccessedOr0 y <= lastAccessedOr0 x)%Z)
  /\ StronglySorted
       (fun a b => (lastAccessedOr0 b <= lastAccessedOr0 a)%Z) recent
  /\ Forall (fun s => exists t, lastAccessedAt s = Some t
                                /\ (cutoffDate < t)%Z /\ t <> 0%Z) recent.
Proof.
  intros cutoffDate recent. subst recent. unfold recentShortcuts, slice0.
  replace (clock - recentDays * 24 * 60 * 60 * 1000)%Z with cutoffDate
    by (unfold cutoffDate; lia).
  cbv zeta.
  set (among := filter (accessedAfter cutoffDate) shortcuts).
  set (sorted := sort byLastAccessed among).
  assert (Hss : StronglySorted (ordered byLastAccessed) sorted).
  { apply sort_strongly_sorted;
      [apply byLastAccessed_total | apply byLastAccessed_trans]. }
  pose proof Hss as Hsplit.
  rewrite <- (firstn_skipn maxRecent sorted) in Hsplit.
  apply strongly_sorted_app in Hsplit as [Htop Hcross].
  split; [apply firstn_le_length|]. split; [|split].
  - exists (skipn maxRecent sorted). split.
    + rewrite firstn_skipn. apply sort_perm.
    + intros x y Hx Hy. specialize (Hcross x y Hx Hy).
      unfold ordered, byLastAccessed in Hcross. lia.
  - apply (PopupFacts.strongly_sorted_weaken (ordered byLastAccessed));
      [|exact Htop].
    intros a b Hab. unfold ordered, byLastAccessed in Hab. lia.
  - apply Forall_forall. intros s Hs.
    assert (Hin : In s among).
    { apply (Permutation_in _ (sort_perm byLastAccessed among)).
      rewrite <- (firstn_skipn maxRecent (sort byLastAccessed among)).
      apply in_app_iff. left. exact Hs. }
    apply filter_In in Hin as [_ Hafter]. unfold accessedAfter in Hafter.
    destruct (lastAccessedAt s) as [t|]; [|discriminate].
    apply andb_true_iff in Hafter as [Hnz Hlt].
    exists t. split; [reflexivity|]. split; [lia|].
    apply negb_true_iff, Z.eqb_neq in Hnz. exact Hnz.
Qed.

End RecentFacts.
